(** * llama-load-time: a shallow embedding of [model.py]

    Definitions come first, in this order: the Python and torch primitives,
    the configuration and tokenizer records, the greedy generation loop
    ([generate]), the construction of the modules at the level of tensor
    shapes, the shape contract of the rotary encoding, the forward pass of
    the decoder with its arithmetic idealised over the reals, and
    attention in IEEE 754 floating point; then [Tokenizer.encode], what the
    generation loop assumes of the model and keeps true, and the forward
    pass on tensor shapes down to the rotary encoding.  The theorems
    follow, one module of facts per module of definitions, and further
    modules of facts on the same definitions.

    Integers are Python integers ([Z]); Python floats that take part in
    integer results are binary64 floats ([PrimFloat.float]); tensors are
    nested lists; an operation that raises returns [None]. *)

From Stdlib Require Import ZArith List Lia Bool Floats.
From Stdlib Require Reals Lra QArith Qround String Ascii.
From stdpp Require Import base option list.
Import ListNotations.

Local Open Scope Z_scope.

(** ** Python and torch primitives shared by the whole file *)

Module Py.

(** [int(x)] on a float: truncation toward zero; raises on inf and nan. *)
Definition int_of_float (f : float) : option Z :=
  match Prim2SF f with
  | S754_zero _ => Some 0
  | S754_finite s m e =>
      let v := if 0 <=? e then Z.shiftl (Zpos m) e
               else Z.shiftr (Zpos m) (- e) in
      Some (if s then - v else v)
  | S754_infinity _ => None
  | S754_nan => None
  end.

(** Conversion of a Python int to a float, round to nearest even; Python
    raises OverflowError when the value does not fit. *)
Definition float_of_int (z : Z) : option float :=
  match binary_normalize 53 1024 z 0 false with
  | S754_infinity _ => None
  | sf => Some (SF2Prim sf)
  end.

(** [a / b] on two Python ints: the quotient of the two integers rounded
    once, to nearest even; ZeroDivisionError on a zero divisor and
    OverflowError when the quotient is too large for a float. *)
Definition true_div (a b : Z) : option float :=
  if b =? 0 then None
  else
    let s := xorb (a <? 0) (b <? 0) in
    if a =? 0 then Some (SF2Prim (S754_zero s))
    else
      let '(m, e, l) :=
        SFdiv_core_binary 53 1024 (Z.abs a) 0 (Z.abs b) 0 in
      match binary_round_aux 53 1024 s m e l with
      | S754_infinity _ => None
      | sf => Some (SF2Prim sf)
      end.

(** [a // b]: floor division, ZeroDivisionError on a zero divisor. *)
Definition floor_div (a b : Z) : option Z :=
  if b =? 0 then None else Some (a / b).

(** A slice bound normalised against the length, as [PySlice_AdjustIndices]
    does for a step of one. *)
Definition slice_bound (len i : Z) : Z :=
  if i <? 0 then Z.max (i + len) 0 else Z.min i len.

(** [l[lo:hi]] for arbitrary integer bounds. *)
Definition slice {A} (lo hi : Z) (l : list A) : list A :=
  let len := Z.of_nat (length l) in
  let a := slice_bound len lo in
  let b := slice_bound len hi in
  take (Z.to_nat (b - a)) (drop (Z.to_nat a) l).

(** [l.index(x)], [None] when [x not in l]. *)
Fixpoint index (x : Z) (l : list Z) : option nat :=
  match l with
  | [] => None
  | y :: r => if y =? x then Some 0%nat else S <$> index x r
  end.

(** The range of a signed 64-bit integer ([torch.long]). *)
Definition int64_ok (z : Z) : bool := (- 2 ^ 63 <=? z) && (z <? 2 ^ 63).

(** [min(...)] and [max(...)] over a generator: ValueError when empty. *)
Definition min_of (l : list Z) : option Z :=
  match l with
  | [] => None
  | x :: r => Some (foldl Z.min x r)
  end.

Definition max_of (l : list Z) : option Z :=
  match l with
  | [] => None
  | x :: r => Some (foldl Z.max x r)
  end.

End Py.

(** ** Configuration and tokenizer *)

Record ModelArgs := {
  dim : Z;
  n_layers : Z;
  n_heads : Z;
  n_kv_heads : option Z;
  vocab_size : Z;
  multiple_of : Z;
  ffn_dim_multiplier : option float;
  norm_eps : float;
  max_batch_size : Z;
  max_seq_len : Z;
  img_len : Z;
  img_dim : Z;
  max_gen_len : Z
}.

(** The defaults of the dataclass. *)
Definition default_args : ModelArgs := {|
  dim := 4096;
  n_layers := 32;
  n_heads := 32;
  n_kv_heads := None;
  vocab_size := 32000;
  multiple_of := 256;
  ffn_dim_multiplier := None;
  norm_eps := 0x1.4f8b588e368f1p-17%float;  (* 1e-5 *)
  max_batch_size := 32;
  max_seq_len := 1024;
  img_len := 577;
  img_dim := 1024;
  max_gen_len := 32
|}.

(** The four integers the tokenizer reads from its backing model. *)
Record Tokenizer := {
  n_words : Z;
  bos_id : Z;
  eos_id : Z;
  pad_id : Z
}.

(** ** The generation loop ([generate]) *)

Module Generate.

(** The token buffer [gen_toks] and the flag vector [eos_reached], the two
    tensors the loop updates in place. *)
Record gen_state := {
  gen_toks : list (list Z);
  eos_reached : list bool
}.

(** [t[:, p]] of a two-dimensional tensor given as a list of rows. *)
Definition column {A} (p : nat) (t : list (list A)) : option (list A) :=
  mapM (λ row, row !! p) t.

(** [t[:, p] = v]. *)
Definition set_column {A} (p : nat) (v : list A) (t : list (list A))
  : list (list A) :=
  zip_with (λ row x, <[p := x]> row) t v.

(** [torch.where(c, a, b)] on three vectors of one length. *)
Definition torch_where {A} (c : list bool) (a b : list A) : list A :=
  zip_with (λ m ab, if m : bool then ab.1 else ab.2) c (zip a b).

Section WithModel.

(** Logits are kept abstract: a type with the strict order [argmax]
    compares with.  [forward] is [model.forward] on a batch of token
    rows; it returns a (batch, sequence, vocabulary) tensor or raises. *)
Context {logit : Type}.
Variable logit_ltb : logit → logit → bool.
Variable forward : list (list Z) → option (list (list (list logit))).
Variable tokenizer : Tokenizer.
Variable model_args : ModelArgs.

(** [torch.argmax] over one vector: the index of the first maximal
    entry; raises on an empty vector. *)
Fixpoint argmax_from (best : logit) (best_i i : nat) (l : list logit)
  : nat :=
  match l with
  | [] => best_i
  | x :: r =>
      if logit_ltb best x then argmax_from x i (S i) r
      else argmax_from best best_i (S i) r
  end.

Definition argmax (l : list logit) : option Z :=
  match l with
  | [] => None
  | x :: r => Some (Z.of_nat (argmax_from x 0 1 r))
  end.

(** [torch.argmax(logits[:, -1], dim=-1).reshape(-1)]: indexing the
    sequence dimension with -1 raises when it is empty. *)
Definition next_candidates (logits : list (list (list logit)))
  : option (list Z) :=
  lasts ← mapM (λ row, last row) logits;
  mapM argmax lasts.

(** [max_gen_len]: the explicit cap when it is truthy, else derived. *)
Definition cap (max_gen : Z) : Z :=
  if max_gen =? 0 then max_seq_len model_args - 1 else max_gen.

Definition lens (prompt_toks : list (list Z)) : list Z :=
  map (λ t, Z.of_nat (length t)) prompt_toks.

Definition total_len (prompt_toks : list (list Z)) (max_gen : Z)
  : option Z :=
  max_tok_len ← Py.max_of (lens prompt_toks);
  Some (Z.min (max_seq_len model_args) (cap max_gen + max_tok_len)).

(** One row of the buffer after [gen_toks[k, : len(t)] = tensor(t)].  The
    assignment raises when the prompt is longer than the row, except for
    a one-token prompt, which broadcasts into the (then empty) slice. *)
Definition prompt_row (ttl_len : Z) (t : list Z) : option (list Z) :=
  if forallb Py.int64_ok t
     && ((Z.of_nat (length t) <=? ttl_len) || (length t =? 1)%nat)
  then Some (take (Z.to_nat ttl_len)
               (t ++ replicate (Z.to_nat ttl_len - length t)%nat
                       (pad_id tokenizer)))
  else None.

(** [torch.full((bsz, ttl_len), pad_id)] followed by the copy of every
    prompt. *)
Definition init_buffer (ttl_len : Z) (prompt_toks : list (list Z))
  : option (list (list Z)) :=
  if (0 <=? ttl_len) && Py.int64_ok (pad_id tokenizer)
  then mapM (prompt_row ttl_len) prompt_toks
  else None.

(** [gen_toks != pad_id]. *)
Definition text_mask (buf : list (list Z)) : list (list bool) :=
  map (map (λ x, negb (x =? pad_id tokenizer))) buf.

(** The body of the [for cur_pos] loop, before the [break] test. *)
Definition loop_body (input_text_mask : list (list bool)) (cur_pos : nat)
    (st : gen_state) : option gen_state :=
  logits ← forward (map (take cur_pos) (gen_toks st));
  nxt_tok ← next_candidates logits;
  guard (length nxt_tok = length (gen_toks st));;
  mask_col ← column cur_pos input_text_mask;
  tok_col ← column cur_pos (gen_toks st);
  let nxt_tok := torch_where mask_col tok_col nxt_tok in
  Some {|
    gen_toks := set_column cur_pos nxt_tok (gen_toks st);
    eos_reached :=
      zip_with orb (eos_reached st)
        (zip_with (λ m x, negb m && (x =? eos_id tokenizer))
           mask_col nxt_tok)
  |}.

(** The loop over the remaining positions, with its early exit. *)
Fixpoint loop (input_text_mask : list (list bool)) (positions : list nat)
    (st : gen_state) : option gen_state :=
  match positions with
  | [] => Some st
  | cur_pos :: rest =>
      st' ← loop_body input_text_mask cur_pos st;
      if forallb (λ b, b) (eos_reached st') then Some st'
      else loop input_text_mask rest st'
  end.

(** [range(a, b)] for Python ints with [0 <= a]. *)
Definition range (a b : Z) : list nat :=
  seq (Z.to_nat a) (Z.to_nat (b - a)).

Definition init_state (buf : list (list Z)) : gen_state :=
  {| gen_toks := buf; eos_reached := replicate (length buf) false |}.

(** The state the loop of [generate] ends in. *)
Definition generate_state (prompt_toks : list (list Z)) (max_gen : Z)
  : option gen_state :=
  min_tok_len ← Py.min_of (lens prompt_toks);
  ttl_len ← total_len prompt_toks max_gen;
  buf ← init_buffer ttl_len prompt_toks;
  loop (text_mask buf) (range min_tok_len ttl_len) (init_state buf).

(** The post-processing of one row. *)
Definition out_row (max_gen_len : Z) (prompt toks : list Z) : list Z :=
  let prompt_toks_len := Z.of_nat (length prompt) in
  let toks := Py.slice prompt_toks_len (prompt_toks_len + max_gen_len)
                toks in
  match Py.index (eos_id tokenizer) toks with
  | Some eos_idx => take eos_idx toks
  | None => toks
  end.

Definition generate (prompt_toks : list (list Z)) (max_gen : Z)
  : option (list (list Z)) :=
  st ← generate_state prompt_toks max_gen;
  Some (zip_with (out_row (cap max_gen)) prompt_toks (gen_toks st)).

(** *** The loop seen as a transition system

    [started] names the values [generate] computes before its loop;
    [at_head mask p0 st0 p st] says that the loop begun at position [p0]
    in state [st0] arrives at the top of its body with [cur_pos = p] and
    state [st]; [iteration] is one execution of the body inside a call of
    [generate] whose set-up produced the given lengths and buffer. *)

Definition started (prompt_toks : list (list Z)) (max_gen : Z)
    (min_tok_len ttl_len : Z) (buf : list (list Z)) : Prop :=
  Py.min_of (lens prompt_toks) = Some min_tok_len
  ∧ total_len prompt_toks max_gen = Some ttl_len
  ∧ init_buffer ttl_len prompt_toks = Some buf.

Inductive at_head (input_text_mask : list (list bool)) (p0 : nat)
    (st0 : gen_state) : nat → gen_state → Prop :=
| head_first : at_head input_text_mask p0 st0 p0 st0
| head_next p st st' :
    at_head input_text_mask p0 st0 p st →
    loop_body input_text_mask p st = Some st' →
    forallb (λ b, b) (eos_reached st') = false →
    at_head input_text_mask p0 st0 (S p) st'.

Definition iteration (min_tok_len ttl_len : Z) (buf : list (list Z))
    (cur_pos : nat) (st st' : gen_state) : Prop :=
  at_head (text_mask buf) (Z.to_nat min_tok_len) (init_state buf)
    cur_pos st
  ∧ Z.of_nat cur_pos < ttl_len
  ∧ loop_body (text_mask buf) cur_pos st = Some st'.

(** The candidates the model proposes for column [cur_pos]. *)
Definition candidates (cur_pos : nat) (st : gen_state) : option (list Z) :=
  forward (map (take cur_pos) (gen_toks st)) ≫= next_candidates.

(** Entry [(i, p)] of a two-dimensional tensor. *)
Definition entry {A} (t : list (list A)) (i p : nat) : option A :=
  t !! i ≫= λ row, row !! p.

(** What the loop keeps true at the top of its body: the flag vector has
    one entry per row, and every row still holds, from [cur_pos] on, what
    the initial buffer held. *)
Definition inv (buf : list (list Z)) (p : nat) (st : gen_state) : Prop :=
  length (eos_reached st) = length buf
  ∧ Forall2 (λ row row0,
       length row = length row0
       ∧ ∀ q, (p <= q)%nat → row !! q = row0 !! q)
      (gen_toks st) buf.

(** In-prompt preservation read by position alone: whenever the body
    runs at a column inside row [i]'s prompt, the prompt token is what
    the buffer holds afterwards. *)
Definition keeps_prompt_by_position (prompt_toks : list (list Z))
    (max_gen : Z) : Prop :=
  ∀ min_tok_len ttl_len buf cur_pos st st' i prompt x,
    started prompt_toks max_gen min_tok_len ttl_len buf →
    iteration min_tok_len ttl_len buf cur_pos st st' →
    prompt_toks !! i = Some prompt →
    prompt !! cur_pos = Some x →
    entry (gen_toks st') i cur_pos = Some x.

(** End-of-sequence tracking read by position alone: a flag that the body
    sets was set at a column beyond the row's own prompt. *)
Definition flags_set_beyond_prompt_only (prompt_toks : list (list Z))
    (max_gen : Z) : Prop :=
  ∀ min_tok_len ttl_len buf cur_pos st st' i prompt,
    started prompt_toks max_gen min_tok_len ttl_len buf →
    iteration min_tok_len ttl_len buf cur_pos st st' →
    prompt_toks !! i = Some prompt →
    eos_reached st !! i = Some false →
    eos_reached st' !! i = Some true →
    (length prompt <= cur_pos)%nat.

End WithModel.

End Generate.

(** ** Construction of the modules, at the level of tensor shapes

    Construction allocates weight tensors whose values come from random
    initialisation or from the checkpoint; what the constructors decide is
    the shape of every tensor, and whether allocation raises. *)

Module Build.

(** [hidden_dim = int(2 * hidden_dim / 3)] and the optional
    [hidden_dim = int(ffn_dim_multiplier * hidden_dim)]. *)
Definition reduce_hidden (hidden_dim : Z) (ffn_dim_multiplier : option float)
  : option Z :=
  f ← Py.true_div (2 * hidden_dim) 3;
  h ← Py.int_of_float f;
  match ffn_dim_multiplier with
  | None => Some h
  | Some m => hf ← Py.float_of_int h; Py.int_of_float (PrimFloat.mul m hf)
  end.

(** [multiple_of * ((hidden_dim + multiple_of - 1) // multiple_of)]. *)
Definition round_up (hidden_dim multiple_of : Z) : option Z :=
  q ← Py.floor_div (hidden_dim + multiple_of - 1) multiple_of;
  Some (multiple_of * q).

(** The effective hidden width computed by [FeedForward.__init__]. *)
Definition ffn_hidden_dim (hidden_dim multiple_of : Z)
    (ffn_dim_multiplier : option float) : option Z :=
  h ← reduce_hidden hidden_dim ffn_dim_multiplier;
  round_up h multiple_of.

(** The smallest integer [k] with [x <= k * m], for [0 < m]. *)
Definition ceil_div (x m : Z) : Z := - ((- x) / m).

Section WithAllocator.

(** The size in bytes of an element of the default tensor type, in which
    weights are created: 2 after [build] has set it to
    [torch.cuda.HalfTensor], 4 for single precision. *)
Variable float_size : Z.

(** Whether the machine has the memory for a tensor of a given element
    size and shape. *)
Variable grants : Z → list Z → bool.

(** A tensor allocation, for elements of [itemsize] bytes: raises on a
    negative size, on a size, a number of elements or a storage size in
    bytes that does not fit a signed 64-bit integer, and when the machine
    is out of memory. *)
Definition alloc (itemsize : Z) (shape : list Z) : option (list Z) :=
  let numel := foldr Z.mul 1 shape in
  if forallb (λ d, 0 <=? d) shape && forallb Py.int64_ok shape
     && Py.int64_ok numel && Py.int64_ok (numel * itemsize)
     && grants itemsize shape
  then Some shape else None.

(** [nn.Linear(in_features, out_features, bias=False)]: the weight has
    shape (out_features, in_features). *)
Definition Linear (in_features out_features : Z) : option (list Z) :=
  alloc float_size [out_features; in_features].

Record Attention := {
  att_n_heads : Z;
  att_head_dim : Z;
  wq : list Z;
  wk : list Z;
  wv : list Z;
  wo : list Z
}.

Definition Attention_init (args : ModelArgs) : option Attention :=
  head_dim ← Py.floor_div (dim args) (n_heads args);
  wq ← Linear (dim args) (n_heads args * head_dim);
  wk ← Linear (dim args) (n_heads args * head_dim);
  wv ← Linear (dim args) (n_heads args * head_dim);
  wo ← Linear (n_heads args * head_dim) (dim args);
  Some {| att_n_heads := n_heads args; att_head_dim := head_dim;
          wq := wq; wk := wk; wv := wv; wo := wo |}.

Record FeedForward := {
  w1 : list Z;
  w2 : list Z;
  w3 : list Z
}.

Definition FeedForward_init (dim hidden_dim multiple_of : Z)
    (ffn_dim_multiplier : option float) : option FeedForward :=
  hidden_dim ← ffn_hidden_dim hidden_dim multiple_of ffn_dim_multiplier;
  w1 ← Linear dim hidden_dim;
  w2 ← Linear hidden_dim dim;
  w3 ← Linear dim hidden_dim;
  Some {| w1 := w1; w2 := w2; w3 := w3 |}.

(** [RMSNorm(dim)]: the weight [torch.ones(dim)]. *)
Definition RMSNorm_init (dim : Z) : option (list Z) :=
  alloc float_size [dim].

Record TransformerBlock := {
  blk_head_dim : Z;
  attention : Attention;
  feed_forward : FeedForward;
  layer_id : Z;
  attention_norm : list Z;
  ffn_norm : list Z
}.

Definition TransformerBlock_init (layer_id : Z) (args : ModelArgs)
  : option TransformerBlock :=
  head_dim ← Py.floor_div (dim args) (n_heads args);
  attention ← Attention_init args;
  feed_forward ← FeedForward_init (dim args) (4 * dim args)
                   (multiple_of args) (ffn_dim_multiplier args);
  attention_norm ← RMSNorm_init (dim args);
  ffn_norm ← RMSNorm_init (dim args);
  Some {| blk_head_dim := head_dim; attention := attention;
          feed_forward := feed_forward; layer_id := layer_id;
          attention_norm := attention_norm; ffn_norm := ffn_norm |}.

(** The shape of the table [precompute_freqs_cis(dim, end)] returns:
    [torch.arange(0, dim, 2)] raises on a negative [dim], and
    [torch.arange(end)] on a negative [end].  The indices and the
    positions are 64-bit integers, the frequencies computed from the
    first [dim // 2] indices and their outer product with the positions
    are single-precision floats, and the table holds complex numbers of
    8 bytes. *)
Definition precompute_freqs_cis (dim end_ : Z) : option (list Z) :=
  if (0 <=? dim) && (0 <=? end_)
  then
    _ ← alloc 8 [(dim + 1) / 2];
    _ ← alloc 4 [Z.min (dim / 2) ((dim + 1) / 2)];
    _ ← alloc 8 [end_];
    _ ← alloc 4 [end_; Z.min (dim / 2) ((dim + 1) / 2)];
    alloc 8 [end_; Z.min (dim / 2) ((dim + 1) / 2)]
  else None.

Record Transformer := {
  tok_embeddings : list Z;
  freqs_cis : list Z;
  layers : list TransformerBlock;
  norm : list Z;
  output : list Z
}.

(** [range(n)] as a list of Python ints. *)
Definition range (n : Z) : list Z := map Z.of_nat (seq 0 (Z.to_nat n)).

Definition Transformer_init (params : ModelArgs) : option Transformer :=
  tok_embeddings ← alloc float_size [vocab_size params; dim params];
  head_dim ← Py.floor_div (dim params) (n_heads params);
  freqs_cis ← precompute_freqs_cis head_dim (max_seq_len params * 2);
  layers ← mapM (λ layer_id, TransformerBlock_init layer_id params)
             (range (n_layers params));
  norm ← RMSNorm_init (dim params);
  output ← Linear (dim params) (vocab_size params);
  Some {| tok_embeddings := tok_embeddings; freqs_cis := freqs_cis;
          layers := layers; norm := norm; output := output |}.

(** The element sizes and shapes of the tensors [Transformer(params)]
    allocates, for the feed-forward width [hidden] of its layers. *)
Definition tensors (params : ModelArgs) (hidden : Z) : list (Z * list Z) :=
  let head_dim := dim params / n_heads params in
  let half_dim := Z.min (head_dim / 2) ((head_dim + 1) / 2) in
  [(float_size, [vocab_size params; dim params]);
   (8, [(head_dim + 1) / 2]);
   (4, [half_dim]);
   (8, [max_seq_len params * 2]);
   (4, [max_seq_len params * 2; half_dim]);
   (8, [max_seq_len params * 2; half_dim]);
   (float_size, [dim params])]
  ++ (if 0 <? n_layers params
      then [(float_size, [n_heads params * head_dim; dim params]);
            (float_size, [dim params; n_heads params * head_dim]);
            (float_size, [hidden; dim params]);
            (float_size, [dim params; hidden])]
      else []).

(** The reading under which a head count that does not divide the
    dimension is refused when the model is built. *)
Definition rejects_indivisible_heads : Prop :=
  ∀ params, n_heads params ≠ 0 → dim params `mod` n_heads params ≠ 0 →
    Transformer_init params = None.

End WithAllocator.

End Build.

(** ** Rotary encoding, at the level of tensor shapes *)

Module RotaryShape.

Local Open Scope nat_scope.

Definition numel (s : list nat) : nat := foldr Nat.mul 1 s.

(** The shape of [view_as_complex] applied to [x.float()] reshaped to its
    leading dimensions followed by [-1, 2].
    The reshape raises on a tensor without dimensions, when the leading
    dimensions leave the inferred one ambiguous (a zero among them), and
    when the last dimension is odd. *)
Definition complex_view (s : list nat) : option (list nat) :=
  d ← last s;
  let lead := take (length s - 1) s in
  if (numel lead =? 0) || negb (Nat.even d) then None
  else Some (lead ++ [d / 2]).

(** [reshape_for_broadcast]: the two assertions, then the view, which
    raises when the element counts differ. *)
Definition reshape_for_broadcast (freqs_cis x : list nat)
  : option (list nat) :=
  let ndim := length x in
  guard (1 < ndim);;
  d1 ← x !! 1;
  dl ← last x;
  guard (freqs_cis = [d1; dl]);;
  let shape := imap (λ i d, if (i =? 1) || (i =? ndim - 1) then d else 1) x
  in
  guard (numel shape = numel freqs_cis);;
  Some shape.

(** Broadcasting of two shapes, aligned at the last dimension. *)
Fixpoint broadcast_rev (a b : list nat) : option (list nat) :=
  match a, b with
  | [], _ => Some b
  | _, [] => Some a
  | x :: a', y :: b' =>
      r ← broadcast_rev a' b';
      if x =? y then Some (x :: r)
      else if x =? 1 then Some (y :: r)
      else if y =? 1 then Some (x :: r)
      else None
  end.

Definition broadcast (a b : list nat) : option (list nat) :=
  reverse <$> broadcast_rev (reverse a) (reverse b).

(** [t.flatten(start)]: raises when [start] is not a dimension. *)
Definition flatten (start : nat) (s : list nat) : option (list nat) :=
  guard (start < length s);;
  Some (take start s ++ [numel (drop start s)]).

(** The shapes [apply_rotary_emb] returns. *)
Definition apply_rotary_emb (xq xk freqs_cis : list nat)
  : option (list nat * list nat) :=
  xq_ ← complex_view xq;
  xk_ ← complex_view xk;
  freqs_cis ← reshape_for_broadcast freqs_cis xq_;
  q ← broadcast xq_ freqs_cis;
  xq_out ← flatten 3 (q ++ [2]);
  k ← broadcast xk_ freqs_cis;
  xk_out ← flatten 3 (k ++ [2]);
  Some (xq_out, xk_out).

End RotaryShape.

(** ** The forward pass, with its arithmetic idealised over the reals

    Activations and weights are real numbers instead of 16- and 32-bit
    floats, and a raw attention score is a real or negative infinity: there
    is no rounding, no overflow and no NaN, and the exponential of negative
    infinity is zero.  What this leaves out is the subject of
    [FloatAttention].  Tensors are nested lists.  The arithmetic of the
    operations comes first, as total functions on one element of the batch
    that truncate ill-shaped operands to the common length; the forward
    passes of the modules follow, which return [None] where torch
    raises. *)

Module Numeric.

Import Reals.
Local Open Scope R_scope.

Abbreviation vec := (list R).

Definition sum (v : vec) : R := foldr Rplus 0 v.

Definition dot (a b : vec) : R := sum (zip_with Rmult a b).

(** [F.linear(x, W)] without bias: [W] has one row per output feature. *)
Definition linear (W : list vec) (x : vec) : vec := map (λ row, dot row x) W.

(** *** Rotary encoding *)

Abbreviation complex := (R * R)%type.

Definition cmul (a b : complex) : complex :=
  (a.1 * b.1 - a.2 * b.2, a.1 * b.2 + a.2 * b.1).

(** [torch.polar(abs, angle)]. *)
Definition polar (abs angle : R) : complex :=
  (abs * cos angle, abs * sin angle).

(** [torch.arange(0, stop, 2)]. *)
Definition arange2 (stop : nat) : list nat :=
  map (λ k, 2 * k)%nat (seq 0 ((stop + 1) / 2)).

Definition precompute_freqs_cis (dim end_ : nat) (theta : R)
  : list (list complex) :=
  let indices := arange2 dim in
  let sliced_indices := map INR (take (dim / 2) indices) in
  let scaled_indices := map (λ x, x / INR dim) sliced_indices in
  let theta_power := map (λ x, Rpower theta x) scaled_indices in
  let freqs := map (λ x, 1 / x) theta_power in
  let t := map INR (seq 0 end_) in
  let freqs := map (λ ti, map (λ f, ti * f) freqs) t in
  map (map (polar 1)) freqs.

(** [torch.view_as_complex] on a vector reshaped to pairs. *)
Fixpoint view_as_complex (x : vec) : list complex :=
  match x with
  | a :: b :: r => (a, b) :: view_as_complex r
  | _ => []
  end.

(** [torch.view_as_real] followed by the flattening of the pairs. *)
Definition view_as_real (z : list complex) : vec :=
  flat_map (λ c, [c.1; c.2]) z.

(** The rotation of one head vector by one row of the table. *)
Definition rotate (row : list complex) (x : vec) : vec :=
  view_as_real (zip_with cmul (view_as_complex x) row).

(** [apply_rotary_emb] on a (seqlen, n_heads, head_dim) tensor: the table
    is broadcast over the heads. *)
Definition apply_rotary (freqs_cis : list (list complex))
    (x : list (list vec)) : list (list vec) :=
  zip_with (λ row heads, map (rotate row) heads) freqs_cis x.

Definition apply_rotary_emb (xq xk : list (list vec))
    (freqs_cis : list (list complex)) : list (list vec) * list (list vec) :=
  (apply_rotary freqs_cis xq, apply_rotary freqs_cis xk).

(** *** RMSNorm *)

Record RMSNorm := { eps : R; weight : vec }.

Definition mean (v : vec) : R := sum v / INR (length v).

Definition RMSNorm_norm (n : RMSNorm) (x : vec) : vec :=
  let r := 1 / sqrt (mean (map (λ a, a * a) x) + eps n) in
  map (λ a, a * r) x.

Definition RMSNorm_forward (n : RMSNorm) (x : vec) : vec :=
  zip_with Rmult (RMSNorm_norm n x) (weight n).

(** *** Attention *)

(** A raw score: a real number or negative infinity. *)
Inductive score := Fin (r : R) | NegInf.

Definition score_add (a b : score) : score :=
  match a, b with
  | Fin x, Fin y => Fin (x + y)
  | _, _ => NegInf
  end.

Definition score_exp (a : score) : R :=
  match a with
  | Fin x => exp x
  | NegInf => 0
  end.

(** [F.softmax(scores, dim=-1)] on one row. *)
Definition softmax (row : list score) : vec :=
  let e := map score_exp row in
  map (λ x, x / sum e) e.

(** [torch.full((n, m), v)], [torch.triu(t, diagonal)] and
    [torch.hstack]. *)
Definition full {A} (n m : nat) (v : A) : list (list A) :=
  replicate n (replicate m v).

Definition triu (diagonal : nat) (t : list (list score))
  : list (list score) :=
  imap (λ i row,
    imap (λ j x, if (i + diagonal <=? j)%nat then x else Fin 0) row) t.

Definition hstack {A} (a b : list (list A)) : list (list A) :=
  zip_with app a b.

(** The mask [Transformer.forward] builds. *)
Definition causal_mask (seqlen : nat) : option (list (list score)) :=
  if (1 <? seqlen)%nat then
    let mask := full seqlen seqlen NegInf in
    let mask := triu 1 mask in
    Some (hstack (full seqlen 0 (Fin 0)) mask)
  else None.

(** [t.view(seqlen, n_heads, head_dim)] on a (seqlen, n_heads * head_dim)
    tensor. *)
Definition view_heads (n_heads head_dim : nat) (t : list vec)
  : list (list vec) :=
  map (λ x, map (λ h, take head_dim (drop (h * head_dim) x))
              (seq 0 n_heads)) t.

(** [t.transpose(0, 1)] on a tensor whose second dimension is [n]. *)
Definition transpose (n : nat) (t : list (list vec)) : list (list vec) :=
  map (λ h, map (λ row, default [] (row !! h)) t) (seq 0 n).

(** [torch.matmul(a, b.transpose(-1, -2))] and [torch.matmul(s, v)] on
    two-dimensional tensors; [width] is the row length of [v]. *)
Definition matmul_t (a b : list vec) : list vec :=
  map (λ ai, map (λ bj, dot ai bj) b) a.

Definition matmul (width : nat) (s v : list vec) : list vec :=
  map (λ si,
    map (λ d, sum (zip_with (λ w vj, w * default 0 (vj !! d)) si v))
      (seq 0 width)) s.

Record Attention := {
  n_heads : nat;
  head_dim : nat;
  wq : list vec;
  wk : list vec;
  wv : list vec;
  wo : list vec
}.

(** The attention of one head: scaled scores, mask, softmax, weighted sum
    of the values. *)
Definition head_attention (head_dim : nat) (mask : option (list (list score)))
    (xq xk xv : list vec) : list vec :=
  let dot_product := matmul_t xq xk in
  let scores :=
    map (map (λ x, Fin (x / sqrt (INR head_dim)))) dot_product in
  let scores :=
    match mask with
    | Some mask => zip_with (zip_with score_add) scores mask
    | None => scores
    end in
  let scores := map softmax scores in
  matmul head_dim scores xv.

(** Row [j] of [head_attention], for the query [qj] at that position and
    the row [mrow] of the mask. *)
Definition attention_row (head_dim : nat) (mrow : option (list score))
    (qj : vec) (xk xv : list vec) : vec :=
  let scores := map (λ kj, Fin (dot qj kj / sqrt (INR head_dim))) xk in
  let scores :=
    match mrow with
    | Some mrow => zip_with score_add scores mrow
    | None => scores
    end in
  map (λ d, sum (zip_with (λ w vj, w * default 0 (vj !! d))
                   (softmax scores) xv))
    (seq 0 head_dim).

(** *** The values of the forward pass

    What [Attention.forward], [FeedForward.forward], [TransformerBlock.forward]
    and [Transformer.forward] compute on a tensor of shape (seqlen, dim),
    one element of the batch, as total functions of nested lists.  The
    forward passes themselves follow below: they return these values when no
    operation raises. *)

Definition Attention_values (a : Attention) (x : list vec)
    (freqs_cis : list (list complex)) (mask : option (list (list score)))
  : list vec :=
  let seqlen := length x in
  let xq := map (linear (wq a)) x in
  let xk := map (linear (wk a)) x in
  let xv := map (linear (wv a)) x in
  let xq := view_heads (n_heads a) (head_dim a) xq in
  let xk := view_heads (n_heads a) (head_dim a) xk in
  let xv := view_heads (n_heads a) (head_dim a) xv in
  let '(xq, xk) := apply_rotary_emb xq xk freqs_cis in
  let xq := transpose (n_heads a) xq in
  let xk := transpose (n_heads a) xk in
  let xv := transpose (n_heads a) xv in
  let output :=
    zip_with (λ q kv, head_attention (head_dim a) mask q kv.1 kv.2)
      xq (zip xk xv) in
  let output := map (@List.concat R) (transpose seqlen output) in
  map (linear (wo a)) output.

Record FeedForward := { w1 : list vec; w2 : list vec; w3 : list vec }.

Definition silu (x : R) : R := x / (1 + exp (- x)).

Definition FeedForward_values (f : FeedForward) (x : vec) : vec :=
  linear (w2 f) (zip_with Rmult (map silu (linear (w1 f) x))
                   (linear (w3 f) x)).

Record TransformerBlock := {
  attention : Attention;
  feed_forward : FeedForward;
  attention_norm : RMSNorm;
  ffn_norm : RMSNorm
}.

(** Elementwise sum of two (seqlen, dim) tensors. *)
Definition add (a b : list vec) : list vec := zip_with (zip_with Rplus) a b.

Definition TransformerBlock_values (b : TransformerBlock) (x : list vec)
    (freqs_cis : list (list complex)) (mask : option (list (list score)))
  : list vec :=
  let h := add x (Attention_values (attention b)
                    (map (RMSNorm_forward (attention_norm b)) x)
                    freqs_cis mask) in
  add h (map (λ hi, FeedForward_values (feed_forward b)
                      (RMSNorm_forward (ffn_norm b) hi)) h).

Record Transformer := {
  tok_embeddings : list vec;
  layers : list TransformerBlock;
  freqs_cis : list (list complex);
  norm : RMSNorm;
  output : list vec
}.

Definition forward_values (m : Transformer) (toks : list Z) : list vec :=
  let seqlen := length toks in
  let h := map (λ tok, default [] (tok_embeddings m !! Z.to_nat tok)) toks in
  let freqs_cis := take seqlen (freqs_cis m) in
  let mask := causal_mask seqlen in
  let h := foldl (λ h layer, TransformerBlock_values layer h freqs_cis mask)
             h (layers m) in
  let h := map (RMSNorm_forward (norm m)) h in
  map (linear (output m)) h.

(** *** The forward pass

    The functions below take one element of the batch, a tensor of shape
    (seqlen, dim) given as the list of its rows, and return [None] where
    torch raises.  Every operation of torch acts on the elements of a
    batch independently; [Transformer_forward] adds the batch.

    Two limits of nested lists as tensors: a tensor without rows does not
    record its width, so an operation on it is taken to fit; and a
    product or sum of two tensors is taken on operands of one shape, while
    torch would also broadcast a width of one, so these functions return
    [None] there too.  Neither arises in a model built by the
    constructors, whose norms, projections and residuals all have width
    [dim]. *)

(** The call of an [nn.Linear] without bias: raises unless the rows of
    [x] have the width [in_features] of the rows of the weight. *)
Definition Linear_call (W x : list vec) : option (list vec) :=
  guard (Forall (λ xi, Forall (λ row : vec, length row = length xi) W) x);;
  Some (map (linear W) x).

(** The call of an [RMSNorm]: the product with the weight. *)
Definition RMSNorm_call (n : RMSNorm) (x : list vec) : option (list vec) :=
  guard (Forall (λ xi : vec, length xi = length (weight n)) x);;
  Some (map (RMSNorm_forward n) x).

(** [t.view(bsz, seqlen, n_heads, head_dim)]: raises unless the element
    counts are equal. *)
Definition view_call (n_heads head_dim : nat) (t : list vec)
  : option (list (list vec)) :=
  guard (Forall (λ r : vec, length r = (n_heads * head_dim)%nat) t);;
  Some (view_heads n_heads head_dim t).

(** The shape of a two-dimensional tensor. *)
Definition shape2 {A} (t : list (list A)) : option (list nat) :=
  match t with
  | [] => Some [0%nat; 0%nat]
  | r :: _ =>
      guard (Forall (λ r' : list A, length r' = length r) t);;
      Some [length t; length r]
  end.

(** [self.apply_rotary_emb(xq, xk, freqs_cis)] on (seqlen, n_heads,
    head_dim) tensors: it raises as [RotaryShape.apply_rotary_emb] says,
    for the shapes of one element of the batch. *)
Definition apply_rotary_emb_call (n_heads head_dim : nat)
    (xq xk : list (list vec)) (freqs_cis : list (list complex))
  : option (list (list vec) * list (list vec)) :=
  s ← shape2 freqs_cis;
  _ ← RotaryShape.apply_rotary_emb
        [1%nat; length xq; n_heads; head_dim]
        [1%nat; length xk; n_heads; head_dim] s;
  Some (apply_rotary_emb xq xk freqs_cis).

(** [scores + mask] for a mask of shape (seqlen, seqlen). *)
Definition mask_call (seqlen : nat) (mask : option (list (list score)))
  : option unit :=
  match mask with
  | Some M =>
      guard (length M = seqlen
             ∧ Forall (λ r : list score, length r = seqlen) M);;
      Some ()
  | None => Some ()
  end.

Definition Attention_forward (a : Attention) (x : list vec)
    (freqs_cis : list (list complex)) (mask : option (list (list score)))
  : option (list vec) :=
  let seqlen := length x in
  xq ← Linear_call (wq a) x;
  xk ← Linear_call (wk a) x;
  xv ← Linear_call (wv a) x;
  xq ← view_call (n_heads a) (head_dim a) xq;
  xk ← view_call (n_heads a) (head_dim a) xk;
  xv ← view_call (n_heads a) (head_dim a) xv;
  '(xq, xk) ← apply_rotary_emb_call (n_heads a) (head_dim a) xq xk
                 freqs_cis;
  let xq := transpose (n_heads a) xq in
  let xk := transpose (n_heads a) xk in
  let xv := transpose (n_heads a) xv in
  _ ← mask_call seqlen mask;
  let output :=
    zip_with (λ q kv, head_attention (head_dim a) mask q kv.1 kv.2)
      xq (zip xk xv) in
  let output := map (@List.concat R) (transpose seqlen output) in
  Linear_call (wo a) output.

Definition FeedForward_forward (f : FeedForward) (x : list vec)
  : option (list vec) :=
  a ← Linear_call (w1 f) x;
  g ← Linear_call (w3 f) x;
  guard (length (w1 f) = length (w3 f));;
  Linear_call (w2 f) (zip_with (zip_with Rmult) (map (map silu) a) g).

(** [a + b] on two tensors of one shape. *)
Definition add_call (a b : list vec) : option (list vec) :=
  guard (Forall2 (λ r r' : vec, length r = length r') a b);;
  Some (add a b).

Definition TransformerBlock_forward (b : TransformerBlock) (x : list vec)
    (freqs_cis : list (list complex)) (mask : option (list (list score)))
  : option (list vec) :=
  n ← RMSNorm_call (attention_norm b) x;
  att ← Attention_forward (attention b) n freqs_cis mask;
  h ← add_call x att;
  n ← RMSNorm_call (ffn_norm b) h;
  ff ← FeedForward_forward (feed_forward b) n;
  add_call h ff.

(** [nn.Embedding]: the row of the table at a token id; raises on an id
    outside the table. *)
Definition embedding (table : list vec) (tok : Z) : option vec :=
  guard (0 <= tok)%Z;;
  table !! Z.to_nat tok.

(** [Transformer.forward] on one row of the batch. *)
Definition forward_row (m : Transformer) (toks : list Z)
  : option (list vec) :=
  let seqlen := length toks in
  h ← mapM (embedding (tok_embeddings m)) toks;
  let freqs_cis := take seqlen (freqs_cis m) in
  let mask := causal_mask seqlen in
  h ← foldl (λ h layer,
               h ← h; TransformerBlock_forward layer h freqs_cis mask)
        (Some h) (layers m);
  h ← RMSNorm_call (norm m) h;
  Linear_call (output m) h.

(** [Transformer.forward] on a batch, a tensor of token ids: rows of one
    length.  On a batch without rows the rotary encoding of the first
    layer raises, and a model without layers returns a tensor without
    rows. *)
Definition Transformer_forward (m : Transformer) (toks : list (list Z))
  : option (list (list vec)) :=
  match toks with
  | [] => match layers m with [] => Some [] | _ :: _ => None end
  | t :: _ =>
      guard (Forall (λ r : list Z, length r = length t) toks);;
      mapM (forward_row m) toks
  end.


End Numeric.

(** ** The shapes construction gives the numeric model *)

Module NumericShape.

Import Numeric.

(** A nested list that is a tensor of [n] rows of width [m]. *)
Definition matrix {A} (n m : nat) (t : list (list A)) : Prop :=
  length t = n ∧ Forall (λ r, length r = m) t.

(** The shapes of the tensors of [TransformerBlock(layer_id, args)], for
    the feed-forward width [hidden]. *)
Definition block_shaped (dim n_heads head_dim hidden : nat)
    (b : TransformerBlock) : Prop :=
  Numeric.n_heads (attention b) = n_heads
  ∧ Numeric.head_dim (attention b) = head_dim
  ∧ matrix (n_heads * head_dim) dim (wq (attention b))
  ∧ matrix (n_heads * head_dim) dim (wk (attention b))
  ∧ matrix (n_heads * head_dim) dim (wv (attention b))
  ∧ matrix dim (n_heads * head_dim) (wo (attention b))
  ∧ matrix hidden dim (w1 (feed_forward b))
  ∧ matrix dim hidden (w2 (feed_forward b))
  ∧ matrix hidden dim (w3 (feed_forward b))
  ∧ length (weight (attention_norm b)) = dim
  ∧ length (weight (ffn_norm b)) = dim.

(** The shapes of the tensors of [Transformer(params)], with a rotary
    table of [rows] rows. *)
Definition shaped (vocab dim n_heads head_dim hidden rows : nat)
    (m : Transformer) : Prop :=
  matrix vocab dim (tok_embeddings m)
  ∧ Forall (block_shaped dim n_heads head_dim hidden) (layers m)
  ∧ matrix rows (head_dim / 2) (freqs_cis m)
  ∧ length (weight (norm m)) = dim
  ∧ matrix vocab dim (output m).

End NumericShape.

(** ** Attention in floating point

    [Attention.forward] and the mask of [Transformer.forward] in the
    arithmetic of the code: IEEE 754 binary floating point of precision
    [prec] and exponent bound [emax] (11 and 16 for the half precision
    that [build] selects, 24 and 128 for single precision).  Every
    operation rounds once to the format and sums run from left to right;
    the conversions between half and single precision inside
    [Attention.forward] are left out, and the exponential is given where
    its value is exact: elsewhere, and where torch raises, the functions
    return [None].  The order of the sums and the rounding of the
    exponential are those of the kernels torch selects, which the source
    does not fix. *)

Module FloatAttention.

Section WithFormat.

Variables prec emax : Z.

Abbreviation fl := spec_float.
Abbreviation fvec := (list spec_float).

Definition zero : fl := S754_zero false.
Definition neg_inf : fl := S754_infinity true.
Definition of_nat (n : nat) : fl :=
  binary_normalize prec emax (Z.of_nat n) 0 false.

Definition sum (v : fvec) : fl := foldl (SFadd prec emax) zero v.

Definition dot (a b : fvec) : fl := sum (zip_with (SFmul prec emax) a b).

Definition linear (W : list fvec) (x : fvec) : fvec :=
  map (λ row, dot row x) W.

Definition Linear_call (W x : list fvec) : option (list fvec) :=
  guard (Forall (λ xi, Forall (λ row : fvec, length row = length xi) W) x);;
  Some (map (linear W) x).

(** *** Rotary encoding *)

Abbreviation fcomplex := (spec_float * spec_float)%type.

Definition cmul (a b : fcomplex) : fcomplex :=
  (SFsub prec emax (SFmul prec emax a.1 b.1) (SFmul prec emax a.2 b.2),
   SFadd prec emax (SFmul prec emax a.1 b.2) (SFmul prec emax a.2 b.1)).

Fixpoint view_as_complex (x : fvec) : list fcomplex :=
  match x with
  | a :: b :: r => (a, b) :: view_as_complex r
  | _ => []
  end.

Definition view_as_real (z : list fcomplex) : fvec :=
  flat_map (λ c, [c.1; c.2]) z.

Definition rotate (row : list fcomplex) (x : fvec) : fvec :=
  view_as_real (zip_with cmul (view_as_complex x) row).

Definition apply_rotary (freqs_cis : list (list fcomplex))
    (x : list (list fvec)) : list (list fvec) :=
  zip_with (λ row heads, map (rotate row) heads) freqs_cis x.

Definition apply_rotary_emb_call (n_heads head_dim : nat)
    (xq xk : list (list fvec)) (freqs_cis : list (list fcomplex))
  : option (list (list fvec) * list (list fvec)) :=
  s ← Numeric.shape2 freqs_cis;
  _ ← RotaryShape.apply_rotary_emb
        [1%nat; length xq; n_heads; head_dim]
        [1%nat; length xk; n_heads; head_dim] s;
  Some (apply_rotary freqs_cis xq, apply_rotary freqs_cis xk).

(** *** The mask *)

Definition triu (diagonal : nat) (t : list fvec) : list fvec :=
  imap (λ i row,
    imap (λ j x, if (i + diagonal <=? j)%nat then x else zero) row) t.

Definition causal_mask (seqlen : nat) : option (list fvec) :=
  if (1 <? seqlen)%nat then
    let mask := Numeric.full seqlen seqlen neg_inf in
    let mask := triu 1 mask in
    Some (Numeric.hstack (Numeric.full seqlen 0 zero) mask)
  else None.

Definition mask_call (seqlen : nat) (mask : option (list fvec))
  : option unit :=
  match mask with
  | Some M =>
      guard (length M = seqlen ∧ Forall (λ r : fvec, length r = seqlen) M);;
      Some ()
  | None => Some ()
  end.

(** *** Softmax *)

(** The exponential at zero, at the infinities and at NaN. *)
Definition exp (x : fl) : option fl :=
  match x with
  | S754_zero _ => Some (of_nat 1)
  | S754_infinity true => Some zero
  | S754_infinity false => Some (S754_infinity false)
  | S754_nan => Some S754_nan
  | S754_finite _ _ _ => None
  end.

Definition max (row : fvec) : fl :=
  match row with
  | [] => neg_inf
  | x :: r => foldl (λ m y, if SFltb m y then y else m) x r
  end.

(** [F.softmax(scores, dim=-1)] on one row: the exponentials of the
    differences to the maximum, divided by their sum. *)
Definition softmax (row : fvec) : option fvec :=
  let m := max row in
  e ← mapM (λ x, exp (SFsub prec emax x m)) row;
  Some (map (λ x, SFdiv prec emax x (sum e)) e).

(** *** Attention *)

Definition view_heads (n_heads head_dim : nat) (t : list fvec)
  : list (list fvec) :=
  map (λ x, map (λ h, take head_dim (drop (h * head_dim) x))
              (seq 0 n_heads)) t.

Definition view_call (n_heads head_dim : nat) (t : list fvec)
  : option (list (list fvec)) :=
  guard (Forall (λ r : fvec, length r = (n_heads * head_dim)%nat) t);;
  Some (view_heads n_heads head_dim t).

Definition transpose (n : nat) (t : list (list fvec)) : list (list fvec) :=
  map (λ h, map (λ row, default [] (row !! h)) t) (seq 0 n).

Definition matmul_t (a b : list fvec) : list fvec :=
  map (λ ai, map (λ bj, dot ai bj) b) a.

Definition matmul (width : nat) (s v : list fvec) : list fvec :=
  map (λ si,
    map (λ d, sum (zip_with (λ w vj, SFmul prec emax w
                                       (default zero (vj !! d))) si v))
      (seq 0 width)) s.

Record Attention := {
  n_heads : nat;
  head_dim : nat;
  wq : list fvec;
  wk : list fvec;
  wv : list fvec;
  wo : list fvec
}.

(** The attention of one head: scaled scores, mask, softmax, weighted sum
    of the values. *)
Definition head_attention (head_dim : nat) (mask : option (list fvec))
    (xq xk xv : list fvec) : option (list fvec) :=
  let dot_product := matmul_t xq xk in
  let scale := SFsqrt prec emax (of_nat head_dim) in
  let scores := map (map (λ x, SFdiv prec emax x scale)) dot_product in
  let scores :=
    match mask with
    | Some mask => zip_with (zip_with (SFadd prec emax)) scores mask
    | None => scores
    end in
  scores ← mapM softmax scores;
  Some (matmul head_dim scores xv).

Definition Attention_forward (a : Attention) (x : list fvec)
    (freqs_cis : list (list fcomplex)) (mask : option (list fvec))
  : option (list fvec) :=
  let seqlen := length x in
  xq ← Linear_call (wq a) x;
  xk ← Linear_call (wk a) x;
  xv ← Linear_call (wv a) x;
  xq ← view_call (n_heads a) (head_dim a) xq;
  xk ← view_call (n_heads a) (head_dim a) xk;
  xv ← view_call (n_heads a) (head_dim a) xv;
  '(xq, xk) ← apply_rotary_emb_call (n_heads a) (head_dim a) xq xk
                 freqs_cis;
  let xq := transpose (n_heads a) xq in
  let xk := transpose (n_heads a) xk in
  let xv := transpose (n_heads a) xv in
  _ ← mask_call seqlen mask;
  output ← mapM (λ qkv : list fvec * (list fvec * list fvec),
                   head_attention (head_dim a) mask qkv.1 qkv.2.1 qkv.2.2)
             (zip xq (zip xk xv));
  let output := map (@List.concat spec_float) (transpose seqlen output) in
  Linear_call (wo a) output.


(** *** An instance with finite weights and inputs

    One head of dimension two; queries and keys are projected to zero, the
    values are doubled.  The two inputs hold ones, except that the second
    holds [2 ^ (emax - 1)], the largest power of two of the format, at
    position 1. *)






End WithFormat.

End FloatAttention.

(** ** Small concrete instances *)

Module Demo.

(** A toy model over eight tokens: at every position the logits favour
    the successor, modulo eight, of the token read there. *)
Definition onehot (k : nat) : list Z :=
  map (λ i, if (i =? k)%nat then 1 else 0) (seq 0 8).

Definition successor_model (toks : list (list Z))
  : option (list (list (list Z))) :=
  Some (map (map (λ t, onehot (Z.to_nat ((t + 1) `mod` 8)))) toks).

Definition tokenizer : Tokenizer :=
  {| n_words := 8; bos_id := 1; eos_id := 7; pad_id := 0 |}.

(** The same vocabulary with token 2 as the end id. *)
Definition tokenizer_eos_two : Tokenizer :=
  {| n_words := 8; bos_id := 1; eos_id := 2; pad_id := 0 |}.

(** A configuration whose head count does not divide its dimension. *)
Definition small_args : ModelArgs := {|
  dim := 10;
  n_layers := 2;
  n_heads := 3;
  n_kv_heads := None;
  vocab_size := 8;
  multiple_of := 4;
  ffn_dim_multiplier := None;
  norm_eps := 0x1.4f8b588e368f1p-17%float;
  max_batch_size := 2;
  max_seq_len := 16;
  img_len := 1;
  img_dim := 1;
  max_gen_len := 8
|}.

(** A machine with room for tensors of up to 2^32 bytes, and the element
    size of half precision. *)
Definition roomy (itemsize : Z) (shape : list Z) : bool :=
  foldr Z.mul 1 shape * itemsize <=? 2 ^ 32.

Definition half_size : Z := 2.

End Demo.

Module NumericDemo.

Import Reals.
Import Numeric.
Local Open Scope R_scope.

(** A one-layer, one-head transformer of dimension two over three
    tokens. *)
Definition tiny_transformer : Transformer :=
  let I2 : list vec := [[1; 0]; [0; 1]] in
  let n := {| eps := 1; weight := [1; 1] |} in
  {| tok_embeddings := [[1; 0]; [0; 1]; [1; 1]];
     layers :=
       [{| attention :=
             {| n_heads := 1; head_dim := 2;
                wq := I2; wk := I2; wv := I2; wo := I2 |};
           feed_forward := {| w1 := I2; w2 := I2; w3 := I2 |};
           attention_norm := n;
           ffn_norm := n |}];
     freqs_cis := precompute_freqs_cis 2 8 10000;
     norm := n;
     output := [[1; 0]; [0; 1]; [1; 1]] |}.

End NumericDemo.

(** ** [Tokenizer.encode] *)

Module Tok.

Section WithSentencePiece.

(** [sp_model.encode], the call into the SentencePiece library. *)
Variable sp_encode : String.string → list Z.

Definition encode (tk : Tokenizer) (s : String.string) (bos eos : bool)
  : list Z :=
  let t := sp_encode s in
  let t := if bos then [bos_id tk] ++ t else t in
  let t := if eos then t ++ [eos_id tk] else t in
  t.

End WithSentencePiece.

End Tok.

(** ** What [generate] assumes of the model, and what its loop keeps *)

Module GenerateInv.

Import Generate.

(** [model.forward] returns one row of logits per position of every row
    of its input, as [Transformer.forward] does. *)
Definition keeps_positions {logit : Type}
    (forward : list (list Z) → option (list (list (list logit)))) : Prop :=
  ∀ toks logits, forward toks = Some logits →
    Forall2 (λ t l, length l = length t) toks logits.

(** The logits [model.forward] returns at the last position range over a
    vocabulary of [V] entries. *)
Definition vocab_logits {logit : Type} (V : nat)
    (forward : list (list Z) → option (list (list (list logit)))) : Prop :=
  ∀ toks logits, forward toks = Some logits →
    Forall (λ l, ∀ v, last l = Some v → length v = V) logits.

(** The buffer still holds the initial buffer at every column before
    [p0], and wherever the initial buffer holds a token other than the
    pad id. *)
Definition prompt_kept (pad : Z) (p0 : nat) (buf : list (list Z))
    (st : gen_state) : Prop :=
  Forall2 (λ row row0,
     ∀ q, ((q < p0)%nat ∨ ∃ x0, row0 !! q = Some x0 ∧ x0 ≠ pad) →
       row !! q = row0 !! q)
    (gen_toks st) buf.

(** Between the end of a row's prompt and column [p] every token is an
    index into the vocabulary, and a row whose flag is set holds the end
    id there. *)
Definition in_vocab_after_prompt (V : nat) (eos : Z)
    (prompt_toks : list (list Z)) (p : nat) (st : gen_state) : Prop :=
  ∀ i t row, prompt_toks !! i = Some t → gen_toks st !! i = Some row →
    (∀ q, (length t <= q < p)%nat →
       ∃ x, row !! q = Some x ∧ 0 <= x < Z.of_nat V)
    ∧ (eos_reached st !! i = Some true →
       ∃ q, (length t <= q < p)%nat ∧ row !! q = Some eos).

(** The strict order [argmax] compares with: irreflexive, transitive, and
    incomparability is transitive. *)
Definition strict_weak_order {A} (ltb : A → A → bool) : Prop :=
  (∀ a, ltb a a = false)
  ∧ (∀ a b c, ltb a b = true → ltb b c = true → ltb a c = true)
  ∧ (∀ a b c, ltb a b = true → ltb a c = true ∨ ltb c b = true).

End GenerateInv.

(** ** The float computation of the feed-forward width, checked by
    evaluation *)

Module BuildCheck.

Import Build.

(** Whether the float computation [int(2 * hidden_dim / 3)] gives the
    integer floor of the exact quotient for the [fuel] values of
    [hidden_dim] from [k] on. *)
Fixpoint reduce_hidden_exact_from (fuel : nat) (k : Z) : bool :=
  match fuel with
  | O => true
  | S fuel =>
      match reduce_hidden k None with
      | Some r => r =? 2 * k / 3
      | None => false
      end && reduce_hidden_exact_from fuel (k + 1)
  end.

End BuildCheck.

(** ** The forward pass down to the rotary encoding, on tensor shapes

    The shapes are those of a model built with a positive head count, none
    of which is negative; they are read as natural numbers. *)

Module ForwardShape.

Import RotaryShape.
Local Open Scope nat_scope.

Definition shape_of (s : list Z) : list nat := map Z.to_nat s.

(** [t[:n]] along the first dimension. *)
Definition slice_first (n : nat) (t : list nat) : option (list nat) :=
  match t with
  | [] => None
  | rows :: rest => Some (Nat.min n rows :: rest)
  end.

(** [nn.Embedding]: the indices' shape followed by the embedding width. *)
Definition embedding (weight toks : list nat) : option (list nat) :=
  match weight with
  | [_; width] => Some (toks ++ [width])
  | _ => None
  end.

(** [nn.Linear] without bias on a weight of shape (out_features,
    in_features): the last dimension of the input has to be
    [in_features]. *)
Definition linear (weight x : list nat) : option (list nat) :=
  match weight with
  | [out_features; in_features] =>
      d ← last x;
      guard (d = in_features);;
      Some (take (length x - 1) x ++ [out_features])
  | _ => None
  end.

(** [t.view(shape)] for a shape without [-1]. *)
Definition view (shape t : list nat) : option (list nat) :=
  guard (numel t = numel shape);;
  Some shape.

(** [RMSNorm.forward]: the product with the weight broadcasts over the
    last dimension. *)
Definition RMSNorm_forward (weight x : list nat) : option (list nat) :=
  broadcast x weight.

(** [Attention.forward] down to [apply_rotary_emb]: the unpacking of
    [x.shape], the three projections, the three views and the rotary
    encoding of queries and keys. *)
Definition Attention_rotary (a : Build.Attention) (x freqs_cis : list nat)
  : option (list nat * list nat) :=
  match x with
  | [bsz; seqlen; _] =>
      xq ← linear (shape_of (Build.wq a)) x;
      xk ← linear (shape_of (Build.wk a)) x;
      xv ← linear (shape_of (Build.wv a)) x;
      let n_heads := Z.to_nat (Build.att_n_heads a) in
      let head_dim := Z.to_nat (Build.att_head_dim a) in
      xq ← view [bsz; seqlen; n_heads; head_dim] xq;
      xk ← view [bsz; seqlen; n_heads; head_dim] xk;
      xv ← view [bsz; seqlen; n_heads; head_dim] xv;
      apply_rotary_emb xq xk freqs_cis
  | _ => None
  end.

(** [Transformer.forward] down to the rotary encoding in the first
    layer [b]: the unpacking of [toks.shape], the embedding, the slice of
    the table, and the layer's norm and attention. *)
Definition Transformer_rotary (m : Build.Transformer)
    (b : Build.TransformerBlock) (toks : list nat)
  : option (list nat * list nat) :=
  match toks with
  | [_bsz; seqlen] =>
      h ← embedding (shape_of (Build.tok_embeddings m)) toks;
      freqs_cis ← slice_first seqlen (shape_of (Build.freqs_cis m));
      x ← RMSNorm_forward (shape_of (Build.attention_norm b)) h;
      Attention_rotary (Build.attention b) x freqs_cis
  | _ => None
  end.

End ForwardShape.

(** ** More small instances *)

Module DemoMore.

Import Demo.

(** The toy model with a context of two tokens: it raises on longer
    rows. *)
Definition short_context_model (toks : list (list Z))
  : option (list (list (list Z))) :=
  if forallb (λ t, (length t <=? 2)%nat) toks then successor_model toks
  else None.

(** A stand-in for SentencePiece: one token per character, among the
    tokens 2 to 5. *)
Definition toy_sp_encode (s : String.string) : list Z :=
  map (λ a, 2 + Z.of_nat (Ascii.nat_of_ascii a) `mod` 4)
    (String.list_ascii_of_string s).

(** The text [ab]. *)
Definition demo_text : String.string :=
  String.String (Ascii.ascii_of_nat 97)
    (String.String (Ascii.ascii_of_nat 98) String.EmptyString).

End DemoMore.

Module NumericDemoMore.

Import Reals.
Import Numeric.
Local Open Scope R_scope.

(** A block of dimension two whose two output projections are zero. *)
Definition zero_output_block : TransformerBlock :=
  let I2 : list vec := [[1; 0]; [0; 1]] in
  let Z2 : list vec := [[0; 0]; [0; 0]] in
  let n := {| eps := 1; weight := [1; 1] |} in
  {| attention := {| n_heads := 1; head_dim := 2;
                     wq := I2; wk := I2; wv := I2; wo := Z2 |};
     feed_forward := {| w1 := I2; w2 := Z2; w3 := I2 |};
     attention_norm := n;
     ffn_norm := n |}.

End NumericDemoMore.

(** * Theorems *)

Module GenerateFacts.
Import Generate GenerateInv.

(** *** Python helpers *)

Lemma foldl_min_le (l : list Z) (a : Z) :
  foldl Z.min a l <= a ∧ ∀ x, x ∈ l → foldl Z.min a l <= x.
Proof.
  revert a. induction l as [|y l IH]; intros a; simpl.
  - split; [lia|]. intros x Hx. inversion Hx.
  - destruct (IH (Z.min a y)) as [H1 H2]. split; [lia|].
    intros x Hx. apply elem_of_cons in Hx as [->|Hx]; [lia|auto].
Qed.


Lemma foldl_min_in (l : list Z) (a : Z) : foldl Z.min a l ∈ a :: l.
Proof.
  revert a. induction l as [|y l IH]; intros a; simpl; [by left|].
  specialize (IH (Z.min a y)).
  apply elem_of_cons in IH as [->|IH]; [|by do 2 right].
  destruct (Z.min_spec a y) as [[_ ->]|[_ ->]]; [left|right; left].
Qed.

Lemma foldl_max_in (l : list Z) (a : Z) : foldl Z.max a l ∈ a :: l.
Proof.
  revert a. induction l as [|y l IH]; intros a; simpl; [by left|].
  specialize (IH (Z.max a y)).
  apply elem_of_cons in IH as [->|IH]; [|by do 2 right].
  destruct (Z.max_spec a y) as [[_ ->]|[_ ->]]; [right; left|left].
Qed.

Lemma min_of_in (l : list Z) (m : Z) : Py.min_of l = Some m → m ∈ l.
Proof.
  destruct l as [|a l]; [discriminate|]. simpl. intros [= <-].
  apply foldl_min_in.
Qed.

Lemma max_of_in (l : list Z) (m : Z) : Py.max_of l = Some m → m ∈ l.
Proof.
  destruct l as [|a l]; [discriminate|]. simpl. intros [= <-].
  apply foldl_max_in.
Qed.

Lemma min_of_le (l : list Z) (m x : Z) :
  Py.min_of l = Some m → x ∈ l → m <= x.
Proof.
  destruct l as [|a l]; [discriminate|]. simpl. intros [= <-] Hx.
  destruct (foldl_min_le l a) as [H1 H2].
  apply elem_of_cons in Hx as [->|Hx]; auto.
Qed.


Lemma index_Some (x : Z) (l : list Z) (i : nat) :
  Py.index x l = Some i →
  l !! i = Some x ∧ x ∉ take i l.
Proof.
  revert i. induction l as [|y l IH]; intros i; simpl; [discriminate|].
  destruct (Z.eqb_spec y x) as [->|Hne].
  - intros [= <-]. split; [done|]. simpl. apply not_elem_of_nil.
  - destruct (Py.index x l) as [j|] eqn:E; simpl; [|discriminate].
    intros [= <-]. destruct (IH j eq_refl) as [H1 H2]. split; [done|].
    simpl. intros [?|?]%elem_of_cons; [congruence|done].
Qed.

Lemma index_None (x : Z) (l : list Z) : Py.index x l = None → x ∉ l.
Proof.
  induction l as [|y l IH]; simpl; [intros _; apply not_elem_of_nil|].
  destruct (Z.eqb_spec y x) as [->|Hne]; [discriminate|].
  destruct (Py.index x l); simpl; [discriminate|].
  intros _ [?|?]%elem_of_cons; [congruence|]. by apply IH.
Qed.

Lemma slice_nonneg {A} (lo hi : Z) (l : list A) :
  0 <= lo → lo <= hi →
  Py.slice lo hi l = take (Z.to_nat (hi - lo)) (drop (Z.to_nat lo) l).
Proof.
  intros Hlo Hhi. unfold Py.slice, Py.slice_bound.
  destruct (Z.ltb_spec lo 0); [lia|]. destruct (Z.ltb_spec hi 0); [lia|].
  set (n := Z.of_nat (length l)).
  destruct (Z.le_gt_cases lo n) as [H1|H1].
  - rewrite (Z.min_l lo n) by lia.
    destruct (Z.le_gt_cases hi n) as [H2|H2].
    + by rewrite (Z.min_l hi n) by lia.
    + rewrite (Z.min_r hi n) by lia.
      rewrite !take_ge; [done| |]; rewrite length_drop; subst n; lia.
  - rewrite (Z.min_r lo n), (Z.min_r hi n) by lia.
    rewrite !drop_ge by (subst n; lia). by rewrite !take_nil.
Qed.

Section WithModel.

Context {logit : Type}.
Variable logit_ltb : logit → logit → bool.
Variable forward : list (list Z) → option (list (list (list logit))).
Variable tokenizer : Tokenizer.
Variable model_args : ModelArgs.

Abbreviation pad := (pad_id tokenizer).
Abbreviation eos := (eos_id tokenizer).
Abbreviation loop_body := (loop_body logit_ltb forward tokenizer).
Abbreviation loop := (loop logit_ltb forward tokenizer).
Abbreviation at_head := (at_head logit_ltb forward tokenizer).
Abbreviation candidates := (candidates logit_ltb forward).
Abbreviation started := (started tokenizer model_args).
Abbreviation iteration := (iteration logit_ltb forward tokenizer).
Abbreviation text_mask := (text_mask tokenizer).
Abbreviation prompt_row := (prompt_row tokenizer).
Abbreviation init_buffer := (init_buffer tokenizer).

Abbreviation keeps_prompt_by_position :=
  (keeps_prompt_by_position logit_ltb forward tokenizer model_args).
Abbreviation generate_state :=
  (generate_state logit_ltb forward tokenizer model_args).
Abbreviation generate :=
  (generate logit_ltb forward tokenizer model_args).
Abbreviation cap := (cap model_args).

(** *** [argmax] *)

Lemma argmax_from_maximal (full : list logit) :
  (∀ a, logit_ltb a a = false) →
  (∀ a b c, logit_ltb a b = true → logit_ltb b c = true →
            logit_ltb a c = true) →
  ∀ l best best_i i,
    full !! best_i = Some best → drop i full = l →
    (∀ j y, (j < i)%nat → full !! j = Some y → logit_ltb best y = false) →
    ∃ v, full !! argmax_from logit_ltb best best_i i l = Some v
      ∧ ∀ y, y ∈ full → logit_ltb v y = false.
Proof.
  intros Hirr Htr. induction l as [|x l IH]; intros best best_i i Hb Hd Hlt.
  - simpl. exists best. split; [done|].
    intros y [j Hj]%list_elem_of_lookup. apply (Hlt j); [|done].
    apply drop_nil_inv in Hd. apply lookup_lt_Some in Hj. lia.
  - simpl.
    assert (full !! i = Some x) as Hx.
    { rewrite <- (Nat.add_0_r i), <- lookup_drop, Hd. done. }
    assert (drop (S i) full = l) as Hd'.
    { replace (S i) with (i + 1)%nat by lia.
      rewrite <- drop_drop, Hd. done. }
    destruct (logit_ltb best x) eqn:E.
    + apply IH; [done..|]. intros j y Hj Hy.
      destruct (decide (j = i)) as [->|Hne].
      * rewrite Hx in Hy. injection Hy as <-. apply Hirr.
      * destruct (logit_ltb x y) eqn:Exy; [|done].
        assert (logit_ltb best y = false) as H0
          by (apply (Hlt j); [lia|done]).
        pose proof (Htr best x y E Exy). congruence.
    + apply IH; [done..|]. intros j y Hj Hy.
      destruct (decide (j = i)) as [->|Hne].
      * rewrite Hx in Hy. by injection Hy as <-.
      * apply (Hlt j); [lia|done].
Qed.

(** For a strict order, [argmax] returns the index of an entry that no
    entry of the vector exceeds. *)
Lemma argmax_maximal (l : list logit) (c : Z) :
  (∀ a, logit_ltb a a = false) →
  (∀ a b c, logit_ltb a b = true → logit_ltb b c = true →
            logit_ltb a c = true) →
  argmax logit_ltb l = Some c →
  ∃ v, l !! Z.to_nat c = Some v ∧ ∀ y, y ∈ l → logit_ltb v y = false.
Proof.
  intros Hirr Htr. destruct l as [|x l]; [discriminate|].
  simpl. intros [= <-]. rewrite Nat2Z.id.
  apply (argmax_from_maximal (x :: l) Hirr Htr l x 0%nat 1%nat);
    [done..|].
  intros j y Hj Hy. assert (j = 0%nat) as -> by lia.
  simpl in Hy. injection Hy as <-. apply Hirr.
Qed.

(** *** The initial buffer *)

Lemma prompt_row_length (ttl_len : Z) (t row : list Z) :
  prompt_row ttl_len t = Some row → length row = Z.to_nat ttl_len.
Proof.
  unfold Generate.prompt_row. case_match; [|discriminate]. intros [= <-].
  rewrite length_take, length_app, length_replicate. lia.
Qed.

Lemma prompt_row_fits (ttl_len : Z) (t row : list Z) (p : nat) :
  prompt_row ttl_len t = Some row → (p < Z.to_nat ttl_len)%nat →
  (length t <= Z.to_nat ttl_len)%nat.
Proof.
  unfold Generate.prompt_row. case_match eqn:E; [|discriminate].
  intros _ Hp. apply andb_prop in E as [_ E].
  apply orb_prop in E as [E|E].
  - apply Z.leb_le in E. lia.
  - apply Nat.eqb_eq in E. lia.
Qed.

Lemma prompt_row_lookup (ttl_len : Z) (t row : list Z) (p : nat) :
  prompt_row ttl_len t = Some row → (p < Z.to_nat ttl_len)%nat →
  row !! p = Some (default pad (t !! p)).
Proof.
  intros Hrow Hp. pose proof (prompt_row_fits _ _ _ _ Hrow Hp) as Hfit.
  revert Hrow. unfold Generate.prompt_row. case_match; [|discriminate].
  intros [= <-]. rewrite lookup_take_lt by done.
  destruct (decide (p < length t)%nat) as [Hlt|Hge].
  - rewrite lookup_app_l by done.
    destruct (lookup_lt_is_Some_2 t p Hlt) as [x ->]. done.
  - rewrite lookup_app_r by lia. rewrite (lookup_ge_None_2 t p) by lia.
    simpl. apply lookup_replicate_2. lia.
Qed.

Lemma init_buffer_rows (ttl_len : Z) (prompt_toks buf : list (list Z)) :
  init_buffer ttl_len prompt_toks = Some buf →
  0 <= ttl_len
  ∧ Forall2 (λ t row, prompt_row ttl_len t = Some row) prompt_toks buf.
Proof.
  unfold Generate.init_buffer. case_match eqn:E; [|discriminate].
  apply andb_prop in E as [E _]. apply Z.leb_le in E.
  intros H. split; [done|]. by apply mapM_Some.
Qed.

(** *** One execution of the body *)

Lemma inv_init (buf : list (list Z)) (p : nat) : inv buf p (init_state buf).
Proof.
  split; simpl; [by rewrite length_replicate|].
  apply Forall2_same_length_lookup_2; [done|].
  intros i x y Hx Hy. by simplify_eq.
Qed.

Lemma column_Some {A} (p : nat) (t : list (list A)) (c : list A) :
  column p t = Some c ↔ Forall2 (λ row x, row !! p = Some x) t c.
Proof. unfold column. apply mapM_Some. Qed.

(** The body, row by row. *)
Lemma loop_body_rows (buf : list (list Z)) (p : nat) (st st' : gen_state) :
  inv buf p st →
  loop_body (text_mask buf) p st = Some st' →
  ∃ cands,
    candidates p st = Some cands
    ∧ length cands = length buf
    ∧ length (gen_toks st') = length buf
    ∧ length (eos_reached st') = length buf
    ∧ ∀ i row0 row e c,
        buf !! i = Some row0 → gen_toks st !! i = Some row →
        eos_reached st !! i = Some e → cands !! i = Some c →
        ∃ x0, row0 !! p = Some x0
          ∧ gen_toks st' !! i
            = Some (<[p := if x0 =? pad then c else x0]> row)
          ∧ eos_reached st' !! i
            = Some (e || ((x0 =? pad) && (c =? eos))).
Proof.
  intros [Hlen Hrows] Hbody. unfold Generate.loop_body in Hbody.
  unfold Generate.candidates.
  destruct (forward _) as [logits|]; simpl in *; [|discriminate].
  destruct (next_candidates _ logits) as [nxt|]; simpl in *;
    [|discriminate].
  case_guard as Hn; simpl in *; [|discriminate].
  destruct (column p (text_mask buf)) as [mask_col|] eqn:Hm; simpl in *;
    [|discriminate].
  destruct (column p (gen_toks st)) as [tok_col|] eqn:Ht; simpl in *;
    [|discriminate].
  injection Hbody as <-. simpl.
  apply column_Some in Hm, Ht.
  pose proof (Forall2_length _ _ _ Hrows) as Hl1.
  pose proof (Forall2_length _ _ _ Hm) as Hl2.
  pose proof (Forall2_length _ _ _ Ht) as Hl3.
  unfold Generate.text_mask in Hl2. rewrite length_map in Hl2.
  exists nxt. split; [done|]. split; [lia|].
  assert (length (torch_where mask_col tok_col nxt) = length buf) as Hw.
  { unfold torch_where. rewrite length_zip_with, length_zip. lia. }
  split.
  { unfold set_column. rewrite length_zip_with. lia. }
  split.
  { rewrite !length_zip_with. lia. }
  intros i row0 row e c Hb Hr He Hc.
  destruct (Forall2_lookup_l _ _ _ _ _ Ht Hr) as (x & Hx & Hrx).
  assert (text_mask buf !! i
          = Some (map (λ x, negb (x =? pad)) row0)) as Hmi.
  { unfold Generate.text_mask. by rewrite list_lookup_fmap, Hb. }
  destruct (Forall2_lookup_l _ _ _ _ _ Hm Hmi) as (m & Hmc & Hmx).
  rewrite list_lookup_fmap in Hmx.
  destruct (row0 !! p) as [x0|] eqn:Hx0; simpl in Hmx; [|discriminate].
  injection Hmx as <-.
  destruct (Forall2_lookup_lr _ _ _ _ _ _ Hrows Hr Hb) as [_ Hsame].
  rewrite Hsame, Hx0 in Hrx by done. injection Hrx as ->.
  exists x. split; [done|].
  assert (torch_where mask_col tok_col nxt !! i
          = Some (if x =? pad then c else x)) as Hwi.
  { unfold torch_where. rewrite lookup_zip_with, Hmc. simpl.
    rewrite lookup_zip_with, Hx, Hc. simpl.
    by destruct (x =? pad). }
  split.
  - unfold set_column. rewrite lookup_zip_with, Hr. simpl.
    by rewrite Hwi.
  - rewrite lookup_zip_with, He. simpl.
    rewrite lookup_zip_with, Hmc. simpl. rewrite Hwi. simpl.
    rewrite negb_involutive.
    by destruct (x =? pad) eqn:E; simpl.
Qed.

Lemma inv_step (buf : list (list Z)) (p : nat) (st st' : gen_state) :
  inv buf p st → loop_body (text_mask buf) p st = Some st' →
  inv buf (S p) st'.
Proof.
  intros Hinv Hbody.
  destruct (loop_body_rows _ _ _ _ Hinv Hbody)
    as (cands & _ & Hlc & Hlg & Hle & Hrows).
  destruct Hinv as [Hlen Hall]. split; [done|].
  pose proof (Forall2_length _ _ _ Hall) as Hl.
  apply Forall2_same_length_lookup_2; [done|].
  intros i row' row0 Hr' Hb.
  destruct (lookup_lt_is_Some_2 (gen_toks st) i) as [row Hr].
  { rewrite Hl. by eapply lookup_lt_Some. }
  destruct (lookup_lt_is_Some_2 (eos_reached st) i) as [e He].
  { rewrite Hlen. by eapply lookup_lt_Some. }
  destruct (lookup_lt_is_Some_2 cands i) as [c Hc].
  { rewrite Hlc. by eapply lookup_lt_Some. }
  destruct (Hrows i row0 row e c Hb Hr He Hc) as (x0 & _ & Hnew & _).
  rewrite Hnew in Hr'. injection Hr' as <-.
  destruct (Forall2_lookup_lr _ _ _ _ _ _ Hall Hr Hb) as [Hlr Hsame].
  split; [by rewrite length_insert|].
  intros q Hq. rewrite list_lookup_insert_ne by lia. apply Hsame. lia.
Qed.

Lemma at_head_ge mask (p0 p : nat) (st0 st : gen_state) :
  at_head mask p0 st0 p st → (p0 <= p)%nat.
Proof. induction 1; lia. Qed.

Lemma at_head_inv (buf : list (list Z)) (p0 p : nat) (st0 st : gen_state) :
  inv buf p0 st0 → at_head (text_mask buf) p0 st0 p st → inv buf p st.
Proof. intros H0. induction 1; [done|]. by eapply inv_step. Qed.

Lemma at_head_trans mask (p0 p q : nat) (st0 st sq : gen_state) :
  at_head mask p0 st0 p st → at_head mask p st q sq →
  at_head mask p0 st0 q sq.
Proof. intros H1. induction 1; [done|]. by eapply head_next. Qed.

(** *** The loop function against the transition system *)

(** Every state at the top of the body is a state the loop function
    passes through. *)
Lemma loop_resume mask (p0 n p : nat) (st0 st : gen_state) :
  at_head mask p0 st0 p st → (p <= p0 + n)%nat →
  loop mask (seq p0 n) st0 = loop mask (seq p (p0 + n - p)) st.
Proof.
  induction 1 as [|p st st' Hh IH Hbody Hall]; intros Hle.
  - by replace (p0 + n - p0)%nat with n by lia.
  - rewrite IH by lia.
    replace (p0 + n - p)%nat with (S (p0 + n - S p)) by lia.
    simpl. rewrite Hbody. simpl. by rewrite Hall.
Qed.

(** The state the loop function returns: either it ran off the end of
    its range, or the body just set the last missing flag. *)
Lemma loop_result mask (n : nat) : ∀ (p : nat) (st fin : gen_state),
  loop mask (seq p n) st = Some fin →
  (at_head mask p st (p + n) fin
   ∧ (n = 0%nat ∨ forallb (λ b, b) (eos_reached fin) = false))
  ∨ (∃ q sq, at_head mask p st q sq ∧ (q < p + n)%nat
       ∧ loop_body mask q sq = Some fin
       ∧ forallb (λ b, b) (eos_reached fin) = true).
Proof.
  induction n as [|n IH]; intros p st fin; simpl.
  - intros [= <-]. left. rewrite Nat.add_0_r. split; [constructor|by left].
  - destruct (loop_body mask p st) as [st'|] eqn:Hbody; simpl;
      [|discriminate].
    destruct (forallb (λ b, b) (eos_reached st')) eqn:Hall.
    + intros [= <-]. right. exists p, st.
      split; [constructor|]. split; [lia|done].
    + intros Hloop.
      assert (at_head mask p st (S p) st') as Hnext.
      { eapply head_next; [constructor|done..]. }
      destruct (IH _ _ _ Hloop) as [[Hh Hn]|(q & sq & Hh & Hq & Hb & Ha)].
      * left. replace (p + S n)%nat with (S p + n)%nat by lia.
        split; [by eapply at_head_trans|].
        right. destruct Hn as [->|Hn]; [|done].
        rewrite Nat.add_0_r in Hh. inversion Hh as [|? ? ? Hh']; subst;
          [done|].
        apply at_head_ge in Hh'. lia.
      * right. exists q, sq. split; [by eapply at_head_trans|].
        split; [lia|done].
Qed.

(** *** The set-up of [generate] *)

Lemma started_facts prompt_toks max_gen min_tok_len ttl_len buf :
  started prompt_toks max_gen min_tok_len ttl_len buf →
  0 <= min_tok_len ∧ 0 <= ttl_len
  ∧ length buf = length prompt_toks
  ∧ Forall2 (λ t row, prompt_row ttl_len t = Some row) prompt_toks buf.
Proof.
  intros (Hmin & Httl & Hbuf).
  destruct (init_buffer_rows _ _ _ Hbuf) as [H0 Hrows].
  split.
  { apply min_of_in in Hmin. unfold lens in Hmin.
    apply list_elem_of_fmap in Hmin as (t & -> & _). lia. }
  split; [done|]. split; [|done].
  symmetry. by eapply Forall2_length.
Qed.

Lemma generate_state_started prompt_toks max_gen min_tok_len ttl_len buf :
  started prompt_toks max_gen min_tok_len ttl_len buf →
  generate_state prompt_toks max_gen
  = loop (text_mask buf) (range min_tok_len ttl_len) (init_state buf).
Proof.
  intros (Hmin & Httl & Hbuf). unfold Generate.generate_state.
  rewrite Hmin. simpl. rewrite Httl. simpl. by rewrite Hbuf.
Qed.

Lemma generate_state_inv prompt_toks max_gen :
  ∀ fin, generate_state prompt_toks max_gen = Some fin →
  ∃ min_tok_len ttl_len buf,
    started prompt_toks max_gen min_tok_len ttl_len buf.
Proof.
  intros fin. unfold Generate.generate_state, Generate.started.
  destruct (Py.min_of _) as [m|]; simpl; [|discriminate].
  destruct (total_len _ _ _) as [t|]; simpl; [|discriminate].
  destruct (init_buffer _ _) as [buf|] eqn:Hbuf; simpl; [|discriminate].
  intros _. by exists m, t, buf.
Qed.

Lemma buffer_entry prompt_toks max_gen min_tok_len ttl_len buf i t p :
  started prompt_toks max_gen min_tok_len ttl_len buf →
  prompt_toks !! i = Some t → Z.of_nat p < ttl_len →
  ∃ row0, buf !! i = Some row0
    ∧ length row0 = Z.to_nat ttl_len
    ∧ row0 !! p = Some (default pad (t !! p)).
Proof.
  intros Hs Ht Hp. destruct (started_facts _ _ _ _ _ Hs)
    as (_ & _ & _ & Hrows).
  destruct (Forall2_lookup_l _ _ _ _ _ Hrows Ht) as (row0 & Hb & Hrow).
  exists row0. split; [done|]. split; [by eapply prompt_row_length|].
  eapply prompt_row_lookup; [done|lia].
Qed.

Lemma next_candidates_rows logits cands :
  next_candidates logit_ltb logits = Some cands →
  Forall2 (λ row c, ∃ v, last row = Some v ∧ argmax logit_ltb v = Some c)
    logits cands.
Proof.
  unfold next_candidates.
  destruct (mapM _ logits) as [lasts|] eqn:E; simpl; [|discriminate].
  intros H. apply mapM_Some in E, H.
  revert cands H. induction E as [|row v logits lasts Hv _ IH];
    intros cands H; inversion H; subst; constructor; eauto.
Qed.

(** One execution of the body inside a call, row by row. *)
Lemma iteration_row prompt_toks max_gen min_tok_len ttl_len buf
    p st st' i t :
  started prompt_toks max_gen min_tok_len ttl_len buf →
  iteration min_tok_len ttl_len buf p st st' →
  prompt_toks !! i = Some t →
  ∃ cands c e row,
    candidates p st = Some cands ∧ cands !! i = Some c
    ∧ eos_reached st !! i = Some e
    ∧ gen_toks st !! i = Some row
    ∧ length row = Z.to_nat ttl_len
    ∧ let x0 := default pad (t !! p) in
      entry (text_mask buf) i p = Some (negb (x0 =? pad))
      ∧ gen_toks st' !! i = Some (<[p := if x0 =? pad then c else x0]> row)
      ∧ eos_reached st' !! i = Some (e || ((x0 =? pad) && (c =? eos))).
Proof.
  intros Hs (Hh & Hp & Hbody) Ht.
  destruct (buffer_entry _ _ _ _ _ _ _ _ Hs Ht Hp)
    as (row0 & Hb & Hl0 & Hx0).
  pose proof (at_head_inv _ _ _ _ _ (inv_init buf _) Hh) as Hinv.
  destruct (loop_body_rows _ _ _ _ Hinv Hbody)
    as (cands & Hc & Hlc & _ & _ & Hrows).
  destruct Hinv as [Hle Hall].
  pose proof (Forall2_length _ _ _ Hall) as Hl.
  pose proof (lookup_lt_Some _ _ _ Hb) as Hi.
  destruct (lookup_lt_is_Some_2 (gen_toks st) i) as [row Hr]; [lia|].
  destruct (lookup_lt_is_Some_2 (eos_reached st) i) as [e He]; [lia|].
  destruct (lookup_lt_is_Some_2 cands i) as [c Hci]; [lia|].
  destruct (Hrows i row0 row e c Hb Hr He Hci) as (x0 & Hx & Hnew & Hflag).
  rewrite Hx0 in Hx. injection Hx as <-.
  destruct (Forall2_lookup_lr _ _ _ _ _ _ Hall Hr Hb) as [Hlr _].
  exists cands, c, e, row. repeat (split; [done || congruence|]).
  simpl. split; [|done].
  unfold entry, Generate.text_mask. rewrite list_lookup_fmap, Hb. simpl.
  by rewrite list_lookup_fmap, Hx0.
Qed.

Lemma entry_insert {A} (t : list (list A)) (i p : nat) (row : list A) v :
  t !! i = Some (<[p := v]> row) → (p < length row)%nat →
  entry t i p = Some v.
Proof.
  intros Hi Hp. unfold entry. rewrite Hi. simpl.
  by apply list_lookup_insert_eq.
Qed.


Lemma generate_state_shape prompt_toks max_gen min_tok_len ttl_len buf fin :
  started prompt_toks max_gen min_tok_len ttl_len buf →
  generate_state prompt_toks max_gen = Some fin →
  ∃ p, inv buf p fin.
Proof.
  intros Hs Hfin. rewrite (generate_state_started _ _ _ _ _ Hs) in Hfin.
  apply loop_result in Hfin as [[Hh _]|(q & sq & Hh & _ & Hbody & _)].
  - eexists. eapply at_head_inv; [apply inv_init|done].
  - exists (S q). eapply inv_step; [|done].
    eapply at_head_inv; [apply inv_init|done].
Qed.

(** A call that gets as far as a non-empty buffer has a cap that is not
    negative. *)
Lemma cap_nonneg prompt_toks max_gen min_tok_len ttl_len buf :
  started prompt_toks max_gen min_tok_len ttl_len buf →
  0 < ttl_len → 0 <= cap max_gen.
Proof.
  intros Hs Hpos. pose proof Hs as (_ & Httl & _).
  destruct (started_facts _ _ _ _ _ Hs) as (_ & _ & _ & Hrows).
  unfold total_len in Httl.
  destruct (Py.max_of _) as [mx|] eqn:Hmx; simpl in Httl; [|discriminate].
  injection Httl as Httl. apply max_of_in in Hmx. unfold lens in Hmx.
  apply list_elem_of_fmap in Hmx as (t & -> & Ht).
  apply list_elem_of_lookup in Ht as [i Ht].
  destruct (Forall2_lookup_l _ _ _ _ _ Hrows Ht) as (row & _ & Hrow).
  pose proof (prompt_row_fits _ _ _ 0%nat Hrow). lia.
Qed.

(** *** In-prompt rows and generating rows *)

(** C2 (amended): when the body runs at column [cur_pos], a row whose
    prompt covers that column keeps its prompt token there provided the
    token is not the pad id, and a row whose prompt has ended receives
    the model's candidate, whatever the other rows' prompts are. *)
Theorem in_prompt_rows_keep_tokens prompt_toks max_gen min_tok_len ttl_len
    buf cur_pos st st' i t :
  started prompt_toks max_gen min_tok_len ttl_len buf →
  iteration min_tok_len ttl_len buf cur_pos st st' →
  prompt_toks !! i = Some t →
  (∀ x, t !! cur_pos = Some x → x ≠ pad →
     entry (gen_toks st') i cur_pos = Some x)
  ∧ ((length t <= cur_pos)%nat →
     ∃ cands c, candidates cur_pos st = Some cands ∧ cands !! i = Some c
       ∧ entry (gen_toks st') i cur_pos = Some c).
Proof.
  intros Hs Hit Ht. pose proof Hit as (_ & Hp & _).
  destruct (iteration_row _ _ _ _ _ _ _ _ _ _ Hs Hit Ht)
    as (cands & c & e & row & Hc & Hci & _ & _ & Hlen & _ & Hnew & _).
  split.
  - intros x Hx Hne. rewrite Hx in Hnew. simpl in Hnew.
    destruct (Z.eqb_spec x pad) as [|_]; [done|].
    eapply entry_insert; [done|lia].
  - intros Hge. exists cands, c. split; [done|]. split; [done|].
    rewrite (lookup_ge_None_2 t cur_pos) in Hnew by done.
    simpl in Hnew. rewrite Z.eqb_refl in Hnew.
    eapply entry_insert; [done|lia].
Qed.


(** *** The end-of-sequence flags *)

Lemma flag_kept mask buf (p q : nat) (st sq : gen_state) (i : nat) :
  mask = text_mask buf → inv buf p st →
  at_head mask p st q sq →
  eos_reached st !! i = Some true → eos_reached sq !! i = Some true.
Proof.
  intros -> Hinv Hh. induction Hh as [|q sq sq' Hh IH Hbody _]; [done|].
  intros Hi. specialize (IH Hi).
  pose proof (at_head_inv _ _ _ _ _ Hinv Hh) as Hinvq.
  destruct (loop_body_rows _ _ _ _ Hinvq Hbody)
    as (cands & _ & Hlc & _ & _ & Hrows).
  destruct Hinvq as [Hle Hall].
  pose proof (Forall2_length _ _ _ Hall) as Hl.
  pose proof (lookup_lt_Some _ _ _ IH) as Hlt.
  destruct (lookup_lt_is_Some_2 buf i) as [row0 Hb]; [lia|].
  destruct (lookup_lt_is_Some_2 (gen_toks sq) i) as [row Hr]; [lia|].
  destruct (lookup_lt_is_Some_2 cands i) as [c Hc]; [lia|].
  by destruct (Hrows i row0 row true c Hb Hr IH Hc) as (x0 & _ & _ & ->).
Qed.

(** C7 (amended): the flags start all false; one execution of the body
    sets row [i]'s flag exactly when it already was set, or the mask is
    false at that column and the token written is the end id; the mask is
    false at a column beyond the row's prompt and at a prompt column that
    holds the pad id; a flag that is set stays set in every later state;
    and the call ends with the state of the first body execution that
    leaves all flags set. *)
Theorem eos_flags_monotone_and_exit prompt_toks max_gen min_tok_len
    ttl_len buf :
  started prompt_toks max_gen min_tok_len ttl_len buf →
  eos_reached (init_state buf) = replicate (length prompt_toks) false
  ∧ (∀ cur_pos i t,
       prompt_toks !! i = Some t → Z.of_nat cur_pos < ttl_len →
       entry (text_mask buf) i cur_pos
       = Some (negb (default pad (t !! cur_pos) =? pad)))
  ∧ (∀ cur_pos st st' i,
       iteration min_tok_len ttl_len buf cur_pos st st' →
       (i < length prompt_toks)%nat →
       ∃ e m x, eos_reached st !! i = Some e
         ∧ entry (text_mask buf) i cur_pos = Some m
         ∧ entry (gen_toks st') i cur_pos = Some x
         ∧ eos_reached st' !! i = Some (e || (negb m && (x =? eos))))
  ∧ (∀ p st q sq i,
       at_head (text_mask buf) (Z.to_nat min_tok_len) (init_state buf)
         p st →
       at_head (text_mask buf) p st q sq →
       eos_reached st !! i = Some true → eos_reached sq !! i = Some true)
  ∧ (∀ cur_pos st st',
       iteration min_tok_len ttl_len buf cur_pos st st' →
       forallb (λ b, b) (eos_reached st') = true →
       generate_state prompt_toks max_gen = Some st')
  ∧ (∀ cur_pos st st',
       iteration min_tok_len ttl_len buf cur_pos st st' →
       forallb (λ b, b) (eos_reached st') = false →
       at_head (text_mask buf) (Z.to_nat min_tok_len) (init_state buf)
         (S cur_pos) st').
Proof.
  intros Hs. destruct (started_facts _ _ _ _ _ Hs) as (Hmin & Httl & Hlb & _).
  split; [by unfold init_state; simpl; rewrite Hlb|].
  split.
  { intros p i t Ht Hp.
    destruct (buffer_entry _ _ _ _ _ _ _ _ Hs Ht Hp) as (row0 & Hb & _ & Hx0).
    unfold entry, Generate.text_mask. rewrite list_lookup_fmap, Hb. simpl.
    by rewrite list_lookup_fmap, Hx0. }
  split.
  { intros p st st' i Hit Hi.
    destruct (lookup_lt_is_Some_2 prompt_toks i Hi) as [t Ht].
    pose proof Hit as (_ & Hp & _).
    destruct (iteration_row _ _ _ _ _ _ _ _ _ _ Hs Hit Ht)
      as (cands & c & e & row & _ & _ & He & _ & Hlen & Hm & Hnew & Hfl).
    simpl in *. set (x0 := default pad (t !! p)) in *.
    exists e, (negb (x0 =? pad)), (if x0 =? pad then c else x0).
    split; [done|]. split; [done|].
    split; [eapply entry_insert; [done|lia]|].
    rewrite Hfl. by destruct (x0 =? pad). }
  split.
  { intros p st q sq i Hh Hq. eapply flag_kept; [done| |done].
    eapply at_head_inv; [apply inv_init|done]. }
  split.
  - intros p st st' (Hh & Hp & Hbody) Hall.
    rewrite (generate_state_started _ _ _ _ _ Hs). unfold range.
    rewrite (loop_resume _ _ _ _ _ _ Hh) by lia.
    replace (Z.to_nat min_tok_len + Z.to_nat (ttl_len - min_tok_len) - p)%nat
      with (S (Z.to_nat min_tok_len + Z.to_nat (ttl_len - min_tok_len)
               - S p)) by lia.
    simpl. rewrite Hbody. simpl. by rewrite Hall.
  - intros p st st' (Hh & Hp & Hbody) Hall. by eapply head_next.
Qed.

(** *** [argmax] *)

Lemma argmax_from_bound (l : list logit) : ∀ best best_i i,
  (best_i < i)%nat →
  (argmax_from logit_ltb best best_i i l < i + length l)%nat.
Proof.
  induction l as [|x r IH]; intros best best_i i Hlt; simpl; [lia|].
  destruct (logit_ltb best x).
  - specialize (IH x i (S i)). lia.
  - specialize (IH best best_i (S i)). lia.
Qed.

Lemma argmax_bound (l : list logit) (c : Z) :
  argmax logit_ltb l = Some c → 0 <= c < Z.of_nat (length l).
Proof.
  destruct l as [|x r]; [done|]. intros [= <-].
  pose proof (argmax_from_bound r x 0%nat 1%nat). simpl. lia.
Qed.

Lemma argmax_from_first (full : list logit) :
  strict_weak_order logit_ltb →
  ∀ l best best_i i,
    full !! best_i = Some best → drop i full = l → (best_i < i)%nat →
    (∀ j y, (j < i)%nat → full !! j = Some y → logit_ltb best y = false) →
    (∀ j y, (j < best_i)%nat → full !! j = Some y →
       logit_ltb y best = true) →
    ∃ v, full !! argmax_from logit_ltb best best_i i l = Some v
      ∧ (argmax_from logit_ltb best best_i i l < length full)%nat
      ∧ (∀ y, y ∈ full → logit_ltb v y = false)
      ∧ ∀ j y, (j < argmax_from logit_ltb best best_i i l)%nat →
          full !! j = Some y → logit_ltb y v = true.
Proof.
  intros (Hirr & Htr & Hco).
  induction l as [|x r IH]; intros best best_i i Hb Hd Hlt Hmax Hfirst.
  - simpl. exists best. split_and!; [done| | |done].
    + by apply lookup_lt_Some in Hb.
    + intros y (j & Hj)%list_elem_of_lookup_1. apply (Hmax j); [|done].
      apply lookup_lt_Some in Hj.
      assert (length (drop i full) = 0%nat) as Hz by by rewrite Hd.
      rewrite length_drop in Hz. lia.
  - assert (full !! i = Some x) as Hx.
    { pose proof (lookup_drop full i 0) as Hl0.
      rewrite Nat.add_0_r, Hd in Hl0. done. }
    assert (drop (S i) full = r) as Hr.
    { replace (S i) with (i + 1)%nat by lia.
      by rewrite <- drop_drop, Hd. }
    simpl. destruct (logit_ltb best x) eqn:Hbx.
    + apply IH; [done|done|lia| |].
      * intros j y Hj Hy. destruct (decide (j = i)) as [->|Hne].
        { rewrite Hx in Hy. injection Hy as <-. apply Hirr. }
        destruct (logit_ltb x y) eqn:Hxy; [|done].
        rewrite <- (Hmax j y); [|lia|done]. symmetry. by eapply Htr.
      * intros j y Hj Hy.
        destruct (Hco _ _ y Hbx) as [Hby|Hyx]; [|done].
        by rewrite (Hmax j y) in Hby.
    + apply IH; [done|done|lia| |done].
      intros j y Hj Hy. destruct (decide (j = i)) as [->|Hne].
      { rewrite Hx in Hy. by injection Hy as <-. }
      apply (Hmax j); [lia|done].
Qed.

(** *** The schedule of the loop *)


(** *** Post-processing *)

Lemma out_row_spec (c : Z) (t row : list Z) :
  0 <= c →
  let gen := take (Z.to_nat c) (drop (length t) row) in
  (∃ rest, gen = out_row tokenizer c t row ++ rest
     ∧ (eos ∉ out_row tokenizer c t row)
     ∧ (rest = [] ∨ head rest = Some eos)).
Proof.
  intros Hc gen. unfold out_row.
  rewrite slice_nonneg by lia.
  replace (Z.to_nat (Z.of_nat (length t) + c - Z.of_nat (length t)))
    with (Z.to_nat c) by lia.
  rewrite Nat2Z.id. fold gen.
  destruct (Py.index eos gen) as [k|] eqn:E.
  - apply index_Some in E as [Hk Hnot].
    exists (drop k gen). split; [by rewrite take_drop|]. split; [done|].
    right. rewrite <- (take_drop k gen) in Hk at 1.
    pose proof (lookup_lt_Some _ _ _ Hk) as Hlt.
    rewrite length_app in Hlt.
    rewrite lookup_app_r in Hk by (rewrite length_take; lia).
    rewrite length_take in Hk.
    assert (k <= length gen)%nat as Hkl.
    { destruct (decide (k <= length gen)%nat); [done|].
      rewrite length_take, length_drop in Hlt. lia. }
    replace (k - (k `min` length gen))%nat with 0%nat in Hk by lia.
    by rewrite <- head_lookup in Hk.
  - apply index_None in E. exists []. rewrite app_nil_r. auto.
Qed.

(** C5: every returned row is the slice of the final buffer row from
    the prompt length up to the prompt length plus the cap, cut just
    before the first end id when the slice has one; so an end id first
    met at index [k] of the slice gives a returned row of length [k]
    (length 3 for [k = 3] under a cap of 10). *)
Theorem generate_returns_truncated_rows prompt_toks max_gen out :
  generate prompt_toks max_gen = Some out →
  ∃ fin, generate_state prompt_toks max_gen = Some fin
    ∧ length out = length prompt_toks
    ∧ ∀ i t, prompt_toks !! i = Some t →
        ∃ row res, gen_toks fin !! i = Some row ∧ out !! i = Some res
          ∧ let gen := take (Z.to_nat (cap max_gen)) (drop (length t) row)
            in (∃ rest, gen = res ++ rest
                  ∧ (eos ∉ res)
                  ∧ (rest = [] ∨ head rest = Some eos)
                  ∧ ∀ k, gen !! k = Some eos → eos ∉ take k gen →
                      length res = k).
Proof.
  unfold Generate.generate.
  destruct (generate_state _ _) as [fin|] eqn:Hfin; simpl; [|discriminate].
  intros [= <-]. exists fin. split; [reflexivity|].
  destruct (generate_state_inv _ _ _ Hfin) as (mn & ttl & buf & Hs).
  destruct (generate_state_shape _ _ _ _ _ _ Hs Hfin) as [p [_ Hall]].
  destruct (started_facts _ _ _ _ _ Hs) as (_ & Httl0 & Hlb & Hrows).
  pose proof (Forall2_length _ _ _ Hall) as Hl.
  split; [rewrite length_zip_with; lia|].
  intros i t Ht. pose proof (lookup_lt_Some _ _ _ Ht) as Hi.
  destruct (lookup_lt_is_Some_2 (gen_toks fin) i) as [row Hr]; [lia|].
  exists row, (out_row tokenizer (cap max_gen) t row).
  split; [done|].
  split; [by rewrite lookup_zip_with, Ht; simpl; rewrite Hr|].
  destruct (Forall2_lookup_l _ _ _ _ _ Hrows Ht) as (row0 & Hb & Hrow0).
  destruct (Forall2_lookup_lr _ _ _ _ _ _ Hall Hr Hb) as [Hlr _].
  rewrite (prompt_row_length _ _ _ Hrow0) in Hlr.
  assert (∃ rest,
    take (Z.to_nat (cap max_gen)) (drop (length t) row)
    = out_row tokenizer (cap max_gen) t row ++ rest
    ∧ (eos ∉ out_row tokenizer (cap max_gen) t row)
    ∧ (rest = [] ∨ head rest = Some eos)) as (rest & Hg & Hno & Hrest).
  { destruct (decide (0 < ttl)) as [Hpos|Hz].
    - apply out_row_spec. by eapply cap_nonneg.
    - assert (row = []) as -> by (apply nil_length_inv; lia).
      exists []. unfold out_row, Py.slice.
      rewrite !drop_nil, !take_nil. simpl.
      split; [done|]. split; [apply not_elem_of_nil|by left]. }
  simpl. exists rest. repeat (split; [done|]).
  intros k Hk Hnk. rewrite Hg in Hk, Hnk.
  set (res := out_row tokenizer (cap max_gen) t row) in *.
  destruct (Nat.lt_trichotomy (length res) k) as [Hlt|[Heq|Hgt]];
    [|done|].
  - exfalso. destruct Hrest as [->|Hhd].
    + rewrite app_nil_r in Hk. apply Hno. by eapply list_elem_of_lookup_2.
    + apply Hnk. rewrite head_lookup in Hhd.
      apply (list_elem_of_lookup_2 _ (length res)).
      rewrite lookup_take_lt by done.
      rewrite lookup_app_r by done. by rewrite Nat.sub_diag.
  - exfalso. apply Hno. rewrite lookup_app_l in Hk by done.
    by eapply list_elem_of_lookup_2.
Qed.

End WithModel.

Lemma Z_ltb_strict_weak_order : strict_weak_order Z.ltb.
Proof.
  split_and!.
  - intros a. apply Z.ltb_irrefl.
  - intros a b c ?%Z.ltb_lt ?%Z.ltb_lt. apply Z.ltb_lt. lia.
  - intros a b c ?%Z.ltb_lt.
    destruct (Z.ltb_spec a c); [by left|right]. apply Z.ltb_lt. lia.
Qed.

(** *** The theorems on concrete runs of the toy model *)

Import Demo.

Lemma in_prompt_rows_keep_tokens_witness :
  let buf := [[1; 4; 5; 0; 0; 0; 0; 0]; [1; 0; 0; 0; 0; 0; 0; 0]] in
  let st' := {| gen_toks := [[1; 4; 5; 0; 0; 0; 0; 0];
                             [1; 2; 0; 0; 0; 0; 0; 0]];
                eos_reached := [false; false] |} in
  started tokenizer small_args [[1; 4; 5]; [1]] 5 1 8 buf
  ∧ iteration Z.ltb successor_model tokenizer 1 8 buf 1 (init_state buf) st'
  ∧ entry (gen_toks st') 0 1 = Some 4
  ∧ ∃ cands c,
      candidates Z.ltb successor_model 1 (init_state buf) = Some cands
      ∧ cands !! 1%nat = Some c ∧ entry (gen_toks st') 1 1 = Some c.
Proof.
  intros buf st'.
  assert (started tokenizer small_args [[1; 4; 5]; [1]] 5 1 8 buf) as Hs.
  { repeat split; reflexivity. }
  assert (iteration Z.ltb successor_model tokenizer 1 8 buf 1
            (init_state buf) st') as Hit.
  { split; [apply head_first|]. split; [reflexivity|reflexivity]. }
  split; [exact Hs|]. split; [exact Hit|]. split.
  - apply (proj1 (in_prompt_rows_keep_tokens Z.ltb successor_model
                    tokenizer small_args _ _ _ _ _ _ _ _ 0%nat [1; 4; 5]
                    Hs Hit eq_refl) 4); [reflexivity|discriminate].
  - apply (proj2 (in_prompt_rows_keep_tokens Z.ltb successor_model
                    tokenizer small_args _ _ _ _ _ _ _ _ 1%nat [1]
                    Hs Hit eq_refl)).
    simpl. lia.
Defined.

(** C2, as stated, fails on a prompt that holds the pad id: with prompts
    [1, 0, 5] and [1] and pad id 0, the body at column 1 replaces the
    prompt token 0 of the first row by the candidate 2. *)
Lemma pad_in_prompt_is_overwritten :
  ¬ keeps_prompt_by_position Z.ltb successor_model tokenizer small_args
      [[1; 0; 5]; [1]] 5.
Proof.
  intros H.
  specialize (H 1 8 [[1; 0; 5; 0; 0; 0; 0; 0]; [1; 0; 0; 0; 0; 0; 0; 0]]
                1%nat
                (init_state [[1; 0; 5; 0; 0; 0; 0; 0];
                             [1; 0; 0; 0; 0; 0; 0; 0]])
                {| gen_toks := [[1; 2; 5; 0; 0; 0; 0; 0];
                                [1; 2; 0; 0; 0; 0; 0; 0]];
                   eos_reached := [false; false] |}
                0%nat [1; 0; 5] 0).
  assert (Some 2 = Some 0) as Habs; [|discriminate Habs].
  apply H.
  - repeat split; reflexivity.
  - split; [apply head_first|]. split; reflexivity.
  - reflexivity.
  - reflexivity.
Qed.


(** C7, as stated, fails on a prompt that holds the pad id: with prompts
    [1, 0, 5] and [1], pad id 0 and end id 2, the body at column 1 sets the
    flag of the first row, whose prompt has three tokens. *)
Lemma flag_set_inside_prompt :
  ¬ flags_set_beyond_prompt_only Z.ltb successor_model tokenizer_eos_two
      small_args [[1; 0; 5]; [1]] 5.
Proof.
  intros H.
  specialize (H 1 8 [[1; 0; 5; 0; 0; 0; 0; 0]; [1; 0; 0; 0; 0; 0; 0; 0]]
                1%nat
                (init_state [[1; 0; 5; 0; 0; 0; 0; 0];
                             [1; 0; 0; 0; 0; 0; 0; 0]])
                {| gen_toks := [[1; 2; 5; 0; 0; 0; 0; 0];
                                [1; 2; 0; 0; 0; 0; 0; 0]];
                   eos_reached := [true; true] |}
                0%nat [1; 0; 5]).
  assert (3 <= 1)%nat as Habs; [|lia].
  apply H.
  - repeat split; reflexivity.
  - split; [apply head_first|]. split; reflexivity.
  - reflexivity.
  - reflexivity.
  - reflexivity.
Qed.

Lemma eos_flags_monotone_and_exit_witness :
  let buf := [[3; 0; 0; 0; 0; 0; 0; 0; 0; 0; 0]] in
  let st := {| gen_toks := [[3; 4; 5; 6; 0; 0; 0; 0; 0; 0; 0]];
               eos_reached := [false] |} in
  let st' := {| gen_toks := [[3; 4; 5; 6; 7; 0; 0; 0; 0; 0; 0]];
                eos_reached := [true] |} in
  started tokenizer small_args [[3]] 10 1 11 buf
  ∧ iteration Z.ltb successor_model tokenizer 1 11 buf 4 st st'
  ∧ eos_reached (init_state buf) = replicate (length [[3]]) false
  ∧ generate_state Z.ltb successor_model tokenizer small_args [[3]] 10
    = Some st'.
Proof.
  intros buf st st'.
  assert (started tokenizer small_args [[3]] 10 1 11 buf) as Hs.
  { repeat split; reflexivity. }
  assert (iteration Z.ltb successor_model tokenizer 1 11 buf 4 st st') as Hit.
  { split; [|split; reflexivity].
    eapply head_next; [eapply head_next; [eapply head_next;
      [apply head_first|..]|..]|..]; reflexivity. }
  pose proof (eos_flags_monotone_and_exit Z.ltb successor_model tokenizer
                small_args _ _ _ _ _ Hs) as (H0 & _ & _ & _ & Hexit & _).
  split; [exact Hs|]. split; [exact Hit|]. split; [exact H0|].
  apply (Hexit 4%nat st st' Hit). reflexivity.
Defined.


Lemma generate_returns_truncated_rows_witness :
  generate Z.ltb successor_model tokenizer small_args [[3]] 10
  = Some [[4; 5; 6]]
  ∧ cap small_args 10 = 10
  ∧ ∃ fin, generate_state Z.ltb successor_model tokenizer small_args [[3]] 10
           = Some fin
      ∧ length [[4; 5; 6]] = length [[3]].
Proof.
  assert (generate Z.ltb successor_model tokenizer small_args [[3]] 10
          = Some [[4; 5; 6]]) as Hg by reflexivity.
  split; [exact Hg|]. split; [reflexivity|].
  destruct (generate_returns_truncated_rows Z.ltb successor_model tokenizer
              small_args _ _ _ Hg) as (fin & Hfin & Hlen & _).
  exists fin. split; [exact Hfin|exact Hlen].
Defined.

End GenerateFacts.

Module BuildFacts.

Import Build.

Lemma ceil_div_spec (x m : Z) :
  0 < m → (ceil_div x m - 1) * m < x <= ceil_div x m * m.
Proof.
  intros Hm. unfold ceil_div.
  pose proof (Z.div_mod (- x) m ltac:(lia)) as Hdm.
  pose proof (Z.mod_pos_bound (- x) m Hm) as Hb. nia.
Qed.

Lemma round_up_ceil (h m : Z) :
  0 < m → round_up h m = Some (ceil_div h m * m).
Proof.
  intros Hm. unfold round_up, Py.floor_div.
  destruct (Z.eqb_spec m 0); [lia|]. simpl. f_equal.
  pose proof (ceil_div_spec h m Hm) as Hc.
  assert ((h + m - 1) / m = ceil_div h m) as ->; [|lia].
  symmetry. apply (Z.div_unique_pos _ _ _ (h + m - 1 - m * ceil_div h m)).
  - nia.
  - lia.
Qed.

Lemma mapM_total {A B} (f : A → option B) (g : A → B) (l : list A) :
  (∀ x, x ∈ l → f x = Some (g x)) → mapM f l = Some (map g l).
Proof.
  intros H. apply mapM_Some. apply Forall2_fmap_r, Forall_Forall2_diag.
  apply Forall_forall. intros x Hx. by apply H.
Qed.

Lemma range_nil_iff (n : Z) : range n = [] ↔ n <= 0.
Proof.
  unfold range. split.
  - intros H. apply (f_equal length) in H.
    rewrite length_map, length_seq in H. simpl in H. lia.
  - intros H. by replace (Z.to_nat n) with 0%nat by lia.
Qed.

(** *** What a successful construction went through *)

Section WithAllocator.

Variable float_size : Z.
Variable grants : Z → list Z → bool.

Abbreviation alloc := (alloc grants).
Abbreviation Attention_init := (Attention_init float_size grants).
Abbreviation FeedForward_init := (FeedForward_init float_size grants).
Abbreviation TransformerBlock_init :=
  (TransformerBlock_init float_size grants).
Abbreviation precompute_freqs_cis := (precompute_freqs_cis grants).
Abbreviation Transformer_init := (Transformer_init float_size grants).
Abbreviation tensors := (tensors float_size).

Lemma alloc_Some (itemsize : Z) (shape s : list Z) :
  alloc itemsize shape = Some s ↔
    s = shape ∧ Forall (λ d, 0 <= d < 2 ^ 63) shape
    ∧ foldr Z.mul 1 shape < 2 ^ 63
    ∧ - 2 ^ 63 <= foldr Z.mul 1 shape * itemsize < 2 ^ 63
    ∧ grants itemsize shape = true.
Proof.
  unfold Build.alloc. cbv zeta. split.
  - destruct (forallb (λ d, 0 <=? d) shape) eqn:Hs; [|done].
    destruct (forallb Py.int64_ok shape) eqn:Hi; [|done].
    destruct (Py.int64_ok (foldr Z.mul 1 shape)) eqn:Hp; [|done].
    destruct (Py.int64_ok (foldr Z.mul 1 shape * itemsize)) eqn:Hb;
      [|done].
    destruct (grants itemsize shape); [|done]. intros [= <-].
    split; [done|]. split; [|split; [|split; [|done]]].
    + apply Forall_forall. intros d Hd.
      rewrite forallb_forall in Hs, Hi. apply list_elem_of_In in Hd.
      specialize (Hs d Hd). specialize (Hi d Hd). unfold Py.int64_ok in Hi.
      apply Z.leb_le in Hs. apply andb_true_iff in Hi as [_ Hi].
      apply Z.ltb_lt in Hi. lia.
    + unfold Py.int64_ok in Hp. apply andb_true_iff in Hp as [_ Hp].
      by apply Z.ltb_lt in Hp.
    + unfold Py.int64_ok in Hb. apply andb_true_iff in Hb as [Hb1 Hb2].
      apply Z.leb_le in Hb1. apply Z.ltb_lt in Hb2. done.
  - intros (-> & Hall & Hp & Hb & ->).
    assert (forallb (λ d, 0 <=? d) shape = true) as ->.
    { apply forallb_forall. intros d Hd. apply Z.leb_le.
      rewrite Forall_forall in Hall. apply list_elem_of_In in Hd.
      specialize (Hall d Hd). lia. }
    assert (forallb Py.int64_ok shape = true) as ->.
    { apply forallb_forall. intros d Hd. unfold Py.int64_ok.
      rewrite Forall_forall in Hall. apply list_elem_of_In in Hd.
      specialize (Hall d Hd). apply andb_true_iff.
      split; [apply Z.leb_le|apply Z.ltb_lt]; lia. }
    assert (Py.int64_ok (foldr Z.mul 1 shape) = true) as ->.
    { unfold Py.int64_ok. apply andb_true_iff.
      split; [apply Z.leb_le|by apply Z.ltb_lt].
      transitivity 0; [lia|]. clear Hp Hb.
      induction Hall as [|d l Hd _ IH]; simpl; [lia|]. nia. }
    assert (Py.int64_ok (foldr Z.mul 1 shape * itemsize) = true) as ->;
      [|done].
    unfold Py.int64_ok. apply andb_true_iff.
    split; [apply Z.leb_le|apply Z.ltb_lt]; lia.
Qed.

Lemma alloc_Some_eq (itemsize : Z) (shape s : list Z) :
  alloc itemsize shape = Some s →
  alloc itemsize shape = Some shape ∧ s = shape.
Proof. intros H. pose proof H as (-> & _)%alloc_Some. done. Qed.

Lemma alloc_nonneg (itemsize a b : Z) :
  alloc itemsize [a; b] = Some [a; b] → 0 <= a ∧ 0 <= b.
Proof.
  intros (_ & H & _)%alloc_Some.
  apply Forall_cons in H as [? H]. apply Forall_cons in H as [? _]. lia.
Qed.

Lemma alloc_nonneg_1 (itemsize a : Z) :
  alloc itemsize [a] = Some [a] → 0 <= a.
Proof.
  intros (_ & H & _)%alloc_Some. apply Forall_cons in H as [? _]. lia.
Qed.

Lemma Attention_init_Some (params : ModelArgs) (a : Attention) :
  Attention_init params = Some a ↔
    n_heads params ≠ 0
    ∧ alloc float_size [n_heads params * (dim params / n_heads params); dim params]
      = Some [n_heads params * (dim params / n_heads params); dim params]
    ∧ alloc float_size [dim params; n_heads params * (dim params / n_heads params)]
      = Some [dim params; n_heads params * (dim params / n_heads params)]
    ∧ a = {| att_n_heads := n_heads params;
             att_head_dim := dim params / n_heads params;
             wq := [n_heads params * (dim params / n_heads params);
                    dim params];
             wk := [n_heads params * (dim params / n_heads params);
                    dim params];
             wv := [n_heads params * (dim params / n_heads params);
                    dim params];
             wo := [dim params;
                    n_heads params * (dim params / n_heads params)] |}.
Proof.
  unfold Build.Attention_init, Py.floor_div, Linear.
  destruct (Z.eqb_spec (n_heads params) 0) as [H0|H0]; simpl.
  { split; [done|]. by intros (? & _). }
  split.
  - intros H.
    apply bind_Some in H as (q & Hq & H).
    apply alloc_Some_eq in Hq as [Hq ->].
    apply bind_Some in H as (k & Hk & H).
    apply alloc_Some_eq in Hk as [_ ->].
    apply bind_Some in H as (v & Hv & H).
    apply alloc_Some_eq in Hv as [_ ->].
    apply bind_Some in H as (o & Ho & H).
    apply alloc_Some_eq in Ho as [Ho ->]. by injection H as <-.
  - intros (_ & -> & -> & ->). done.
Qed.

Lemma FeedForward_init_Some (d hidden m : Z) (mult : option float)
    (f : FeedForward) :
  FeedForward_init d hidden m mult = Some f ↔
    ∃ h, ffn_hidden_dim hidden m mult = Some h
      ∧ alloc float_size [h; d] = Some [h; d] ∧ alloc float_size [d; h] = Some [d; h]
      ∧ f = {| w1 := [h; d]; w2 := [d; h]; w3 := [h; d] |}.
Proof.
  unfold Build.FeedForward_init, Linear. split.
  - intros H.
    apply bind_Some in H as (h & Hh & H).
    apply bind_Some in H as (a & Ha & H).
    apply alloc_Some_eq in Ha as [Ha ->].
    apply bind_Some in H as (c & Hc & H).
    apply alloc_Some_eq in Hc as [Hc ->].
    apply bind_Some in H as (a' & Ha' & H).
    apply alloc_Some_eq in Ha' as [_ ->].
    injection H as <-. by exists h.
  - intros (h & -> & Ha & Hc & ->). simpl. rewrite Ha. simpl.
    rewrite Hc. done.
Qed.

Lemma TransformerBlock_init_Some (id : Z) (params : ModelArgs)
    (b : TransformerBlock) :
  TransformerBlock_init id params = Some b ↔
    ∃ a f, Attention_init params = Some a
      ∧ FeedForward_init (dim params) (4 * dim params) (multiple_of params)
          (ffn_dim_multiplier params) = Some f
      ∧ alloc float_size [dim params] = Some [dim params]
      ∧ b = {| blk_head_dim := dim params / n_heads params;
               attention := a; feed_forward := f; layer_id := id;
               attention_norm := [dim params];
               ffn_norm := [dim params] |}.
Proof.
  unfold Build.TransformerBlock_init, Py.floor_div, RMSNorm_init. split.
  - destruct (Z.eqb_spec (n_heads params) 0); cbn [mbind option_bind];
      [done|].
    intros H.
    apply bind_Some in H as (a & Ha & H).
    apply bind_Some in H as (f & Hf & H).
    apply bind_Some in H as (w & Hw & H).
    apply alloc_Some_eq in Hw as [Hw ->].
    apply bind_Some in H as (w' & Hw' & H).
    apply alloc_Some_eq in Hw' as [_ ->].
    injection H as <-. by exists a, f.
  - intros (a & f & Ha & -> & Hw & ->). rewrite Ha.
    apply Attention_init_Some in Ha as (Hn & _).
    destruct (Z.eqb_spec (n_heads params) 0); [done|]. simpl.
    by rewrite Hw.
Qed.

Lemma precompute_freqs_cis_Some (d e : Z) (t : list Z) :
  precompute_freqs_cis d e = Some t ↔
    0 <= d ∧ 0 <= e
    ∧ alloc 8 [(d + 1) / 2] = Some [(d + 1) / 2]
    ∧ alloc 4 [Z.min (d / 2) ((d + 1) / 2)]
      = Some [Z.min (d / 2) ((d + 1) / 2)]
    ∧ alloc 8 [e] = Some [e]
    ∧ alloc 4 [e; Z.min (d / 2) ((d + 1) / 2)]
      = Some [e; Z.min (d / 2) ((d + 1) / 2)]
    ∧ alloc 8 [e; Z.min (d / 2) ((d + 1) / 2)]
      = Some [e; Z.min (d / 2) ((d + 1) / 2)]
    ∧ t = [e; d / 2].
Proof.
  assert (0 <= d → Z.min (d / 2) ((d + 1) / 2) = d / 2) as Hmin.
  { intros Hd. apply Z.min_l, Z.div_le_mono; lia. }
  unfold Build.precompute_freqs_cis. split.
  - destruct (Z.leb_spec 0 d); cbn [andb]; [|done].
    destruct (Z.leb_spec 0 e); cbn [andb]; [|done].
    intros Hb.
    apply bind_Some in Hb as (i & Hi & Hb).
    apply alloc_Some_eq in Hi as [Hi _].
    apply bind_Some in Hb as (f & Hf & Hb).
    apply alloc_Some_eq in Hf as [Hf _].
    apply bind_Some in Hb as (p & Hp & Hb).
    apply alloc_Some_eq in Hp as [Hp _].
    apply bind_Some in Hb as (o & Ho & Ht).
    apply alloc_Some_eq in Ho as [Ho _].
    apply alloc_Some_eq in Ht as [Ht ->].
    split_and!; [done|done|done|done|done|done|done|]. by rewrite Hmin.
  - intros (Hd & He & Hi & Hf & Hp & Ho & Ht & ->).
    destruct (Z.leb_spec 0 d); [|lia]. destruct (Z.leb_spec 0 e); [|lia].
    cbn [andb]. rewrite Hi. cbn [mbind option_bind]. rewrite Hf.
    cbn [mbind option_bind]. rewrite Hp. cbn [mbind option_bind].
    rewrite Ho. cbn [mbind option_bind]. rewrite Ht. by rewrite Hmin.
Qed.

Lemma Transformer_init_Some (params : ModelArgs) (m : Transformer) :
  Transformer_init params = Some m ↔
    n_heads params ≠ 0
    ∧ alloc float_size [vocab_size params; dim params]
      = Some [vocab_size params; dim params]
    ∧ precompute_freqs_cis (dim params / n_heads params)
        (max_seq_len params * 2)
      = Some [max_seq_len params * 2; dim params / n_heads params / 2]
    ∧ alloc float_size [dim params] = Some [dim params]
    ∧ ∃ ls, mapM (λ id, TransformerBlock_init id params)
              (range (n_layers params)) = Some ls
        ∧ m = {| tok_embeddings := [vocab_size params; dim params];
                 freqs_cis := [max_seq_len params * 2;
                               dim params / n_heads params / 2];
                 layers := ls; norm := [dim params];
                 output := [vocab_size params; dim params] |}.
Proof.
  unfold Build.Transformer_init, Py.floor_div, RMSNorm_init, Linear.
  split.
  - intros H.
    apply bind_Some in H as (e & He & H).
    apply alloc_Some_eq in He as [He ->].
    destruct (Z.eqb_spec (n_heads params) 0); cbn [mbind option_bind] in H;
      [done|].
    apply bind_Some in H as (t & Ht & H).
    pose proof Ht
      as (_ & _ & _ & _ & _ & _ & _ & ->)%precompute_freqs_cis_Some.
    apply bind_Some in H as (ls & Hls & H).
    apply bind_Some in H as (w & Hw & H).
    apply alloc_Some_eq in Hw as [Hw ->].
    apply bind_Some in H as (o & Ho & H).
    apply alloc_Some_eq in Ho as [_ ->].
    injection H as <-. split_and!; [done|done|done|done|]. by exists ls.
  - intros (Hn & He & Ht & Hw & ls & Hls & ->). rewrite He. simpl.
    destruct (Z.eqb_spec (n_heads params) 0); [done|]. simpl.
    rewrite Ht. simpl. rewrite Hls. simpl. rewrite Hw. done.
Qed.

Lemma zero_heads_rejected (params : ModelArgs) :
  n_heads params = 0 → Transformer_init params = None.
Proof.
  intros H0. destruct (Transformer_init params) as [m|] eqn:Hm; [|done].
  by apply Transformer_init_Some in Hm as (Hn & _).
Qed.

Lemma layers_of_init (params : ModelArgs) (ls : list TransformerBlock) :
  mapM (λ id, TransformerBlock_init id params) (range (n_layers params))
  = Some ls →
  length ls = Z.to_nat (n_layers params)
  ∧ map layer_id ls = range (n_layers params)
  ∧ ∀ b, b ∈ ls → ∃ id, TransformerBlock_init id params = Some b.
Proof.
  intros Hls. apply mapM_Some in Hls. split_and!.
  - rewrite <- (Forall2_length _ _ _ Hls). unfold range.
    by rewrite length_map, length_seq.
  - induction Hls as [|id b ids ls' Hb _ IH]; [done|].
    apply TransformerBlock_init_Some in Hb as (a & f & _ & _ & _ & ->).
    simpl. by rewrite IH.
  - intros b Hb. apply list_elem_of_lookup_1 in Hb as [i Hb].
    destruct (Forall2_lookup_r _ _ _ _ _ Hls Hb) as (id & _ & Hinit).
    eauto.
Qed.

Lemma tensors_granted (params : ModelArgs) (h : Z) :
  Forall (λ t, alloc t.1 t.2 = Some t.2) (tensors params h) →
  let hd := dim params / n_heads params in
  let hd2 := Z.min (hd / 2) ((hd + 1) / 2) in
  alloc float_size [vocab_size params; dim params]
  = Some [vocab_size params; dim params]
  ∧ alloc 8 [(hd + 1) / 2] = Some [(hd + 1) / 2]
  ∧ alloc 4 [hd2] = Some [hd2]
  ∧ alloc 8 [max_seq_len params * 2] = Some [max_seq_len params * 2]
  ∧ alloc 4 [max_seq_len params * 2; hd2]
    = Some [max_seq_len params * 2; hd2]
  ∧ alloc 8 [max_seq_len params * 2; hd2]
    = Some [max_seq_len params * 2; hd2]
  ∧ alloc float_size [dim params] = Some [dim params]
  ∧ (0 < n_layers params →
     alloc float_size [n_heads params * hd; dim params]
     = Some [n_heads params * hd; dim params]
     ∧ alloc float_size [dim params; n_heads params * hd]
       = Some [dim params; n_heads params * hd]
     ∧ alloc float_size [h; dim params] = Some [h; dim params]
     ∧ alloc float_size [dim params; h] = Some [dim params; h]).
Proof.
  intros H. unfold Build.tensors in H. cbv zeta in *.
  apply Forall_app in H as [H Hl].
  repeat (apply Forall_cons in H as [? H]).
  split_and!; try done. intros Hpos.
  destruct (Z.ltb_spec 0 (n_layers params)); [|lia].
  repeat (apply Forall_cons in Hl as [? Hl]). done.
Qed.

(** C6 (amended): construction makes no test of [dim % n_heads].  With a
    positive head count, a feed-forward width that can be computed and
    tensors that are all allocated, the model is built whether or not the
    head count divides the dimension: every block gets the head dimension
    [dim // n_heads] and projections of width [n_heads * (dim // n_heads)],
    which is [dim] less the remainder. *)
Theorem construction_ignores_divisibility (params : ModelArgs) (h : Z) :
  0 < n_heads params →
  (0 < n_layers params →
   ffn_hidden_dim (4 * dim params) (multiple_of params)
     (ffn_dim_multiplier params) = Some h) →
  Forall (λ t, alloc t.1 t.2 = Some t.2) (tensors params h) →
  ∃ m, Transformer_init params = Some m
    ∧ length (layers m) = Z.to_nat (n_layers params)
    ∧ ∀ b, b ∈ layers m →
        att_head_dim (attention b) = dim params / n_heads params
        ∧ wq (attention b)
          = [n_heads params * (dim params / n_heads params); dim params]
        ∧ n_heads params * (dim params / n_heads params)
          = dim params - dim params `mod` n_heads params.
Proof.
  intros Hn Hff Hall.
  destruct (tensors_granted _ _ Hall)
    as (He & Hi & Hf & Hp & Hfl & Ht & Hw & Hlayer).
  pose proof (alloc_nonneg _ _ _ He) as [_ Hd].
  assert (0 <= dim params / n_heads params) as Hhd
    by (apply Z.div_pos; lia).
  pose proof (alloc_nonneg_1 _ _ Hp) as Hs.
  assert (is_Some (mapM (λ id, TransformerBlock_init id params)
                     (range (n_layers params)))) as [ls Hls].
  { apply mapM_is_Some, Forall_forall. intros id Hid. simpl.
    assert (0 < n_layers params) as Hl.
    { destruct (Z.le_gt_cases (n_layers params) 0) as [Hle|]; [|done].
      apply range_nil_iff in Hle. rewrite Hle in Hid.
      by apply elem_of_nil in Hid. }
    destruct (Hlayer Hl) as (Hq & Ho & H1 & H2).
    eexists. apply TransformerBlock_init_Some. do 2 eexists.
    split_and!; [|apply FeedForward_init_Some; eauto 10|done|done].
    apply Attention_init_Some. split_and!; [lia|done|done|done]. }
  destruct (layers_of_init _ _ Hls) as (Hlen & _ & Hinit).
  eexists. split.
  { apply Transformer_init_Some. split_and!; [lia|done| |done|eauto].
    apply precompute_freqs_cis_Some. split_and!; [done|lia|done..]. }
  split; [done|]. simpl. intros b Hb.
  destruct (Hinit b Hb) as (id & Hid).
  apply TransformerBlock_init_Some in Hid as (a & f & Ha & _ & _ & ->).
  apply Attention_init_Some in Ha as (_ & _ & _ & ->). simpl.
  split; [done|]. split; [done|].
  pose proof (Z.div_mod (dim params) (n_heads params) ltac:(lia)). lia.
Qed.

End WithAllocator.

(** C4: the effective hidden width is the value left by the 2/3
    reduction and the optional multiplier, rounded up to the nearest
    multiple of [multiple_of].  The reduction is [int(2 * hidden / 3)];
    with a multiplier [m] it is followed by [int(m * hidden)].  For the
    default configuration (dim 4096, multiple_of 256, no multiplier) the
    width is 11008, which is 256 times the ceiling of
    (2 * 4096 * 4 / 3) / 256, and it is the width of the feed-forward
    weights of every block that is built; for dim 8192, multiple_of 4096
    and the multiplier 1.3 it is 28672, and 24576 without the
    multiplier. *)
Theorem ffn_hidden_dim_rounds_up :
  (∀ hidden_dim multiple_of mult h,
     0 < multiple_of →
     ffn_hidden_dim hidden_dim multiple_of mult = Some h →
     ∃ h0, reduce_hidden hidden_dim mult = Some h0
       ∧ h = ceil_div h0 multiple_of * multiple_of
       ∧ (ceil_div h0 multiple_of - 1) * multiple_of < h0
           <= ceil_div h0 multiple_of * multiple_of
       ∧ h0 <= h < h0 + multiple_of)
  ∧ (∀ hidden_dim,
       reduce_hidden hidden_dim None
       = (f ← Py.true_div (2 * hidden_dim) 3; Py.int_of_float f))
  ∧ (∀ hidden_dim m h0,
       reduce_hidden hidden_dim None = Some h0 →
       reduce_hidden hidden_dim (Some m)
       = (hf ← Py.float_of_int h0; Py.int_of_float (PrimFloat.mul m hf)))
  ∧ reduce_hidden (4 * 4096) None = Some 10922
  ∧ ffn_hidden_dim (4 * 4096) 256 None = Some 11008
  ∧ 256 * Qround.Qceiling
            (QArith_base.Qdiv (QArith_base.Qmake (2 * 4096 * 4) 3)
               (QArith_base.inject_Z 256)) = 11008
  ∧ reduce_hidden (4 * 8192) (Some 0x1.4cccccccccccdp+0%float) = Some 28398
  ∧ ffn_hidden_dim (4 * 8192) 4096 (Some 0x1.4cccccccccccdp+0%float)
    = Some 28672
  ∧ ffn_hidden_dim (4 * 8192) 4096 None = Some 24576
  ∧ (∀ float_size grants id b,
       TransformerBlock_init float_size grants id default_args = Some b →
       w1 (feed_forward b) = [11008; 4096]
       ∧ w2 (feed_forward b) = [4096; 11008]
       ∧ w3 (feed_forward b) = [11008; 4096])
  ∧ is_Some (TransformerBlock_init Demo.half_size Demo.roomy 0
               default_args).
Proof.
  split.
  { intros hidden_dim m mult h Hm. unfold ffn_hidden_dim.
    destruct (reduce_hidden hidden_dim mult) as [h0|]; simpl;
      [|discriminate].
    rewrite round_up_ceil by done. intros [= <-]. exists h0.
    pose proof (ceil_div_spec h0 m Hm). repeat split; lia. }
  split.
  { intros hidden_dim. unfold reduce_hidden.
    destruct (Py.true_div _ _) as [f|]; simpl; [|done].
    by destruct (Py.int_of_float f). }
  split.
  { intros hidden_dim m h0. unfold reduce_hidden.
    destruct (Py.true_div _ _) as [f|]; simpl; [|done].
    destruct (Py.int_of_float f) as [h|]; simpl; [|done].
    by intros [= ->]. }
  do 6 (split; [vm_compute; reflexivity|]).
  split; [|eexists; vm_compute; reflexivity].
  intros float_size grants id b Hb.
  apply TransformerBlock_init_Some in Hb as (a & f & _ & Hf & _ & ->).
  apply FeedForward_init_Some in Hf as (h & Hh & _ & _ & ->).
  assert (ffn_hidden_dim (4 * dim default_args) (multiple_of default_args)
            (ffn_dim_multiplier default_args) = Some 11008) as Hc
    by (vm_compute; reflexivity).
  rewrite Hc in Hh. by injection Hh as <-.
Qed.

Import Demo.

Lemma construction_ignores_divisibility_witness :
  dim small_args `mod` n_heads small_args = 1
  ∧ 0 < n_heads small_args
  ∧ ffn_hidden_dim (4 * dim small_args) (multiple_of small_args)
      (ffn_dim_multiplier small_args) = Some 28
  ∧ Forall (λ t, alloc roomy t.1 t.2 = Some t.2)
      (tensors half_size small_args 28)
  ∧ ∃ m, Transformer_init half_size roomy small_args = Some m
      ∧ length (layers m) = Z.to_nat (n_layers small_args).
Proof.
  assert (0 < n_heads small_args) as H1 by reflexivity.
  assert (ffn_hidden_dim (4 * dim small_args) (multiple_of small_args)
            (ffn_dim_multiplier small_args) = Some 28) as H2
    by (vm_compute; reflexivity).
  assert (Forall (λ t, alloc roomy t.1 t.2 = Some t.2)
            (tensors half_size small_args 28))
    as H3 by (repeat constructor).
  split; [reflexivity|]. split; [exact H1|]. split; [exact H2|].
  split; [exact H3|].
  destruct (construction_ignores_divisibility half_size roomy small_args 28
              H1
              (λ _, H2) H3) as (m & Hm & Hl & _).
  exists m. split; [exact Hm|exact Hl].
Defined.

(** C6, as stated, fails: in half precision, on a machine with room for
    tensors of 2^32 bytes, the configuration with dimension 10 and 3 heads is
    built. *)
Lemma indivisible_heads_are_built :
  ¬ rejects_indivisible_heads half_size roomy.
Proof.
  intros H. specialize (H small_args).
  assert (is_Some (Transformer_init half_size roomy small_args))
    as [m Hm].
  { eexists. vm_compute. reflexivity. }
  rewrite H in Hm; [discriminate| |]; vm_compute; discriminate.
Qed.

Lemma ffn_hidden_dim_rounds_up_witness :
  0 < 4
  ∧ ffn_hidden_dim 40 4 None = Some 28
  ∧ (∃ h0, reduce_hidden 40 None = Some h0 ∧ 28 = ceil_div h0 4 * 4)
  ∧ ∃ b, TransformerBlock_init half_size roomy 0 default_args = Some b
      ∧ w1 (feed_forward b) = [11008; 4096].
Proof.
  assert (0 < 4) as Hm by lia.
  assert (ffn_hidden_dim 40 4 None = Some 28) as Hf
    by (vm_compute; reflexivity).
  split; [exact Hm|]. split; [exact Hf|]. split.
  - destruct (proj1 ffn_hidden_dim_rounds_up 40 4 None 28 Hm Hf)
      as (h0 & H0 & Hh & _).
    exists h0. split; [exact H0|exact Hh].
  - destruct (TransformerBlock_init half_size roomy 0 default_args)
      as [b|] eqn:Hb;
      [|by vm_compute in Hb].
    exists b. split; [done|].
    destruct ffn_hidden_dim_rounds_up
      as (_ & _ & _ & _ & _ & _ & _ & _ & _ & Hw & _).
    exact (proj1 (Hw half_size roomy 0 b Hb)).
Defined.

End BuildFacts.

Module RotaryShapeFacts.

Import RotaryShape.
Local Open Scope nat_scope.

(** C8: applying the rotary encoding returns a result only if the table
    is two-dimensional with its position dimension equal to the query's
    sequence dimension and its angle dimension equal to the query's
    trailing dimension of complex pairs; with either of them different it
    raises. *)
Theorem rotary_shape_contract (xq xk freqs_cis : list nat) :
  (∀ r, apply_rotary_emb xq xk freqs_cis = Some r →
     ∃ xq_ seqlen pairs, complex_view xq = Some xq_
       ∧ xq_ !! 1 = Some seqlen ∧ last xq_ = Some pairs
       ∧ freqs_cis = [seqlen; pairs])
  ∧ (∀ xq_ seqlen pairs, complex_view xq = Some xq_ →
       xq_ !! 1 = Some seqlen → last xq_ = Some pairs →
       freqs_cis ≠ [seqlen; pairs] →
       apply_rotary_emb xq xk freqs_cis = None)
  ∧ (∀ a b c d, xq = [a; b; c; d] → xk = xq →
       0 < a → 0 < b → 0 < c → Nat.even d = true →
       freqs_cis = [b; d / 2] →
       apply_rotary_emb xq xk freqs_cis = Some (xq, xk)).
Proof.
  assert (∀ r, apply_rotary_emb xq xk freqs_cis = Some r →
     ∃ xq_ seqlen pairs, complex_view xq = Some xq_
       ∧ xq_ !! 1 = Some seqlen ∧ last xq_ = Some pairs
       ∧ freqs_cis = [seqlen; pairs]) as Hsome.
  { intros r. unfold apply_rotary_emb.
    destruct (complex_view xq) as [xq_|]; simpl; [|discriminate].
    destruct (complex_view xk) as [xk_|]; simpl; [|discriminate].
    destruct (reshape_for_broadcast freqs_cis xq_) as [f|] eqn:Hf; simpl;
      [|discriminate].
    intros _. unfold reshape_for_broadcast in Hf.
    repeat case_guard; simplify_option_eq. eauto 10. }
  split; [done|]. split.
  - intros xq_ seqlen pairs Hv H1 Hl Hne.
    destruct (apply_rotary_emb xq xk freqs_cis) as [r|] eqn:E; [|done].
    destruct (Hsome r eq_refl) as (xq_' & s & p & Hv' & H1' & Hl' & ->).
    congruence.
  - intros a b c d -> -> Ha Hb Hc Hd ->.
    assert (complex_view [a; b; c; d] = Some [a; b; c; d / 2]) as Hv.
    { unfold complex_view. simpl. rewrite Hd. simpl.
      destruct (Nat.eqb_spec (a * (b * (c * 1))) 0) as [E|_]; [nia|done]. }
    assert (∀ h, reshape_for_broadcast [b; h] [a; b; c; h]
                 = Some [1; b; 1; h]) as Hr.
    { intros h. unfold reshape_for_broadcast. simpl.
      case_guard; [|lia]. case_guard; [done|congruence]. }
    assert (∀ h, broadcast [a; b; c; h] [1; b; 1; h]
                 = Some [a; b; c; h]) as Hb'.
    { intros h. unfold broadcast. simpl. rewrite !Nat.eqb_refl. simpl.
      destruct (Nat.eqb_spec c 1) as [->|_]; simpl.
      - destruct (Nat.eqb_spec a 1) as [->|_]; done.
      - destruct (Nat.eqb_spec a 1) as [->|_]; done. }
    assert (flatten 3 [a; b; c; d / 2; 2] = Some [a; b; c; d]) as Hfl.
    { apply Nat.even_spec in Hd as [k ->].
      rewrite (Nat.mul_comm 2 k), Nat.div_mul by done.
      unfold flatten. simpl. repeat f_equal; lia. }
    set (h := d / 2) in *. clearbody h.
    unfold apply_rotary_emb. rewrite Hv. simpl. rewrite Hr. simpl.
    rewrite Hb'. cbn -[flatten]. by rewrite Hfl.
Qed.

Lemma rotary_shape_contract_witness :
  RotaryShape.apply_rotary_emb [2; 3; 4; 8] [2; 3; 4; 8] [3; 4]
  = Some ([2; 3; 4; 8], [2; 3; 4; 8])
  ∧ RotaryShape.apply_rotary_emb [2; 3; 4; 8] [2; 3; 4; 8] [4; 4] = None
  ∧ ∃ xq_ seqlen pairs, complex_view [2; 3; 4; 8] = Some xq_
      ∧ xq_ !! 1 = Some seqlen ∧ last xq_ = Some pairs
      ∧ [3; 4] = [seqlen; pairs].
Proof.
  pose proof (rotary_shape_contract [2; 3; 4; 8] [2; 3; 4; 8] [3; 4])
    as (Hsome & _ & _).
  pose proof (rotary_shape_contract [2; 3; 4; 8] [2; 3; 4; 8] [4; 4])
    as (_ & Hnone & _).
  split; [reflexivity|]. split.
  - apply (Hnone [2; 3; 4; 4] 3 4); [reflexivity..|discriminate].
  - apply (Hsome ([2; 3; 4; 8], [2; 3; 4; 8])). reflexivity.
Defined.

End RotaryShapeFacts.

Module NumericFacts.

Import Reals Lra.
Import Numeric.
Local Open Scope R_scope.

(** *** Sums with a vanishing tail *)

Lemma sum_app (a b : vec) : sum (a ++ b) = sum a + sum b.
Proof. induction a as [|x a IH]; simpl; [lra|]. rewrite IH. lra. Qed.

Lemma sum_zeros (l : vec) : (∀ c x, l !! c = Some x → x = 0) → sum l = 0.
Proof.
  induction l as [|y l IH]; intros H; simpl; [done|].
  rewrite (H 0%nat y eq_refl), IH; [lra|].
  intros c x Hc. by apply (H (S c)).
Qed.

Lemma sum_take_zeros (l : vec) (n : nat) :
  (∀ c x, (n <= c)%nat → l !! c = Some x → x = 0) →
  sum l = sum (take n l).
Proof.
  intros H. rewrite <- (take_drop n l) at 1. rewrite sum_app.
  rewrite (sum_zeros (drop n l)); [lra|].
  intros c x Hc. rewrite lookup_drop in Hc. eapply H; [|done]. lia.
Qed.

Lemma sum_agree (l l' : vec) (n : nat) :
  (∀ c x, (n <= c)%nat → l !! c = Some x → x = 0) →
  (∀ c x, (n <= c)%nat → l' !! c = Some x → x = 0) →
  (∀ c, (c < n)%nat → l !! c = l' !! c) →
  sum l = sum l'.
Proof.
  intros H H' Heq.
  rewrite (sum_take_zeros l n H), (sum_take_zeros l' n H').
  f_equal. apply list_eq. intros c.
  destruct (decide (c < n)%nat).
  - rewrite !lookup_take_lt by done. auto.
  - rewrite !lookup_take_ge by lia. done.
Qed.

(** *** The mask *)

Lemma causal_mask_row (L : nat) (M : list (list score)) (i : nat)
    (mrow : list score) :
  causal_mask L = Some M → M !! i = Some mrow →
  ∀ j x, mrow !! j = Some x →
    x = if (i <? j)%nat then NegInf else Fin 0.
Proof.
  unfold causal_mask. destruct (1 <? L)%nat; [|discriminate].
  intros [= <-] Hrow j x Hx. unfold hstack, triu, full in Hrow.
  apply lookup_zip_with_Some in Hrow as (z & r & -> & Hz & Hr).
  apply lookup_replicate in Hz as [-> _].
  rewrite list_lookup_imap in Hr.
  destruct (replicate L (replicate L NegInf) !! i) as [r0|] eqn:Hr0;
    simpl in Hr; [|discriminate].
  apply lookup_replicate in Hr0 as [-> _]. injection Hr as <-.
  simpl in Hx. rewrite list_lookup_imap in Hx.
  destruct (replicate L NegInf !! j) as [y|] eqn:Hy; simpl in Hx;
    [|discriminate].
  apply lookup_replicate in Hy as [-> _]. injection Hx as <-.
  unfold Nat.ltb. by rewrite Nat.add_1_r.
Qed.

Lemma causal_mask_entry (L : nat) (i j : nat) :
  (1 < L)%nat → (i < L)%nat → (j < L)%nat →
  ∃ M mrow, causal_mask L = Some M ∧ M !! i = Some mrow
    ∧ mrow !! j = Some (if (i <? j)%nat then NegInf else Fin 0).
Proof.
  intros HL Hi Hj. unfold causal_mask.
  destruct (Nat.ltb_spec 1 L); [|lia].
  eexists _, _. split; [done|]. unfold hstack, triu, full.
  split.
  - rewrite lookup_zip_with, lookup_replicate_2 by done. simpl.
    rewrite list_lookup_imap, lookup_replicate_2 by done. done.
  - simpl. rewrite list_lookup_imap, lookup_replicate_2 by done. simpl.
    unfold Nat.ltb. by rewrite Nat.add_1_r.
Qed.

(** *** Attention, one query row at a time *)

Lemma head_attention_row (hd : nat) (mask : option (list (list score)))
    (xq xk xv : list vec) (j : nat) :
  head_attention hd mask xq xk xv !! j
  = match mask with
    | Some M =>
        qj ← xq !! j; mrow ← M !! j;
        Some (attention_row hd (Some mrow) qj xk xv)
    | None => qj ← xq !! j; Some (attention_row hd None qj xk xv)
    end.
Proof.
  unfold head_attention, matmul, matmul_t, attention_row.
  rewrite list_lookup_fmap. destruct mask as [M|].
  - rewrite list_lookup_fmap, lookup_zip_with, !list_lookup_fmap.
    destruct (xq !! j) as [qj|]; simpl; [|done].
    destruct (M !! j) as [mrow|]; simpl; [|done].
    by rewrite <- list_fmap_compose.
  - rewrite !list_lookup_fmap.
    destruct (xq !! j) as [qj|]; simpl; [|done].
    by rewrite <- list_fmap_compose.
Qed.

(** With a mask row that is negative infinity beyond column [j], the
    softmax weights beyond column [j] are zero. *)
Lemma softmax_masked_tail (s mrow : list score) (j c : nat) (x : R) :
  (∀ c y, (j < c)%nat → mrow !! c = Some y → y = NegInf) →
  (j < c)%nat →
  softmax (zip_with score_add s mrow) !! c = Some x → x = 0.
Proof.
  intros Hm Hc. unfold softmax. rewrite !list_lookup_fmap, lookup_zip_with.
  destruct (s !! c) as [sc|]; simpl; [|discriminate].
  destruct (mrow !! c) as [y|] eqn:Hy; simpl; [|discriminate].
  rewrite (Hm c y Hc Hy). intros [= <-].
  destruct sc; simpl; unfold Rdiv; apply Rmult_0_l.
Qed.

(** The output row of a masked query depends on the keys and values up
    to its own position only. *)
Lemma attention_row_prefix (hd : nat) (mrow : list score) (qj : vec)
    (xk xv xk' xv' : list vec) (j : nat) :
  (∀ c y, (j < c)%nat → mrow !! c = Some y → y = NegInf) →
  (∀ c, (c <= j)%nat → xk !! c = xk' !! c) →
  (∀ c, (c <= j)%nat → xv !! c = xv' !! c) →
  attention_row hd (Some mrow) qj xk xv
  = attention_row hd (Some mrow) qj xk' xv'.
Proof.
  intros Hm Hk Hv. unfold attention_row.
  set (g := λ kj : vec, Fin (dot qj kj / sqrt (INR hd))).
  set (s := zip_with score_add (map g xk) mrow).
  set (s' := zip_with score_add (map g xk') mrow).
  assert (∀ c, (c <= j)%nat → s !! c = s' !! c) as Hs.
  { intros c Hc. unfold s, s'.
    rewrite !lookup_zip_with, !list_lookup_fmap. by rewrite Hk. }
  assert (∀ c x, (S j <= c)%nat →
            map score_exp s !! c = Some x → x = 0) as Hz.
  { intros c x Hc. unfold s.
    rewrite list_lookup_fmap, lookup_zip_with, list_lookup_fmap.
    destruct (xk !! c) as [kc|]; simpl; [|discriminate].
    destruct (mrow !! c) as [y|] eqn:Hy; simpl; [|discriminate].
    rewrite (Hm c y) by (done || lia). by intros [= <-]. }
  assert (∀ c x, (S j <= c)%nat →
            map score_exp s' !! c = Some x → x = 0) as Hz'.
  { intros c x Hc. unfold s'.
    rewrite list_lookup_fmap, lookup_zip_with, list_lookup_fmap.
    destruct (xk' !! c) as [kc|]; simpl; [|discriminate].
    destruct (mrow !! c) as [y|] eqn:Hy; simpl; [|discriminate].
    rewrite (Hm c y) by (done || lia). by intros [= <-]. }
  assert (sum (map score_exp s) = sum (map score_exp s')) as Hsum.
  { apply (sum_agree _ _ (S j)); [done..|].
    intros c Hc. rewrite !list_lookup_fmap. rewrite Hs by lia. done. }
  assert (∀ c, (c <= j)%nat → softmax s !! c = softmax s' !! c) as Hw.
  { intros c Hc. unfold softmax.
    rewrite !list_lookup_fmap, Hs, Hsum by done. done. }
  apply map_ext. intros d. apply (sum_agree _ _ (S j)).
  - intros c x Hc. rewrite lookup_zip_with.
    destruct (softmax s !! c) as [w|] eqn:Hwc; simpl; [|discriminate].
    destruct (xv !! c) as [vc|]; simpl; [|discriminate].
    rewrite (softmax_masked_tail _ _ j c w Hm) by (done || lia).
    intros [= <-]. apply Rmult_0_l.
  - intros c x Hc. rewrite lookup_zip_with.
    destruct (softmax s' !! c) as [w|] eqn:Hwc; simpl; [|discriminate].
    destruct (xv' !! c) as [vc|]; simpl; [|discriminate].
    rewrite (softmax_masked_tail _ _ j c w Hm) by (done || lia).
    intros [= <-]. apply Rmult_0_l.
  - intros c Hc. rewrite !lookup_zip_with.
    rewrite Hw, Hv by lia. done.
Qed.

(** *** Sequences that agree on a prefix *)






(** *** The layers *)

Lemma transpose_lookup (n : nat) (t : list (list vec)) (h : nat) :
  transpose n t !! h
  = if decide (h < n)%nat then Some (map (λ row, default [] (row !! h)) t)
    else None.
Proof.
  unfold transpose. rewrite list_lookup_fmap.
  destruct (decide (h < n)%nat).
  - by rewrite lookup_seq_lt.
  - by rewrite lookup_seq_ge by lia.
Qed.

Lemma Attention_values_length a x fr mask :
  length (Attention_values a x fr mask) = length x.
Proof.
  unfold Attention_values, apply_rotary_emb, transpose.
  by rewrite !length_map, length_seq.
Qed.


Lemma TransformerBlock_values_length b x fr mask :
  length (TransformerBlock_values b x fr mask) = length x.
Proof.
  unfold TransformerBlock_values, add.
  rewrite !length_zip_with, !length_map, !length_zip_with,
    Attention_values_length, length_map.
  lia.
Qed.




(** *** The forward passes return the values *)

Lemma Linear_call_Some (W x out : list vec) :
  Linear_call W x = Some out → out = map (linear W) x.
Proof. unfold Linear_call. case_guard; [|done]. by intros [= <-]. Qed.

Lemma RMSNorm_call_Some (n : RMSNorm) (x out : list vec) :
  RMSNorm_call n x = Some out →
  out = map (RMSNorm_forward n) x
  ∧ Forall (λ xi : vec, length xi = length (weight n)) x.
Proof. unfold RMSNorm_call. case_guard; [|done]. by intros [= <-]. Qed.

Lemma view_call_Some (nh hd : nat) (t : list vec) (out : list (list vec)) :
  view_call nh hd t = Some out → out = view_heads nh hd t.
Proof. unfold view_call. case_guard; [|done]. by intros [= <-]. Qed.

Lemma apply_rotary_emb_call_Some (nh hd : nat) (xq xk : list (list vec))
    (fr : list (list complex)) (out : list (list vec) * list (list vec)) :
  apply_rotary_emb_call nh hd xq xk fr = Some out →
  out = apply_rotary_emb xq xk fr.
Proof.
  unfold apply_rotary_emb_call. intros H.
  apply bind_Some in H as (s & _ & H).
  apply bind_Some in H as (r & _ & H). by injection H as <-.
Qed.

Lemma add_call_Some (a b out : list vec) :
  add_call a b = Some out →
  out = add a b ∧ Forall2 (λ r r' : vec, length r = length r') a b.
Proof. unfold add_call. case_guard; [|done]. by intros [= <-]. Qed.

Lemma Attention_forward_Some a x fr mask (out : list vec) :
  Attention_forward a x fr mask = Some out →
  out = Attention_values a x fr mask.
Proof.
  unfold Attention_forward, Attention_values. intros H.
  apply bind_Some in H as (xq & Hx & H).
  apply Linear_call_Some in Hx as ->.
  apply bind_Some in H as (xk & Hx & H).
  apply Linear_call_Some in Hx as ->.
  apply bind_Some in H as (xv & Hx & H).
  apply Linear_call_Some in Hx as ->.
  apply bind_Some in H as (xq & Hx & H).
  apply view_call_Some in Hx as ->.
  apply bind_Some in H as (xk & Hx & H).
  apply view_call_Some in Hx as ->.
  apply bind_Some in H as (xv & Hx & H).
  apply view_call_Some in Hx as ->.
  apply bind_Some in H as ([xq' xk'] & Hx & H).
  apply apply_rotary_emb_call_Some in Hx as Hr.
  rewrite <- Hr.
  apply bind_Some in H as (u & _ & H).
  by apply Linear_call_Some in H.
Qed.

Lemma FeedForward_forward_Some f (x out : list vec) :
  FeedForward_forward f x = Some out →
  out = map (FeedForward_values f) x.
Proof.
  unfold FeedForward_forward. intros H.
  apply bind_Some in H as (a & Hx & H).
  apply Linear_call_Some in Hx as ->.
  apply bind_Some in H as (g & Hx & H).
  apply Linear_call_Some in Hx as ->.
  apply bind_Some in H as (u & _ & H).
  apply Linear_call_Some in H as ->.
  apply list_eq. intros i.
  rewrite !list_lookup_fmap, lookup_zip_with, !list_lookup_fmap.
  by destruct (x !! i).
Qed.

Lemma TransformerBlock_forward_Some b x fr mask (out : list vec) :
  TransformerBlock_forward b x fr mask = Some out →
  out = TransformerBlock_values b x fr mask.
Proof.
  unfold TransformerBlock_forward, TransformerBlock_values. intros H.
  apply bind_Some in H as (n & Hx & H).
  apply RMSNorm_call_Some in Hx as [-> _].
  apply bind_Some in H as (att & Hx & H).
  apply Attention_forward_Some in Hx as ->.
  apply bind_Some in H as (h & Hx & H).
  apply add_call_Some in Hx as [-> _].
  apply bind_Some in H as (n & Hx & H).
  apply RMSNorm_call_Some in Hx as [-> _].
  apply bind_Some in H as (ff & Hx & H).
  apply FeedForward_forward_Some in Hx as ->.
  apply add_call_Some in H as [-> _]. by rewrite <- list_fmap_compose.
Qed.

Lemma layers_None (ls : list TransformerBlock) fr mask :
  foldl (λ h layer, h ← h; TransformerBlock_forward layer h fr mask)
    None ls = None.
Proof. by induction ls. Qed.

Lemma layers_Some (ls : list TransformerBlock) fr mask :
  ∀ x out : list vec,
    foldl (λ h layer, h ← h; TransformerBlock_forward layer h fr mask)
      (Some x) ls = Some out →
    out = foldl (λ h layer, TransformerBlock_values layer h fr mask) x ls.
Proof.
  induction ls as [|b ls IH]; intros x out; simpl; [by intros [= <-]|].
  destruct (TransformerBlock_forward b x fr mask) as [h|] eqn:Hb.
  - apply TransformerBlock_forward_Some in Hb as ->. apply IH.
  - by rewrite layers_None.
Qed.

Lemma embedding_Some (table : list vec) (tok : Z) (v : vec) :
  embedding table tok = Some v ↔
    (0 <= tok < Z.of_nat (length table))%Z ∧ table !! Z.to_nat tok = Some v.
Proof.
  unfold embedding. split.
  - case_guard; [|done]. simpl. intros Hv. split; [|done].
    apply lookup_lt_Some in Hv. lia.
  - intros [Hr Hv]. case_guard; [done|lia].
Qed.

Lemma embeddings_Some (table : list vec) (toks : list Z) (h : list vec) :
  mapM (embedding table) toks = Some h →
  h = map (λ tok, default [] (table !! Z.to_nat tok)) toks
  ∧ Forall (λ tok, 0 <= tok < Z.of_nat (length table))%Z toks.
Proof.
  intros H. apply mapM_Some in H.
  induction H as [|tok v toks h [Hr Hv]%embedding_Some _ [-> IH]];
    [done|].
  split; [by simpl; rewrite Hv|by constructor].
Qed.

Lemma forward_row_Some (m : Transformer) (toks : list Z) (out : list vec) :
  forward_row m toks = Some out → out = forward_values m toks.
Proof.
  unfold forward_row, forward_values. intros H.
  apply bind_Some in H as (h & Hx & H).
  apply embeddings_Some in Hx as [-> _].
  apply bind_Some in H as (h & Hx & H).
  apply layers_Some in Hx as ->.
  apply bind_Some in H as (n & Hx & H).
  apply RMSNorm_call_Some in Hx as [-> _].
  by apply Linear_call_Some in H.
Qed.

Lemma forward_rows_Some (m : Transformer) (toks : list (list Z))
    (out : list (list vec)) :
  mapM (forward_row m) toks = Some out →
  out = map (forward_values m) toks.
Proof.
  intros H. apply mapM_Some in H.
  induction H as [|t o toks out Ho%forward_row_Some _ IH]; [done|].
  simpl. by rewrite Ho, IH.
Qed.

Lemma Transformer_forward_Some (m : Transformer) (toks : list (list Z))
    (out : list (list vec)) :
  Transformer_forward m toks = Some out →
  out = map (forward_values m) toks
  ∧ Forall2 (λ t o, forward_row m t = Some o) toks out.
Proof.
  unfold Transformer_forward. destruct toks as [|t toks].
  { destruct (layers m); [|done]. by intros [= <-]. }
  case_guard; [|done]. cbn [mbind option_bind]. intros Hm.
  split; [by apply (forward_rows_Some m (t :: toks))|by apply mapM_Some].
Qed.


(** *** Rotary encoding at position zero *)

Lemma arange2_length (n : nat) : length (arange2 n) = ((n + 1) / 2)%nat.
Proof. unfold arange2. by rewrite length_map, length_seq. Qed.





Import NumericDemo.



End NumericFacts.

Module FloatAttentionFacts.

Import FloatAttention.


End FloatAttentionFacts.

Module GenerateMoreFacts.

Import Generate GenerateInv GenerateFacts.

Section WithModel.

Context {logit : Type}.
Variable logit_ltb : logit → logit → bool.
Variable forward : list (list Z) → option (list (list (list logit))).
Variable tokenizer : Tokenizer.
Variable model_args : ModelArgs.

Abbreviation pad := (pad_id tokenizer).
Abbreviation eos := (eos_id tokenizer).
Abbreviation loop_body := (loop_body logit_ltb forward tokenizer).
Abbreviation loop := (loop logit_ltb forward tokenizer).
Abbreviation at_head := (at_head logit_ltb forward tokenizer).
Abbreviation started := (started tokenizer model_args).
Abbreviation text_mask := (text_mask tokenizer).
Abbreviation generate_state :=
  (generate_state logit_ltb forward tokenizer model_args).
Abbreviation generate := (generate logit_ltb forward tokenizer model_args).
Abbreviation cap := (cap model_args).
Abbreviation total_len := (total_len model_args).

(** *** Calls that raise *)

Lemma generate_None_of_state prompt_toks max_gen :
  generate_state prompt_toks max_gen = None →
  generate prompt_toks max_gen = None.
Proof. unfold Generate.generate. by intros ->. Qed.

(** X1: [generate] raises on an empty batch, and on a batch holding a
    prompt longer than [max_seq_len] (a one-token prompt apart, which
    broadcasts into an empty row). *)
Theorem generate_rejects_empty_batch_and_long_prompts max_gen :
  generate [] max_gen = None
  ∧ ∀ prompt_toks t,
      t ∈ prompt_toks → max_seq_len model_args < Z.of_nat (length t) →
      length t ≠ 1%nat →
      generate prompt_toks max_gen = None.
Proof.
  split; [done|].
  intros prompt_toks t Ht Hlong H1. apply generate_None_of_state.
  unfold Generate.generate_state.
  destruct (Py.min_of _) as [mn|]; simpl; [|done].
  destruct (Generate.total_len _ _ _) as [ttl|] eqn:Httl; simpl; [|done].
  assert (ttl <= max_seq_len model_args) as Hle.
  { unfold Generate.total_len in Httl.
    destruct (Py.max_of _); simpl in Httl; [|done].
    injection Httl as <-. lia. }
  assert (init_buffer tokenizer ttl prompt_toks = None) as ->; [|done].
  unfold init_buffer. case_match; [|done].
  apply mapM_None_2, Exists_exists. exists t. split; [done|].
  unfold prompt_row.
  destruct (Z.leb_spec (Z.of_nat (length t)) ttl); [lia|].
  destruct (Nat.eqb_spec (length t) 1); [done|].
  by rewrite andb_false_r.
Qed.

(** X2: when the model (or the argmax over its logits) raises at a
    position the loop reaches, the whole call raises: no partial result is
    returned. *)
Theorem model_failure_aborts_generate prompt_toks max_gen min_tok_len
    ttl_len buf cur_pos st :
  started prompt_toks max_gen min_tok_len ttl_len buf →
  at_head (text_mask buf) (Z.to_nat min_tok_len) (init_state buf) cur_pos st →
  Z.of_nat cur_pos < ttl_len →
  loop_body (text_mask buf) cur_pos st = None →
  generate prompt_toks max_gen = None.
Proof.
  intros Hs Hh Hp Hbody. apply generate_None_of_state.
  destruct (started_facts _ _ _ _ _ _ _ Hs) as (Hmin & _).
  rewrite (generate_state_started _ _ _ _ _ _ _ _ _ Hs). unfold range.
  rewrite (loop_resume _ _ _ _ _ _ _ _ _ Hh) by lia.
  replace (Z.to_nat min_tok_len + Z.to_nat (ttl_len - min_tok_len) - cur_pos)%nat
    with (S (Z.to_nat min_tok_len + Z.to_nat (ttl_len - min_tok_len)
             - S cur_pos)) by lia.
  simpl. by rewrite Hbody.
Qed.


(** *** An empty prompt *)

Lemma min_of_zero (l : list Z) :
  0 ∈ l → (∀ x, x ∈ l → 0 <= x) → Py.min_of l = Some 0.
Proof.
  intros H0 Hnn. destruct l as [|a r]; [by apply elem_of_nil in H0|].
  destruct (Py.min_of (a :: r)) as [m|] eqn:Hm; [|done].
  pose proof (min_of_le _ _ _ Hm H0). pose proof (min_of_in _ _ Hm) as Hin.
  apply Hnn in Hin. f_equal. lia.
Qed.

Lemma next_candidates_empty_rows (logits : list (list (list logit))) :
  logits ≠ [] → Forall (λ l, l = []) logits →
  next_candidates logit_ltb logits = None.
Proof.
  intros Hne Hall. unfold next_candidates.
  destruct logits as [|l r]; [done|].
  apply Forall_cons in Hall as [-> _]. done.
Qed.

(** X3: with a model that returns one logits row per input position, a
    batch that holds an empty prompt makes [generate] raise (indexing the
    last position of an empty sequence), whenever the context window and
    the generation cap are positive. *)
Theorem empty_prompt_raises prompt_toks max_gen :
  keeps_positions forward →
  [] ∈ prompt_toks →
  0 < max_seq_len model_args → 0 < cap max_gen →
  generate prompt_toks max_gen = None.
Proof.
  intros Hkeep Hin Hseq Hcap. apply generate_None_of_state.
  unfold Generate.generate_state.
  rewrite (min_of_zero (lens prompt_toks)); cycle 1.
  { apply list_elem_of_fmap. by exists []. }
  { intros x (t & -> & _)%list_elem_of_fmap. lia. }
  simpl.
  destruct (Generate.total_len _ _ _) as [ttl|] eqn:Httl; simpl; [|done].
  assert (0 < ttl) as Hpos.
  { unfold Generate.total_len in Httl.
    destruct (Py.max_of _) as [mx|] eqn:Hmx; simpl in Httl; [|done].
    injection Httl as <-.
    assert (0 <= mx); [|lia].
    apply max_of_in in Hmx. apply list_elem_of_fmap in Hmx as (t & -> & _).
    lia. }
  destruct (Generate.init_buffer _ _ _) as [buf|] eqn:Hbuf; simpl; [|done].
  assert (buf ≠ []) as Hne.
  { apply init_buffer_rows in Hbuf as [_ HF].
    intros ->. apply Forall2_nil_inv_r in HF. subst.
    by apply elem_of_nil in Hin. }
  unfold range. replace (Z.to_nat (ttl - 0)) with (S (Z.to_nat (ttl - 1)))
    by lia.
  change (Z.to_nat 0) with 0%nat. simpl.
  assert (loop_body (text_mask buf) 0 (init_state buf) = None) as ->; [|done].
  unfold Generate.loop_body. simpl.
  destruct (forward _) as [logits|] eqn:Hf; simpl; [|done].
  apply Hkeep in Hf.
  rewrite next_candidates_empty_rows; [done| |].
  - intros ->. apply Forall2_nil_inv_r in Hf.
    by destruct buf.
  - apply Forall2_Forall_r with (Q := λ l, l = []) in Hf; [done|].
    apply Forall_forall. intros t (row & -> & _)%list_elem_of_fmap l Hl.
    rewrite length_take in Hl. by apply nil_length_inv in Hl.
Qed.


(** *** What the finished buffer holds *)

Lemma kept_init (buf : list (list Z)) (p0 : nat) :
  prompt_kept pad p0 buf (init_state buf).
Proof. apply Forall_Forall2_diag, Forall_forall. done. Qed.

Lemma kept_step (buf : list (list Z)) (p0 p : nat) (st st' : gen_state) :
  inv buf p st → prompt_kept pad p0 buf st → (p0 <= p)%nat →
  loop_body (text_mask buf) p st = Some st' →
  prompt_kept pad p0 buf st'.
Proof.
  intros Hinv Hk Hle Hb.
  destruct (loop_body_rows _ _ _ _ _ _ _ Hinv Hb)
    as (cands & _ & Hlc & Hlt & _ & Hrow).
  destruct Hinv as [Hle_flags Hrows].
  apply Forall2_same_length_lookup_2; [done|].
  intros i row' row0 Hi' Hi0.
  destruct (Forall2_lookup_r _ _ _ _ _ Hrows Hi0) as (row & Hi & Hlen & _).
  destruct (lookup_lt_is_Some_2 (eos_reached st) i) as [e He].
  { rewrite Hle_flags. by apply lookup_lt_Some in Hi0. }
  destruct (lookup_lt_is_Some_2 cands i) as [c Hc].
  { rewrite Hlc. by apply lookup_lt_Some in Hi0. }
  destruct (Hrow _ _ _ _ _ Hi0 Hi He Hc) as (x0 & Hx0 & Hnew & _).
  rewrite Hnew in Hi'. injection Hi' as <-.
  pose proof (Forall2_lookup_lr _ _ _ _ _ _ Hk Hi Hi0) as Hold.
  intros q Hq. destruct (decide (q = p)) as [->|Hne].
  - destruct Hq as [Hq|(y & Hy & Hpad)]; [lia|].
    rewrite Hx0 in Hy. injection Hy as ->.
    rewrite list_lookup_insert_eq.
    + apply Z.eqb_neq in Hpad. by rewrite Hpad.
    + rewrite Hlen. by apply lookup_lt_Some in Hx0.
  - rewrite list_lookup_insert_ne by done. by apply Hold.
Qed.

Lemma at_head_kept (buf : list (list Z)) (p0 p : nat) (st : gen_state) :
  at_head (text_mask buf) p0 (init_state buf) p st →
  prompt_kept pad p0 buf st.
Proof.
  induction 1 as [|p st st' Hh IH Hb _]; [apply kept_init|].
  eapply kept_step; [|exact IH| |exact Hb].
  - eapply at_head_inv; [apply inv_init|exact Hh].
  - eapply at_head_ge, Hh.
Qed.

Lemma generate_state_kept prompt_toks max_gen min_tok_len ttl_len buf fin :
  started prompt_toks max_gen min_tok_len ttl_len buf →
  generate_state prompt_toks max_gen = Some fin →
  prompt_kept pad (Z.to_nat min_tok_len) buf fin.
Proof.
  intros Hs Hg. rewrite (generate_state_started _ _ _ _ _ _ _ _ _ Hs) in Hg.
  apply loop_result in Hg as [[Hh _]|(q & sq & Hh & _ & Hb & _)].
  - by apply at_head_kept in Hh.
  - eapply kept_step; [|eapply at_head_kept, Hh| |exact Hb].
    + eapply at_head_inv; [apply inv_init|exact Hh].
    + eapply at_head_ge, Hh.
Qed.

(** X4: whatever the model answers, the buffer [generate] ends with still
    holds, in every row, each prompt token that differs from the pad id
    and every column before the shortest prompt length; a prompt free of
    the pad id is therefore found unchanged at the head of its row. *)
Theorem finished_buffer_keeps_prompts prompt_toks max_gen min_tok_len
    ttl_len buf fin i t :
  started prompt_toks max_gen min_tok_len ttl_len buf →
  generate_state prompt_toks max_gen = Some fin →
  prompt_toks !! i = Some t →
  ∃ row, gen_toks fin !! i = Some row
    ∧ length row = Z.to_nat ttl_len
    ∧ (∀ q x, Z.of_nat q < ttl_len → t !! q = Some x →
         x ≠ pad ∨ Z.of_nat q < min_tok_len → row !! q = Some x)
    ∧ (pad ∉ t → Z.of_nat (length t) <= ttl_len →
       take (length t) row = t).
Proof.
  intros Hs Hg Hi.
  pose proof (generate_state_kept _ _ _ _ _ _ Hs Hg) as Hk.
  destruct (generate_state_shape _ _ _ _ _ _ _ _ _ _ Hs Hg)
    as (p & _ & Hrows).
  destruct (started_facts _ _ _ _ _ _ _ Hs) as (Hmin & Httl & Hlen & Hbuf).
  destruct (Forall2_lookup_l _ _ _ _ _ Hbuf Hi) as (row0 & Hi0 & Hrow0).
  destruct (Forall2_lookup_r _ _ _ _ _ Hrows Hi0) as (row & Hrow & Hl & _).
  pose proof (Forall2_lookup_lr _ _ _ _ _ _ Hk Hrow Hi0) as Hkeep.
  assert (∀ q x, Z.of_nat q < ttl_len → t !! q = Some x →
            x ≠ pad ∨ Z.of_nat q < min_tok_len → row !! q = Some x) as Hpos.
  { intros q x Hq Hx Hor.
    assert (row0 !! q = Some x) as Hx0.
    { rewrite (prompt_row_lookup _ _ _ _ _ Hrow0) by lia. by rewrite Hx. }
    rewrite Hkeep; [done|].
    destruct Hor as [Hne|Hlt]; [right; eauto|left; lia]. }
  exists row. split_and!; [done| |done|].
  - rewrite Hl. eapply prompt_row_length; eauto.
  - intros Hpad Hfit. apply list_eq. intros q.
    destruct (decide (q < length t)%nat) as [Hq|Hq].
    + rewrite lookup_take_lt by done.
      destruct (lookup_lt_is_Some_2 t q Hq) as [x Hx]. rewrite Hx.
      apply Hpos; [lia|done|]. left. intros ->.
      apply Hpad. by eapply list_elem_of_lookup_2.
    + rewrite lookup_take_ge by lia. symmetry. apply lookup_ge_None. lia.
Qed.


(** *** The returned rows *)

Lemma out_row_take (c : Z) (t row : list Z) :
  ∃ m, out_row tokenizer c t row = take m (drop (length t) row)
    ∧ (0 <= c → (m <= Z.to_nat c)%nat).
Proof.
  unfold out_row, Py.slice, Py.slice_bound.
  set (len := Z.of_nat (length row)). set (lo := Z.of_nat (length t)).
  destruct (Z.ltb_spec lo 0) as [?|_]; [lia|].
  set (b := if lo + c <? 0 then _ else _).
  assert (drop (Z.to_nat (Z.min lo len)) row = drop (length t) row) as ->.
  { destruct (Z.le_ge_cases lo len).
    - f_equal. lia.
    - rewrite !drop_ge; [done|lia|lia]. }
  assert (0 <= c → b - Z.min lo len <= c) as Hb.
  { intros Hc. unfold b. destruct (Z.ltb_spec (lo + c) 0); lia. }
  destruct (Py.index _ _) as [idx|].
  - rewrite take_take. eexists. split; [done|]. intros Hc.
    specialize (Hb Hc). lia.
  - eexists. split; [done|]. intros Hc. specialize (Hb Hc). lia.
Qed.

(** X5: a returned row never holds more tokens than the generation cap
    allows, and prompt and continuation together never exceed the context
    window [max_seq_len] (a prompt that alone exceeds it apart). *)
Theorem generate_output_length_bounded prompt_toks max_gen out i t res :
  generate prompt_toks max_gen = Some out →
  prompt_toks !! i = Some t → out !! i = Some res →
  Z.of_nat (length res) <= Z.max 0 (cap max_gen)
  ∧ Z.of_nat (length t + length res)
    <= Z.max (Z.of_nat (length t)) (max_seq_len model_args).
Proof.
  intros Hg Hi Ho. unfold Generate.generate in Hg.
  destruct (Generate.generate_state _ _ _ _ _ _) as [fin|] eqn:Hfin;
    simpl in Hg; [|done].
  injection Hg as <-.
  apply lookup_zip_with_Some in Ho as (t' & row & -> & Ht' & Hrow).
  rewrite Hi in Ht'. injection Ht' as <-.
  destruct (generate_state_inv _ _ _ _ _ _ _ Hfin) as (mn & ttl & buf & Hs).
  destruct (generate_state_shape _ _ _ _ _ _ _ _ _ _ Hs Hfin)
    as (p & _ & Hrows).
  destruct (started_facts _ _ _ _ _ _ _ Hs) as (_ & Httl & _ & Hbuf).
  destruct (Forall2_lookup_l _ _ _ _ _ Hbuf Hi) as (row0 & Hi0 & Hrow0).
  pose proof (Forall2_lookup_lr _ _ _ _ _ _ Hrows Hrow Hi0) as [Hl _].
  rewrite (prompt_row_length _ _ _ _ Hrow0) in Hl.
  assert (ttl <= max_seq_len model_args) as Hwin.
  { destruct Hs as (_ & Ht & _). unfold Generate.total_len in Ht.
    destruct (Py.max_of _); simpl in Ht; [|done]. injection Ht as <-. lia. }
  destruct (out_row_take (cap max_gen) t row) as (m & -> & Hm).
  rewrite length_take, length_drop, Hl. split; [|lia].
  destruct (decide (ttl = 0)) as [->|Hne]; [simpl; lia|].
  pose proof (cap_nonneg _ _ _ _ _ _ _ Hs ltac:(lia)) as Hc.
  specialize (Hm Hc). lia.
Qed.

(** *** [argmax] *)

(** X6: for logits under a strict weak order, [argmax] returns a valid
    index whose entry no entry exceeds, and it is the first such index:
    every earlier entry is strictly smaller. *)
Theorem argmax_first_maximal (l : list logit) (c : Z) :
  strict_weak_order logit_ltb →
  argmax logit_ltb l = Some c →
  0 <= c < Z.of_nat (length l)
  ∧ ∃ v, l !! Z.to_nat c = Some v
      ∧ (∀ y, y ∈ l → logit_ltb v y = false)
      ∧ ∀ j y, (j < Z.to_nat c)%nat → l !! j = Some y →
          logit_ltb y v = true.
Proof.
  intros Hswo Ha. destruct l as [|x r]; [done|].
  injection Ha as <-.
  destruct (argmax_from_first logit_ltb (x :: r) Hswo r x 0%nat 1%nat)
    as (v & Hv & Hlt & Hmax & Hfirst); [done|done|lia| |lia|].
  { intros j y Hj Hy. assert (j = 0%nat) as -> by lia.
    injection Hy as <-. by destruct Hswo as [Hirr _]. }
  rewrite Nat2Z.id. split; [lia|]. by exists v.
Qed.


(** *** What the model is shown *)

Lemma at_head_row prompt_toks max_gen min_tok_len ttl_len buf p st i t :
  started prompt_toks max_gen min_tok_len ttl_len buf →
  at_head (text_mask buf) (Z.to_nat min_tok_len) (init_state buf) p st →
  prompt_toks !! i = Some t →
  ∃ row row0, gen_toks st !! i = Some row ∧ buf !! i = Some row0
    ∧ length row = Z.to_nat ttl_len
    ∧ length row0 = Z.to_nat ttl_len
    ∧ (∀ q, (q < Z.to_nat ttl_len)%nat →
         row0 !! q = Some (default pad (t !! q)))
    ∧ ∀ q x, Z.of_nat q < ttl_len → t !! q = Some x →
        x ≠ pad ∨ Z.of_nat q < min_tok_len → row !! q = Some x.
Proof.
  intros Hs Hh Hi.
  pose proof (at_head_kept _ _ _ _ Hh) as Hk.
  pose proof (at_head_inv _ _ _ _ _ _ _ _ (inv_init buf _) Hh)
    as [_ Hrows].
  destruct (started_facts _ _ _ _ _ _ _ Hs) as (Hmin & Httl & Hlen & Hbuf).
  destruct (Forall2_lookup_l _ _ _ _ _ Hbuf Hi) as (row0 & Hi0 & Hrow0).
  destruct (Forall2_lookup_r _ _ _ _ _ Hrows Hi0) as (row & Hrow & Hl & _).
  pose proof (Forall2_lookup_lr _ _ _ _ _ _ Hk Hrow Hi0) as Hkeep.
  pose proof (prompt_row_length _ _ _ _ Hrow0) as Hl0.
  exists row, row0. split_and!; [done|done|congruence|done| |].
  - intros q Hq. by apply (prompt_row_lookup _ _ _ _ _ Hrow0).
  - intros q x Hq Hx Hor.
    assert (row0 !! q = Some x) as Hx0.
    { rewrite (prompt_row_lookup _ _ _ _ _ Hrow0) by lia. by rewrite Hx. }
    rewrite Hkeep; [done|].
    destruct Hor as [Hne|Hlt]; [right; eauto|left; lia].
Qed.

(** X7: at every position the loop reaches, the model is called on a
    rectangular batch: one row per prompt, each of exactly [cur_pos]
    tokens, in which every prompt token that differs from the pad id (and
    every token before the shortest prompt length) stands at its own
    position. *)
Theorem model_input_holds_the_prompts prompt_toks max_gen min_tok_len
    ttl_len buf cur_pos st st' :
  started prompt_toks max_gen min_tok_len ttl_len buf →
  iteration logit_ltb forward tokenizer min_tok_len ttl_len buf cur_pos
    st st' →
  let batch := map (take cur_pos) (gen_toks st) in
  is_Some (forward batch)
  ∧ length batch = length prompt_toks
  ∧ ∀ i t, prompt_toks !! i = Some t →
      ∃ row, batch !! i = Some row
        ∧ length row = cur_pos
        ∧ ∀ q x, (q < cur_pos)%nat → t !! q = Some x →
            x ≠ pad ∨ Z.of_nat q < min_tok_len → row !! q = Some x.
Proof.
  intros Hs (Hh & Hp & Hb) batch. split_and!.
  - unfold Generate.loop_body in Hb. fold batch in Hb.
    destruct (forward batch); [eauto|done].
  - unfold batch. rewrite length_map.
    pose proof (at_head_inv _ _ _ _ _ _ _ _ (inv_init buf _) Hh)
      as [_ Hrows].
    apply Forall2_length in Hrows. rewrite Hrows.
    by destruct (started_facts _ _ _ _ _ _ _ Hs) as (_ & _ & -> & _).
  - intros i t Hi.
    destruct (at_head_row _ _ _ _ _ _ _ _ _ Hs Hh Hi)
      as (row & _ & Hrow & _ & Hl & _ & _ & Hkeep).
    exists (take cur_pos row). unfold batch. split_and!.
    + by rewrite list_lookup_fmap, Hrow.
    + rewrite length_take. lia.
    + intros q x Hq Hx Hor. rewrite lookup_take_lt by done.
      apply Hkeep; [lia|done|done].
Qed.

Section WithSentencePiece.

Variable sp_encode : String.string → list Z.

(** X8: when every prompt comes from [Tokenizer.encode] with [bos=True],
    the loop never calls the model on an empty sequence, and every row it
    passes starts with the begin-of-sequence id. *)
Theorem bos_prompts_head_every_model_input prompt_toks max_gen min_tok_len
    ttl_len buf cur_pos st st' :
  (∀ t, t ∈ prompt_toks →
     ∃ s e, t = Tok.encode sp_encode tokenizer s true e) →
  started prompt_toks max_gen min_tok_len ttl_len buf →
  iteration logit_ltb forward tokenizer min_tok_len ttl_len buf cur_pos
    st st' →
  (1 <= cur_pos)%nat
  ∧ Forall (λ row, head row = Some (bos_id tokenizer))
      (map (take cur_pos) (gen_toks st)).
Proof.
  intros Henc Hs (Hh & Hp & Hb).
  assert (1 <= min_tok_len) as Hmin.
  { destruct Hs as (Hm & _). apply min_of_in in Hm.
    apply list_elem_of_fmap in Hm as (t & -> & Ht).
    destruct (Henc _ Ht) as (s & e & ->). unfold Tok.encode.
    destruct e; simpl; lia. }
  pose proof (at_head_ge _ _ _ _ _ _ _ _ Hh) as Hge.
  split; [lia|]. apply Forall_lookup. intros i r Hr.
  rewrite list_lookup_fmap in Hr.
  destruct (gen_toks st !! i) as [row|] eqn:Hrow; simpl in Hr; [|done].
  injection Hr as <-.
  pose proof (at_head_inv _ _ _ _ _ _ _ _ (inv_init buf _) Hh)
    as [_ Hrows].
  destruct (started_facts _ _ _ _ _ _ _ Hs) as (_ & _ & Hlen & _).
  destruct (lookup_lt_is_Some_2 prompt_toks i) as [t Hi].
  { rewrite <- Hlen, <- (Forall2_length _ _ _ Hrows).
    by apply lookup_lt_Some in Hrow. }
  destruct (at_head_row _ _ _ _ _ _ _ _ _ Hs Hh Hi)
    as (row' & _ & Hrow' & _ & _ & _ & _ & Hkeep).
  rewrite Hrow in Hrow'. injection Hrow' as <-.
  rewrite head_lookup, lookup_take_lt by lia.
  apply Hkeep; [lia| |right; lia].
  destruct (Henc t) as (s & e & ->); [by eapply list_elem_of_lookup_2|].
  unfold Tok.encode. by destruct e.
Qed.

End WithSentencePiece.

(** *** The returned tokens *)

Lemma out_row_no_eos (c : Z) (t row : list Z) :
  eos ∉ out_row tokenizer c t row.
Proof.
  unfold out_row. destruct (Py.index _ _) as [idx|] eqn:Hidx.
  - by apply index_Some in Hidx as [_ ?].
  - by apply index_None.
Qed.

Lemma vocab_init V prompt_toks max_gen min_tok_len ttl_len buf :
  started prompt_toks max_gen min_tok_len ttl_len buf →
  in_vocab_after_prompt V eos prompt_toks (Z.to_nat min_tok_len)
    (init_state buf).
Proof.
  intros Hs i t row Hi Hrow. split.
  - intros q Hq. destruct Hs as (Hm & _).
    assert (min_tok_len <= Z.of_nat (length t)); [|lia].
    eapply min_of_le; [done|]. apply list_elem_of_fmap.
    exists t. split; [done|]. by eapply list_elem_of_lookup_2.
  - simpl. intros Hf. by apply lookup_replicate in Hf as [? _].
Qed.

Lemma vocab_step V prompt_toks max_gen min_tok_len ttl_len buf p st st' :
  vocab_logits V forward →
  (∀ t, t ∈ prompt_toks → pad ∉ t) →
  started prompt_toks max_gen min_tok_len ttl_len buf →
  at_head (text_mask buf) (Z.to_nat min_tok_len) (init_state buf) p st →
  in_vocab_after_prompt V eos prompt_toks p st →
  loop_body (text_mask buf) p st = Some st' →
  in_vocab_after_prompt V eos prompt_toks (S p) st'.
Proof.
  intros HV Hpad Hs Hh IH Hb.
  pose proof (at_head_inv _ _ _ _ _ _ _ _ (inv_init buf _) Hh) as Hinv.
  destruct (loop_body_rows _ _ _ _ _ _ _ Hinv Hb)
    as (cands & Hc & Hlc & Hlt & Hlf & Hrow).
  assert (∀ i c, cands !! i = Some c → 0 <= c < Z.of_nat V) as Hcv.
  { unfold Generate.candidates in Hc.
    destruct (forward _) as [logits|] eqn:Hf; simpl in Hc; [|done].
    apply HV in Hf. apply next_candidates_rows in Hc.
    intros i c Hi.
    destruct (Forall2_lookup_r _ _ _ _ _ Hc Hi) as (l & Hl & v & Hv & Ha).
    apply argmax_bound in Ha.
    rewrite Forall_lookup in Hf. by rewrite (Hf _ _ Hl _ Hv) in Ha. }
  destruct Hinv as [Hflags _].
  intros i t row' Hi Hrow'.
  destruct (at_head_row _ _ _ _ _ _ _ _ _ Hs Hh Hi)
    as (row & row0 & Hr & Hr0 & Hl & Hl0 & Hinit & _).
  destruct (lookup_lt_is_Some_2 (eos_reached st) i) as [e He].
  { rewrite Hflags. by apply lookup_lt_Some in Hr0. }
  destruct (lookup_lt_is_Some_2 cands i) as [c Hci].
  { rewrite Hlc. by apply lookup_lt_Some in Hr0. }
  destruct (Hrow _ _ _ _ _ Hr0 Hr He Hci) as (x0 & Hx0 & Hnew & Hflag).
  rewrite Hnew in Hrow'. injection Hrow' as <-.
  assert (p < Z.to_nat ttl_len)%nat as Hp.
  { rewrite <- Hl0. by apply lookup_lt_Some in Hx0. }
  rewrite (Hinit p Hp) in Hx0. injection Hx0 as <-.
  destruct (IH i t row Hi Hr) as [IH1 IH2].
  assert ((length t <= p)%nat →
          <[p := if default pad (t !! p) =? pad then c
                 else default pad (t !! p)]> row !! p = Some c) as Hwrite.
  { intros Hge. rewrite (lookup_ge_None_2 t p Hge). simpl.
    rewrite Z.eqb_refl. apply list_lookup_insert_eq. lia. }
  split.
  - intros q Hq. destruct (decide (q = p)) as [->|Hne].
    + exists c. split; [apply Hwrite; lia|eauto].
    + rewrite list_lookup_insert_ne by done. apply IH1. lia.
  - rewrite Hflag. intros [= Hor]. destruct e.
    + destruct (IH2 He) as (q & Hq & Hqe). exists q. split; [lia|].
      rewrite list_lookup_insert_ne by lia. done.
    + simpl in Hor. apply andb_true_iff in Hor as [Hx Hce].
      apply Z.eqb_eq in Hx, Hce. subst c.
      assert (length t <= p)%nat as Hge.
      { destruct (decide (length t <= p)%nat) as [|Hn]; [done|].
        destruct (lookup_lt_is_Some_2 t p) as [x Hxp]; [lia|].
        rewrite Hxp in Hx. simpl in Hx. subst x.
        exfalso. eapply Hpad; by eapply list_elem_of_lookup_2. }
      exists p. split; [lia|]. by apply Hwrite.
Qed.

Lemma at_head_vocab V prompt_toks max_gen min_tok_len ttl_len buf :
  vocab_logits V forward →
  (∀ t, t ∈ prompt_toks → pad ∉ t) →
  started prompt_toks max_gen min_tok_len ttl_len buf →
  ∀ p st,
    at_head (text_mask buf) (Z.to_nat min_tok_len) (init_state buf) p st →
    in_vocab_after_prompt V eos prompt_toks p st.
Proof.
  intros HV Hpad Hs p st Hh.
  induction Hh as [|p st st' Hh IH Hb _]; [by eapply vocab_init|].
  by eapply vocab_step.
Qed.

(** X9: if the model's logits range over [V] vocabulary entries and no
    prompt holds the pad id, every token [generate] returns is a
    vocabulary index the loop chose: never the pad filler of a column the
    loop did not reach. *)
Theorem generated_tokens_are_vocabulary_ids V prompt_toks max_gen out :
  vocab_logits V forward →
  (∀ t, t ∈ prompt_toks → pad ∉ t) →
  generate prompt_toks max_gen = Some out →
  ∀ res x, res ∈ out → x ∈ res → 0 <= x < Z.of_nat V.
Proof.
  intros HV Hpad Hg res x Hres Hx. unfold Generate.generate in Hg.
  destruct (Generate.generate_state _ _ _ _ _ _) as [fin|] eqn:Hfin;
    simpl in Hg; [|done].
  injection Hg as <-.
  apply list_elem_of_lookup_1 in Hres as [i Hres].
  apply lookup_zip_with_Some in Hres as (t & row & -> & Hi & Hrow).
  destruct (generate_state_inv _ _ _ _ _ _ _ Hfin) as (mn & ttl & buf & Hs).
  destruct (generate_state_shape _ _ _ _ _ _ _ _ _ _ Hs Hfin)
    as (pf & Hlf & Hrows).
  destruct (started_facts _ _ _ _ _ _ _ Hs) as (Hmn & Httl & Hlen & Hbuf).
  destruct (Forall2_lookup_l _ _ _ _ _ Hbuf Hi) as (row0 & Hi0 & Hrow0).
  pose proof (Forall2_lookup_lr _ _ _ _ _ _ Hrows Hrow Hi0) as [Hl _].
  rewrite (prompt_row_length _ _ _ _ Hrow0) in Hl.
  pose proof (out_row_no_eos (cap max_gen) t row) as Hno.
  destruct (out_row_take (cap max_gen) t row) as (m & Hout & _).
  rewrite Hout in Hx, Hno.
  apply list_elem_of_lookup_1 in Hx as [k Hk].
  assert (row !! (length t + k)%nat = Some x) as Hpos.
  { apply lookup_take_Some in Hk as [Hk _]. by rewrite lookup_drop in Hk. }
  assert (∃ p, in_vocab_after_prompt V eos prompt_toks p fin
            ∧ ((Z.to_nat ttl <= p)%nat
               ∨ eos_reached fin !! i = Some true)) as (p & Hin & Hend).
  { rewrite (generate_state_started _ _ _ _ _ _ _ _ _ Hs) in Hfin.
    apply loop_result in Hfin as [[Hh _]|(q & sq & Hh & _ & Hb & Hall)].
    - eexists. split; [by eapply at_head_vocab|]. left. lia.
    - exists (S q). split.
      + eapply vocab_step; [done|done|done|done| |done].
        by eapply at_head_vocab.
      + right. destruct (lookup_lt_is_Some_2 (eos_reached fin) i) as [e He].
        { rewrite Hlf. by apply lookup_lt_Some in Hi0. }
        rewrite forallb_forall in Hall. rewrite He. f_equal.
        apply Hall, list_elem_of_In. by eapply list_elem_of_lookup_2. }
  destruct (Hin i t row Hi Hrow) as [H1 H2].
  assert (length t + k < p)%nat as Hlt.
  { destruct Hend as [Hp|Hflag].
    - apply lookup_lt_Some in Hpos. lia.
    - destruct (H2 Hflag) as (q & Hq & Hqe).
      destruct (decide (length t + k < q)%nat) as [|Hn]; [lia|].
      exfalso. apply Hno. apply list_elem_of_lookup.
      exists (q - length t)%nat.
      apply lookup_take_Some in Hk as [_ Hkm].
      rewrite lookup_take_lt by lia. rewrite lookup_drop.
      by replace (length t + (q - length t))%nat with q by lia. }
  destruct (H1 (length t + k)%nat) as (y & Hy & Hrange); [lia|].
  rewrite Hpos in Hy. by injection Hy as <-.
Qed.

End WithModel.


(** *** The theorems on concrete runs of the toy model *)

Import Demo DemoMore.

Lemma generate_rejects_empty_batch_and_long_prompts_witness :
  let long := replicate 17 3 in
  long ∈ [[1]; long]
  ∧ max_seq_len small_args < Z.of_nat (length long)
  ∧ length long ≠ 1%nat
  ∧ generate Z.ltb successor_model tokenizer small_args [[1]; long] 5 = None.
Proof.
  intros long.
  assert (long ∈ [[1]; long]) as Hin by (right; left).
  assert (max_seq_len small_args < Z.of_nat (length long)) as Hlong
    by (vm_compute; reflexivity).
  assert (length long ≠ 1%nat) as Hne by (vm_compute; discriminate).
  split_and!; [done|done|done|].
  exact (proj2 (generate_rejects_empty_batch_and_long_prompts Z.ltb
                  successor_model tokenizer small_args 5)
           [[1]; long] long Hin Hlong Hne).
Defined.

Lemma model_failure_aborts_generate_witness :
  let buf := [[1; 0; 0; 0; 0; 0]] in
  let st := {| gen_toks := [[1; 2; 3; 0; 0; 0]];
               eos_reached := [false] |} in
  started tokenizer small_args [[1]] 5 1 6 buf
  ∧ at_head Z.ltb short_context_model tokenizer (text_mask tokenizer buf)
      (Z.to_nat 1) (init_state buf) 3 st
  ∧ loop_body Z.ltb short_context_model tokenizer (text_mask tokenizer buf)
      3 st = None
  ∧ generate Z.ltb short_context_model tokenizer small_args [[1]] 5 = None.
Proof.
  intros buf st.
  assert (started tokenizer small_args [[1]] 5 1 6 buf) as Hs
    by (repeat split; reflexivity).
  assert (at_head Z.ltb short_context_model tokenizer
            (text_mask tokenizer buf) (Z.to_nat 1) (init_state buf) 3 st)
    as Hh.
  { eapply head_next; [eapply head_next; [apply head_first|..]|..];
      reflexivity. }
  assert (loop_body Z.ltb short_context_model tokenizer
            (text_mask tokenizer buf) 3 st = None) as Hb by reflexivity.
  split_and!; [done|done|done|].
  apply (model_failure_aborts_generate Z.ltb short_context_model tokenizer
           small_args [[1]] 5 1 6 buf 3 st Hs Hh); [lia|done].
Defined.

Lemma successor_model_keeps_positions : keeps_positions successor_model.
Proof.
  intros toks logits [= <-].
  apply Forall2_fmap_r, Forall_Forall2_diag, Forall_forall.
  intros t _. simpl. apply length_map.
Qed.

Lemma successor_model_vocab : vocab_logits 8 successor_model.
Proof.
  intros toks logits [= <-]. apply Forall_fmap, Forall_forall.
  intros t _ v Hv. simpl in Hv. rewrite fmap_last in Hv.
  destruct (last t); simpl in Hv; [|done]. by injection Hv as <-.
Qed.

Lemma empty_prompt_raises_witness :
  [] ∈ [[]; [1]]
  ∧ 0 < max_seq_len small_args ∧ 0 < cap small_args 5
  ∧ generate Z.ltb successor_model tokenizer small_args [[]; [1]] 5 = None.
Proof.
  assert ([] ∈ [[]; [1]]) as Hin by left.
  assert (0 < max_seq_len small_args) as Hseq by reflexivity.
  assert (0 < cap small_args 5) as Hcap by reflexivity.
  split_and!; [done|done|done|].
  exact (empty_prompt_raises Z.ltb successor_model tokenizer small_args
           [[]; [1]] 5 successor_model_keeps_positions Hin Hseq Hcap).
Defined.

Lemma finished_buffer_keeps_prompts_witness :
  let buf := [[1; 4; 5; 0; 0; 0; 0; 0]; [1; 0; 0; 0; 0; 0; 0; 0]] in
  started tokenizer small_args [[1; 4; 5]; [1]] 5 1 8 buf
  ∧ ∃ fin row,
      generate_state Z.ltb successor_model tokenizer small_args
        [[1; 4; 5]; [1]] 5 = Some fin
      ∧ gen_toks fin !! 0%nat = Some row
      ∧ take 3 row = [1; 4; 5].
Proof.
  intros buf.
  assert (started tokenizer small_args [[1; 4; 5]; [1]] 5 1 8 buf) as Hs
    by (repeat split; reflexivity).
  split; [done|].
  destruct (generate_state Z.ltb successor_model tokenizer small_args
              [[1; 4; 5]; [1]] 5) as [fin|] eqn:Hg;
    [|by vm_compute in Hg].
  destruct (finished_buffer_keeps_prompts Z.ltb successor_model tokenizer
              small_args [[1; 4; 5]; [1]] 5 1 8 buf fin 0 [1; 4; 5]
              Hs Hg eq_refl) as (row & Hrow & _ & _ & Htake).
  exists fin, row. split_and!; [done|done|].
  apply Htake; [|vm_compute; discriminate].
  intros Hpad. by repeat (apply elem_of_cons in Hpad as [Hpad|Hpad];
    [discriminate Hpad|]); apply elem_of_nil in Hpad.
Defined.

Lemma generate_output_length_bounded_witness :
  generate Z.ltb successor_model tokenizer small_args [[3]] 10
  = Some [[4; 5; 6]]
  ∧ Z.of_nat (length [4; 5; 6]) <= Z.max 0 (cap small_args 10)
  ∧ Z.of_nat (length [3] + length [4; 5; 6])
    <= Z.max (Z.of_nat (length [3])) (max_seq_len small_args).
Proof.
  assert (generate Z.ltb successor_model tokenizer small_args [[3]] 10
          = Some [[4; 5; 6]]) as Hg by reflexivity.
  split; [done|].
  exact (generate_output_length_bounded Z.ltb successor_model tokenizer
           small_args [[3]] 10 [[4; 5; 6]] 0 [3] [4; 5; 6] Hg eq_refl
           eq_refl).
Defined.

Lemma argmax_first_maximal_witness :
  argmax Z.ltb [1; 5; 3; 5] = Some 1
  ∧ ∃ v, [1; 5; 3; 5] !! Z.to_nat 1 = Some v
      ∧ ∀ y, y ∈ [1; 5; 3; 5] → Z.ltb v y = false.
Proof.
  assert (argmax Z.ltb [1; 5; 3; 5] = Some 1) as Ha by reflexivity.
  split; [done|].
  destruct (argmax_first_maximal Z.ltb [1; 5; 3; 5] 1
              Z_ltb_strict_weak_order Ha) as (_ & v & Hv & Hmax & _).
  by exists v.
Defined.

Lemma model_input_holds_the_prompts_witness :
  let buf := [[1; 4; 5; 0; 0; 0; 0; 0]; [1; 0; 0; 0; 0; 0; 0; 0]] in
  let st' := {| gen_toks := [[1; 4; 5; 0; 0; 0; 0; 0];
                             [1; 2; 0; 0; 0; 0; 0; 0]];
                eos_reached := [false; false] |} in
  started tokenizer small_args [[1; 4; 5]; [1]] 5 1 8 buf
  ∧ iteration Z.ltb successor_model tokenizer 1 8 buf 1 (init_state buf) st'
  ∧ length (map (take 1) (gen_toks (init_state buf))) = 2%nat.
Proof.
  intros buf st'.
  assert (started tokenizer small_args [[1; 4; 5]; [1]] 5 1 8 buf) as Hs
    by (repeat split; reflexivity).
  assert (iteration Z.ltb successor_model tokenizer 1 8 buf 1
            (init_state buf) st') as Hit.
  { split_and!; [apply head_first|lia|reflexivity]. }
  split_and!; [done|done|].
  exact (proj1 (proj2 (model_input_holds_the_prompts Z.ltb successor_model
                         tokenizer small_args [[1; 4; 5]; [1]] 5 1 8 buf 1
                         (init_state buf) st' Hs Hit))).
Defined.

Lemma bos_prompts_head_every_model_input_witness :
  let prompt := Tok.encode toy_sp_encode tokenizer demo_text true false in
  let buf := [[1; 3; 4; 0; 0; 0; 0; 0]] in
  let st' := {| gen_toks := [[1; 3; 4; 5; 0; 0; 0; 0]];
                eos_reached := [false] |} in
  prompt = [1; 3; 4]
  ∧ started tokenizer small_args [prompt] 5 3 8 buf
  ∧ iteration Z.ltb successor_model tokenizer 3 8 buf 3 (init_state buf) st'
  ∧ Forall (λ row, head row = Some (bos_id tokenizer))
      (map (take 3) (gen_toks (init_state buf))).
Proof.
  intros prompt buf st'.
  assert (∀ t, t ∈ [prompt] →
            ∃ s e, t = Tok.encode toy_sp_encode tokenizer s true e) as Henc.
  { intros t Ht. apply list_elem_of_singleton in Ht as ->.
    by exists demo_text, false. }
  assert (started tokenizer small_args [prompt] 5 3 8 buf) as Hs
    by (repeat split; reflexivity).
  assert (iteration Z.ltb successor_model tokenizer 3 8 buf 3
            (init_state buf) st') as Hit.
  { split_and!; [apply head_first|lia|reflexivity]. }
  split_and!; [reflexivity|done|done|].
  exact (proj2 (bos_prompts_head_every_model_input Z.ltb successor_model
                  tokenizer small_args toy_sp_encode [prompt] 5 3 8 buf 3
                  (init_state buf) st' Henc Hs Hit)).
Defined.

Lemma generated_tokens_are_vocabulary_ids_witness :
  generate Z.ltb successor_model tokenizer small_args [[3]] 10
  = Some [[4; 5; 6]]
  ∧ 0 <= 6 < Z.of_nat 8.
Proof.
  assert (generate Z.ltb successor_model tokenizer small_args [[3]] 10
          = Some [[4; 5; 6]]) as Hg by reflexivity.
  assert (∀ t, t ∈ [[3]] → pad_id tokenizer ∉ t) as Hpad.
  { intros t Ht. apply list_elem_of_singleton in Ht as ->.
    intros Hin. apply list_elem_of_singleton in Hin. discriminate Hin. }
  split; [done|].
  apply (generated_tokens_are_vocabulary_ids Z.ltb successor_model tokenizer
           small_args 8 [[3]] 10 [[4; 5; 6]] successor_model_vocab Hpad Hg
           [4; 5; 6] 6).
  - left.
  - right; right; left.
Defined.

End GenerateMoreFacts.

Module BuildMoreFacts.

Import Build BuildCheck BuildFacts.

(** X10: the exact conditions under which [Transformer(params)] is
    built: a head count other than zero whose quotient [dim // n_heads] is
    not negative, when there is at least one layer a feed-forward width
    that can be computed, and the allocation of every tensor, that is,
    sizes that are not negative, sizes, element counts and storage sizes
    in bytes that fit a signed 64-bit integer, and a machine with the
    memory for it. *)
Theorem construction_succeeds_iff (float_size : Z)
    (grants : Z → list Z → bool) (params : ModelArgs) :
  is_Some (Transformer_init float_size grants params) ↔
    n_heads params ≠ 0 ∧ 0 <= dim params / n_heads params
    ∧ ∃ h, (0 < n_layers params →
            ffn_hidden_dim (4 * dim params) (multiple_of params)
              (ffn_dim_multiplier params) = Some h)
        ∧ Forall (λ t, Forall (λ d, 0 <= d < 2 ^ 63) t.2
                       ∧ foldr Z.mul 1 t.2 < 2 ^ 63
                       ∧ - 2 ^ 63 <= foldr Z.mul 1 t.2 * t.1 < 2 ^ 63
                       ∧ grants t.1 t.2 = true)
            (tensors float_size params h).
Proof.
  assert (∀ h, Forall (λ t, Forall (λ d, 0 <= d < 2 ^ 63) t.2
                          ∧ foldr Z.mul 1 t.2 < 2 ^ 63
                          ∧ - 2 ^ 63 <= foldr Z.mul 1 t.2 * t.1 < 2 ^ 63
                          ∧ grants t.1 t.2 = true)
                 (tensors float_size params h)
               ↔ Forall (λ t, alloc grants t.1 t.2 = Some t.2)
                   (tensors float_size params h)) as Hshapes.
  { intros h. apply Forall_proper; [|done]. intros t.
    rewrite alloc_Some. tauto. }
  split.
  - intros [m Hm]. apply Transformer_init_Some in Hm
      as (Hn & He & Ht & Hw & ls & Hls & _).
    apply precompute_freqs_cis_Some in Ht
      as (Hhd & _ & Hi & Hfq & Hp & Ho & Ht & _).
    split; [done|]. split; [done|].
    destruct (Z.ltb_spec 0 (n_layers params)) as [Hl|Hl].
    + apply mapM_Some in Hls.
      destruct (range (n_layers params)) as [|id r] eqn:Hr.
      { apply range_nil_iff in Hr. lia. }
      apply Forall2_cons_inv_l in Hls as (b & ls' & Hb & _ & _).
      apply TransformerBlock_init_Some in Hb as (a & f & Ha & Hf & _).
      apply Attention_init_Some in Ha as (_ & Hq & Hwo & _).
      apply FeedForward_init_Some in Hf as (h & Hh & H1 & H2 & _).
      exists h. split; [done|]. apply Hshapes. unfold tensors.
      destruct (Z.ltb_spec 0 (n_layers params)); [|lia].
      cbv zeta. repeat constructor; done.
    + exists 0. split; [lia|]. apply Hshapes. unfold tensors.
      destruct (Z.ltb_spec 0 (n_layers params)); [lia|].
      cbv zeta. repeat constructor; done.
  - intros (Hn & Hhd & h & Hff & Hall). apply Hshapes in Hall.
    destruct (tensors_granted _ _ _ _ Hall)
      as (He & Hi & Hf & Hp & Hfl & Ht & Hw & Hlayer).
    pose proof (alloc_nonneg_1 _ _ _ Hp) as Hs.
    assert (is_Some (mapM (λ id, TransformerBlock_init float_size grants
                                   id params)
                       (range (n_layers params)))) as [ls Hls].
    { apply mapM_is_Some, Forall_forall. intros id Hid. simpl.
      assert (0 < n_layers params) as Hl.
      { destruct (Z.le_gt_cases (n_layers params) 0) as [Hle|]; [|done].
        apply range_nil_iff in Hle. rewrite Hle in Hid.
        by apply elem_of_nil in Hid. }
      destruct (Hlayer Hl) as (Hq & Ho & H1 & H2).
      eexists. apply TransformerBlock_init_Some. do 2 eexists.
      split_and!; [|apply FeedForward_init_Some; eauto 10|done|done].
      apply Attention_init_Some. split_and!; [lia|done|done|done]. }
    eexists. apply Transformer_init_Some.
    split_and!; [done|done| |done|eauto].
    apply precompute_freqs_cis_Some. split_and!; [done|lia|done..].
Qed.

(** X11: in any model that construction returns, the tensors fit
    together: the rotary table has [2 * max_seq_len] rows of
    [head_dim // 2] angles, the layers are numbered [0 .. n_layers - 1]
    and all alike, the output projection of the attention consumes the
    [n_heads * head_dim] features the three input projections produce, the
    second feed-forward matrix consumes the width the first and third
    produce, that width is a multiple of [multiple_of], and embeddings,
    norms and the final projection all have width [dim]. *)
Theorem built_model_has_consistent_shapes (float_size : Z)
    (grants : Z → list Z → bool) (params : ModelArgs) (m : Transformer) :
  Transformer_init float_size grants params = Some m →
  let hd := dim params / n_heads params in
  tok_embeddings m = [vocab_size params; dim params]
  ∧ freqs_cis m = [max_seq_len params * 2; hd / 2]
  ∧ norm m = [dim params]
  ∧ output m = [vocab_size params; dim params]
  ∧ map layer_id (layers m) = range (n_layers params)
  ∧ ∀ b, b ∈ layers m →
      blk_head_dim b = hd
      ∧ att_n_heads (attention b) = n_heads params
      ∧ att_head_dim (attention b) = hd
      ∧ wq (attention b) = [n_heads params * hd; dim params]
      ∧ wk (attention b) = [n_heads params * hd; dim params]
      ∧ wv (attention b) = [n_heads params * hd; dim params]
      ∧ wo (attention b) = [dim params; n_heads params * hd]
      ∧ attention_norm b = [dim params]
      ∧ ffn_norm b = [dim params]
      ∧ ∃ h k, ffn_hidden_dim (4 * dim params) (multiple_of params)
                 (ffn_dim_multiplier params) = Some h
          ∧ h = multiple_of params * k
          ∧ w1 (feed_forward b) = [h; dim params]
          ∧ w2 (feed_forward b) = [dim params; h]
          ∧ w3 (feed_forward b) = [h; dim params].
Proof.
  intros Hm hd. apply Transformer_init_Some in Hm
    as (Hn & He & Ht & Hw & ls & Hls & ->). simpl.
  destruct (layers_of_init _ _ _ _ Hls) as (_ & Hids & Hblocks).
  split_and!; try done.
  - intros b Hb. destruct (Hblocks b Hb) as (id & Hinit).
    apply TransformerBlock_init_Some in Hinit
      as (a & f & Ha & Hf & _ & ->).
    apply Attention_init_Some in Ha as (_ & _ & _ & ->).
    apply FeedForward_init_Some in Hf as (h & Hh & _ & _ & ->). simpl.
    split_and!; try done. exists h.
    assert (∃ k, h = multiple_of params * k) as [k Hk].
    { unfold ffn_hidden_dim, round_up, Py.floor_div in Hh.
      destruct (reduce_hidden _ _) as [h0|]; simpl in Hh; [|done].
      destruct (multiple_of params =? 0); simpl in Hh; [done|].
      injection Hh as <-. eauto. }
    by exists k.
Qed.

(** *** The float detour of the feed-forward width *)

Lemma reduce_hidden_exact_from_spec (fuel : nat) : ∀ k,
  reduce_hidden_exact_from fuel k = true →
  ∀ h, k <= h < k + Z.of_nat fuel →
    reduce_hidden h None = Some (2 * h / 3).
Proof.
  induction fuel as [|fuel IH]; intros k Hall h Hh; [lia|].
  simpl in Hall. apply andb_true_iff in Hall as [Hk Hrest].
  destruct (decide (h = k)) as [->|Hne].
  - destruct (reduce_hidden k None) as [r|]; [|done].
    by apply Z.eqb_eq in Hk as ->.
  - apply (IH (k + 1)); [done|lia].
Qed.

(** X12: for every model dimension up to 32768 the float computation
    [int(2 * hidden_dim / 3)] on [hidden_dim = 4 * dim] loses nothing to
    rounding: it is the integer floor of [8 * dim / 3], so the width of the
    feed-forward layer is the least multiple of [multiple_of] that is not
    below that floor. *)
Theorem float_width_is_exact (d m : Z) :
  0 <= d <= 32768 → 0 < m →
  reduce_hidden (4 * d) None = Some (8 * d / 3)
  ∧ ffn_hidden_dim (4 * d) m None = Some (ceil_div (8 * d / 3) m * m).
Proof.
  intros Hd Hm.
  assert (reduce_hidden (4 * d) None = Some (8 * d / 3)) as Hr.
  { rewrite (reduce_hidden_exact_from_spec (Z.to_nat 131073) 0);
      [f_equal; f_equal; lia| |lia].
    vm_compute. reflexivity. }
  split; [done|]. unfold ffn_hidden_dim. rewrite Hr. simpl.
  by apply round_up_ceil.
Qed.

Import Demo.

Lemma construction_succeeds_iff_witness :
  is_Some (Transformer_init half_size roomy small_args)
  ∧ ¬ is_Some (Transformer_init half_size roomy
                 {| dim := 10; n_layers := 2; n_heads := -3;
                    n_kv_heads := None; vocab_size := 8; multiple_of := 4;
                    ffn_dim_multiplier := None;
                    norm_eps := norm_eps small_args; max_batch_size := 2;
                    max_seq_len := 16; img_len := 1; img_dim := 1;
                    max_gen_len := 8 |})
  ∧ ¬ is_Some (Transformer_init half_size (λ _ _, true)
                 {| dim := 2; n_layers := 2; n_heads := 1;
                    n_kv_heads := None; vocab_size := 2 ^ 61;
                    multiple_of := 4; ffn_dim_multiplier := None;
                    norm_eps := norm_eps small_args; max_batch_size := 2;
                    max_seq_len := 16; img_len := 1; img_dim := 1;
                    max_gen_len := 8 |}).
Proof.
  split; [|split].
  - apply (proj2 (construction_succeeds_iff half_size roomy small_args)).
    split; [done|]. split; [done|]. exists 28.
    split; [reflexivity|]. apply (bool_decide_unpack _). vm_compute.
    exact I.
  - intros Hs. apply (proj1 (construction_succeeds_iff _ _ _)) in Hs
      as (_ & Hhd & _).
    vm_compute in Hhd. by apply Hhd.
  - intros Hs. apply (proj1 (construction_succeeds_iff _ _ _)) in Hs
      as (_ & _ & h & _ & Hall).
    apply Forall_cons in Hall as [(_ & _ & [_ Hb] & _) _].
    vm_compute in Hb. discriminate Hb.
Defined.

Lemma built_model_has_consistent_shapes_witness :
  ∃ m, Transformer_init half_size roomy small_args = Some m
    ∧ freqs_cis m = [32; 1]
    ∧ map layer_id (layers m) = [0; 1].
Proof.
  destruct (Transformer_init half_size roomy small_args) as [m|] eqn:Hm;
    [|by vm_compute in Hm].
  destruct (built_model_has_consistent_shapes half_size roomy small_args m
              Hm)
    as (_ & Hf & _ & _ & Hids & _).
  exists m. split_and!; [done|exact Hf|exact Hids].
Defined.

Lemma float_width_is_exact_witness :
  0 <= 4096 <= 32768 ∧ 0 < 256
  ∧ reduce_hidden (4 * 4096) None = Some 10922
  ∧ ffn_hidden_dim (4 * 4096) 256 None = Some 11008.
Proof.
  assert (0 <= 4096 <= 32768) as Hd by lia.
  assert (0 < 256) as Hm by lia.
  split; [exact Hd|]. split; [exact Hm|].
  exact (float_width_is_exact 4096 256 Hd Hm).
Defined.

End BuildMoreFacts.

Module RotaryShapeMoreFacts.

Import RotaryShape.
Local Open Scope nat_scope.

Lemma complex_view_Some (s v : list nat) :
  complex_view s = Some v →
  ∃ d, last s = Some d ∧ Nat.even d = true
    ∧ numel (take (length s - 1) s) ≠ 0
    ∧ v = take (length s - 1) s ++ [d / 2].
Proof.
  unfold complex_view. destruct (last s) as [d|]; [|done].
  cbn [mbind option_bind]. cbv zeta.
  destruct (Nat.eqb_spec (numel (take (length s - 1) s)) 0) as [|Hn];
    [done|].
  destruct (Nat.even d) eqn:He; [|done].
  intros [= <-]. by exists d.
Qed.

Lemma complex_view_length (s v : list nat) :
  complex_view s = Some v → length v = length s.
Proof.
  intros (d & Hl & _ & _ & ->)%complex_view_Some.
  rewrite length_app, length_take. simpl.
  destruct s; [done|]. simpl. lia.
Qed.

Lemma reshape_for_broadcast_length (f x s : list nat) :
  reshape_for_broadcast f x = Some s → length s = length x.
Proof.
  unfold reshape_for_broadcast. intros H.
  repeat case_guard; simplify_option_eq. by rewrite length_imap.
Qed.

Lemma broadcast_rev_length : ∀ a b r : list nat,
  broadcast_rev a b = Some r → length r = Nat.max (length a) (length b).
Proof.
  induction a as [|x a IH]; intros b r H; simpl in H.
  - by injection H as <-.
  - destruct b as [|y b]; [by injection H as <-|].
    destruct (broadcast_rev a b) as [r'|] eqn:Hr; simpl in H; [|done].
    apply IH in Hr.
    destruct (x =? y); [|destruct (x =? 1); [|destruct (y =? 1); [|done]]];
      injection H as <-; simpl; lia.
Qed.

Lemma broadcast_length (a b r : list nat) :
  broadcast a b = Some r → length r = Nat.max (length a) (length b).
Proof.
  unfold broadcast.
  destruct (broadcast_rev _ _) as [r'|] eqn:Hr; simpl; [|done].
  intros [= <-]. apply broadcast_rev_length in Hr.
  by rewrite !length_reverse in *.
Qed.

Lemma flatten_3_length (s r : list nat) :
  flatten 3 s = Some r → 3 < length s ∧ length r = 4.
Proof.
  unfold flatten. case_guard; simpl; [|done]. intros [= <-].
  split; [done|]. rewrite length_app, length_take, Nat.min_l by lia. done.
Qed.

Lemma broadcast_with_table (a b c h : nat) :
  broadcast [a; b; c; h] [1; b; 1; h] = Some [a; b; c; h].
Proof.
  unfold broadcast. cbn. rewrite !Nat.eqb_refl. cbn.
  destruct (Nat.eqb_spec c 1) as [->|_]; cbn;
    destruct (Nat.eqb_spec a 1) as [->|_]; done.
Qed.

Lemma rotated_shape (a b c d : nat) (xq_ f q out : list nat) :
  complex_view [a; b; c; d] = Some xq_ →
  broadcast xq_ [1; b; 1; d / 2] = Some q →
  flatten 3 (q ++ [2]) = Some out →
  out = [a; b; c; d].
Proof.
  intros (d' & Hl & Hev & _ & ->)%complex_view_Some.
  injection Hl as <-. cbn [length Nat.sub take app].
  apply Nat.even_spec in Hev as [k ->].
  rewrite (Nat.mul_comm 2 k), Nat.div_mul by done.
  rewrite broadcast_with_table. intros [= <-].
  unfold flatten. cbn. intros [= <-]. repeat f_equal; lia.
Qed.

Lemma rotary_4d_inversion (a b c d : nat) (f q k : list nat) :
  apply_rotary_emb [a; b; c; d] [a; b; c; d] f = Some (q, k) →
  q = [a; b; c; d] ∧ k = [a; b; c; d]
  ∧ (a * b * c ≠ 0 ∧ Nat.even d = true ∧ f = [b; d / 2]).
Proof.
  unfold apply_rotary_emb.
  destruct (complex_view [a; b; c; d]) as [xq_|] eqn:Hq; simpl; [|done].
  destruct (reshape_for_broadcast f xq_) as [f'|] eqn:Hf; simpl; [|done].
  destruct (broadcast xq_ f') as [q'|] eqn:Hbq; simpl; [|done].
  destruct (flatten 3 (q' ++ [2])) as [qo|] eqn:Hfq; simpl; [|done].
  intros [= <- <-].
  pose proof Hq as (d' & Hl & Hev & Hn & Hxq)%complex_view_Some.
  injection Hl as <-. cbn [length Nat.sub take app numel foldr] in Hn, Hxq.
  assert (f = [b; d / 2] ∧ f' = [1; b; 1; d / 2]) as [-> ->].
  { subst xq_. unfold reshape_for_broadcast in Hf.
    cbn in Hf. repeat case_guard; simplify_option_eq. done. }
  split_and!; [by eapply rotated_shape|by eapply rotated_shape|lia|done|done].
Qed.

(** X13: when [apply_rotary_emb] returns, the query had at least three
    dimensions, both results have exactly four, a four-dimensional query
    gets its own shape back, and so does a four-dimensional key with the
    query's sequence and head dimensions. *)
Theorem rotary_results_shape (xq xk freqs_cis q k : list nat) :
  apply_rotary_emb xq xk freqs_cis = Some (q, k) →
  3 <= length xq
  ∧ length q = 4 ∧ length k = 4
  ∧ (length xq = 4 → q = xq)
  ∧ (length xq = 4 → length xk = 4 → xk !! 1 = xq !! 1 →
     last xk = last xq → k = xk).
Proof.
  unfold apply_rotary_emb.
  destruct (complex_view xq) as [xq_|] eqn:Hq; simpl; [|done].
  destruct (complex_view xk) as [xk_|] eqn:Hk; simpl; [|done].
  destruct (reshape_for_broadcast freqs_cis xq_) as [f|] eqn:Hf; simpl;
    [|done].
  destruct (broadcast xq_ f) as [q'|] eqn:Hbq; simpl; [|done].
  destruct (flatten 3 (q' ++ [2])) as [qo|] eqn:Hfq; simpl; [|done].
  destruct (broadcast xk_ f) as [k'|] eqn:Hbk; simpl; [|done].
  destruct (flatten 3 (k' ++ [2])) as [ko|] eqn:Hfk; simpl; [|done].
  intros [= <- <-].
  pose proof (complex_view_length _ _ Hq) as Hlq.
  pose proof (reshape_for_broadcast_length _ _ _ Hf) as Hlf.
  pose proof (broadcast_length _ _ _ Hbq) as Hlb.
  destruct (flatten_3_length _ _ Hfq) as [H3 H4].
  destruct (flatten_3_length _ _ Hfk) as [_ H4k].
  rewrite length_app in H3. simpl in H3.
  split_and!; [lia|done|done| |].
  - intros Hx. destruct xq as [|a [|b [|c [|d [|]]]]]; try done.
    assert (f = [1; b; 1; d / 2]) as ->.
    { apply complex_view_Some in Hq as (d' & Hl & _ & _ & ->).
      injection Hl as <-. unfold reshape_for_broadcast in Hf.
      cbn in Hf. repeat case_guard; simplify_option_eq. done. }
    by eapply rotated_shape.
  - intros Hx Hxk H1 Hl.
    destruct xq as [|a [|b [|c [|d [|]]]]]; try done.
    destruct xk as [|a' [|b' [|c' [|d' [|]]]]]; try done.
    injection H1 as ->. injection Hl as ->.
    assert (f = [1; b; 1; d / 2]) as ->.
    { apply complex_view_Some in Hq as (d' & Hl & _ & _ & ->).
      injection Hl as <-. unfold reshape_for_broadcast in Hf.
      cbn in Hf. repeat case_guard; simplify_option_eq. done. }
    by eapply rotated_shape.
Qed.

Lemma rotary_results_shape_witness :
  RotaryShape.apply_rotary_emb [2; 3; 4; 8] [5; 1; 4; 8] [3; 4]
  = Some ([2; 3; 4; 8], [5; 3; 4; 8])
  ∧ 3 <= length [2; 3; 4; 8]
  ∧ length [5; 3; 4; 8] = 4.
Proof.
  assert (RotaryShape.apply_rotary_emb [2; 3; 4; 8] [5; 1; 4; 8] [3; 4]
          = Some ([2; 3; 4; 8], [5; 3; 4; 8])) as Hr by reflexivity.
  destruct (rotary_results_shape _ _ _ _ _ Hr) as (H3 & _ & H4 & _).
  done.
Defined.

End RotaryShapeMoreFacts.

Module ForwardShapeFacts.

Import RotaryShape ForwardShape RotaryShapeMoreFacts BuildFacts.
Local Open Scope nat_scope.

Lemma apply_rotary_4d (a b c d : nat) (f : list nat) :
  apply_rotary_emb [a; b; c; d] [a; b; c; d] f
  = if decide (a * b * c ≠ 0 ∧ Nat.even d = true ∧ f = [b; d / 2])
    then Some ([a; b; c; d], [a; b; c; d]) else None.
Proof.
  destruct (apply_rotary_emb _ _ _) as [[q k]|] eqn:Hr.
  - destruct (rotary_4d_inversion _ _ _ _ _ _ _ Hr) as (Hq & Hk & Hc).
    rewrite decide_True; [by rewrite Hq, Hk|done].
  - rewrite decide_False; [done|]. intros (Habc & Hd & ->).
    unfold apply_rotary_emb in Hr.
    assert (complex_view [a; b; c; d] = Some [a; b; c; d / 2]) as Hv.
    { unfold complex_view. cbn [last mbind option_bind]. cbv zeta.
      rewrite Hd. cbn [length Nat.sub take app numel foldr].
      destruct (Nat.eqb_spec (a * (b * (c * 1))) 0) as [E|_]; [nia|done]. }
    rewrite Hv in Hr. cbn [mbind option_bind] in Hr.
    assert (reshape_for_broadcast [b; d / 2] [a; b; c; d / 2]
            = Some [1; b; 1; d / 2]) as Hf.
    { generalize (d / 2). intros h. unfold reshape_for_broadcast. cbn.
      case_guard; [|lia]. case_guard; [done|congruence]. }
    rewrite Hf in Hr. cbn [mbind option_bind] in Hr.
    rewrite broadcast_with_table in Hr. cbn [mbind option_bind] in Hr.
    assert (flatten 3 ([a; b; c; d / 2] ++ [2]) = Some [a; b; c; d]) as Hfl.
    { apply Nat.even_spec in Hd as [k ->].
      rewrite (Nat.mul_comm 2 k), Nat.div_mul by done.
      unfold flatten. cbn. repeat f_equal; lia. }
    rewrite Hfl in Hr. done.
Qed.


Lemma norm_keeps_shape (bsz seqlen d : nat) :
  RMSNorm_forward [d] [bsz; seqlen; d] = Some [bsz; seqlen; d].
Proof.
  unfold RMSNorm_forward, broadcast. cbn. by rewrite Nat.eqb_refl.
Qed.

Lemma linear_last (out d bsz seqlen : nat) :
  linear [out; d] [bsz; seqlen; d] = Some [bsz; seqlen; out].
Proof. unfold linear. cbn. by case_guard. Qed.

Lemma view_heads_ok (bsz seqlen nh hd : nat) :
  view [bsz; seqlen; nh; hd] [bsz; seqlen; nh * hd]
  = Some [bsz; seqlen; nh; hd].
Proof.
  unfold view. case_guard as Hg; [done|].
  exfalso. apply Hg. unfold numel. cbn [foldr]. lia.
Qed.

(** X14: in a model built with a positive head count, the forward pass on
    a batch of [bsz > 0] rows of [seqlen] tokens gets through the rotary
    encoding of a layer exactly when the sequence is not empty, is no
    longer than the [2 * max_seq_len] rows of the table, and the head
    dimension [dim // n_heads] is even; queries and keys then have the
    shape (bsz, seqlen, n_heads, head_dim).  Otherwise it raises there: a
    model with an odd head dimension is built but cannot be run. *)
Theorem built_model_rotary_call (float_size : Z)
    (grants : Z → list Z → bool) (params : ModelArgs)
    (m : Build.Transformer) (b : Build.TransformerBlock)
    (bsz seqlen : nat) :
  Build.Transformer_init float_size grants params = Some m →
  b ∈ Build.layers m →
  (0 < n_heads params)%Z → 0 < bsz →
  let hd := Z.to_nat (dim params / n_heads params) in
  let nh := Z.to_nat (n_heads params) in
  Transformer_rotary m b [bsz; seqlen]
  = if decide (0 < seqlen <= 2 * Z.to_nat (max_seq_len params)
               ∧ Nat.even hd = true)
    then Some ([bsz; seqlen; nh; hd], [bsz; seqlen; nh; hd])
    else None.
Proof.
  intros Hm Hb Hn Hbsz hd nh.
  apply Transformer_init_Some in Hm as (_ & He & Ht & _ & ls & Hls & ->).
  destruct (alloc_nonneg _ _ _ _ He) as [Hv Hd].
  apply precompute_freqs_cis_Some in Ht as (Hhd & Hs & _).
  simpl in Hb.
  destruct (layers_of_init _ _ _ _ Hls) as (_ & _ & Hblocks).
  destruct (Hblocks b Hb) as (id & Hinit).
  apply TransformerBlock_init_Some in Hinit as (a & f & Ha & _ & _ & ->).
  apply Attention_init_Some in Ha as (_ & _ & _ & ->).
  unfold Transformer_rotary, embedding, slice_first, Attention_rotary,
    shape_of.
  cbn [map Build.tok_embeddings Build.freqs_cis Build.attention_norm
       Build.attention Build.wq Build.wk Build.wv Build.att_n_heads
       Build.att_head_dim app mbind option_bind].
  rewrite norm_keeps_shape. cbn [mbind option_bind].
  rewrite !Z2Nat.inj_mul, Z2Nat.inj_div by lia. fold hd nh.
  change (Z.to_nat 2) with 2.
  rewrite !linear_last. cbn [mbind option_bind].
  rewrite !view_heads_ok. cbn [mbind option_bind].
  rewrite apply_rotary_4d.
  assert (0 < nh) by (unfold nh; lia).
  destruct (decide (0 < seqlen <= 2 * Z.to_nat (max_seq_len params)
                    ∧ Nat.even hd = true)) as [[Hseq Hev]|Hno].
  - rewrite decide_True; [done|]. split_and!; [nia|done|].
    f_equal. lia.
  - rewrite decide_False; [done|]. intros (Hz & Hev & Heq).
    apply Hno. split; [|done]. injection Heq as Heq. nia.
Qed.

Import Demo.

Lemma built_model_rotary_call_witness :
  ∃ m b, Build.Transformer_init half_size roomy small_args = Some m
    ∧ b ∈ Build.layers m
    ∧ Z.to_nat (dim small_args / n_heads small_args) = 3
    ∧ Transformer_rotary m b [2; 5] = None.
Proof.
  destruct (Build.Transformer_init half_size roomy small_args)
    as [m|] eqn:Hm;
    [|by vm_compute in Hm].
  destruct (Build.layers m) as [|b ls] eqn:Hl.
  { exfalso. vm_compute in Hm. injection Hm as <-. discriminate Hl. }
  assert (b ∈ Build.layers m) as Hb by (rewrite Hl; left).
  exists m, b. split_and!; [done|done|reflexivity|].
  rewrite (built_model_rotary_call half_size roomy small_args m b 2 5 Hm
             Hb);
    [|done|lia].
  reflexivity.
Defined.

End ForwardShapeFacts.

Module NumericMoreFacts.

Import Reals Lra.
Import Numeric NumericFacts NumericShape.
Local Open Scope R_scope.

(** *** [softmax] *)

Lemma sum_nonneg (l : vec) : Forall (λ x, 0 <= x) l → 0 <= sum l.
Proof.
  unfold sum. induction 1 as [|x l Hx _ IH]; simpl; lra.
Qed.

Lemma sum_ge_elem (l : vec) (j : nat) (x : R) :
  Forall (λ x, 0 <= x) l → l !! j = Some x → x <= sum l.
Proof.
  intros Hl. revert j. induction Hl as [|y l Hy Hl IH]; intros j Hj; [done|].
  pose proof (sum_nonneg l Hl) as Hs. unfold sum in *.
  destruct j as [|j]; simpl in *.
  - injection Hj as ->. lra.
  - specialize (IH j Hj). lra.
Qed.

Lemma sum_map_div (l : vec) (c : R) :
  sum (map (λ x, x / c) l) = sum l / c.
Proof.
  unfold sum. induction l as [|x l IH]; simpl; [lra|]. rewrite IH. lra.
Qed.

Lemma score_exp_nonneg (row : list score) :
  Forall (λ x, 0 <= x) (map score_exp row).
Proof.
  apply Forall_fmap, Forall_forall. intros [r|] _; simpl; [|lra].
  left. apply exp_pos.
Qed.

Lemma softmax_total_pos (row : list score) (j : nat) (r : R) :
  row !! j = Some (Fin r) → 0 < sum (map score_exp row).
Proof.
  intros Hj.
  assert (map score_exp row !! j = Some (exp r)) as He.
  { by rewrite list_lookup_fmap, Hj. }
  pose proof (sum_ge_elem _ _ _ (score_exp_nonneg row) He).
  pose proof (exp_pos r). lra.
Qed.

Lemma softmax_sums_to_one (row : list score) (j : nat) (r : R) :
  row !! j = Some (Fin r) → sum (softmax row) = 1.
Proof.
  intros Hj. pose proof (softmax_total_pos _ _ _ Hj) as Hpos.
  unfold softmax. rewrite sum_map_div. field. lra.
Qed.

Lemma causal_mask_length (L : nat) (M : list (list score)) :
  causal_mask L = Some M → (1 < L)%nat ∧ length M = L.
Proof.
  unfold causal_mask. destruct (Nat.ltb_spec 1 L); [|done]. intros [= <-].
  split; [done|]. unfold hstack, triu, full.
  rewrite length_zip_with, length_imap, !length_replicate. lia.
Qed.

Lemma causal_mask_row_head (L : nat) (M : list (list score)) (i : nat)
    (mrow : list score) :
  causal_mask L = Some M → M !! i = Some mrow → mrow !! 0%nat = Some (Fin 0).
Proof.
  intros HM Hi. destruct (causal_mask_length _ _ HM) as [HL Hlen].
  destruct (causal_mask_entry L i 0) as (M' & mrow' & HM' & Hi' & H0);
    [done| |lia|].
  { rewrite <- Hlen. by apply lookup_lt_Some in Hi. }
  rewrite HM in HM'. injection HM' as <-.
  rewrite Hi in Hi'. by injection Hi' as <-.
Qed.

(** X15: [softmax] of a row that holds at least one finite score is a
    probability distribution (weights between 0 and 1 that sum to 1); under
    the causal mask every row of attention scores is such a row, so every
    position's attention weights sum to 1. *)
Theorem softmax_is_distribution :
  (∀ (row : list score) j r, row !! j = Some (Fin r) →
     sum (softmax row) = 1
     ∧ ∀ c w, softmax row !! c = Some w → 0 <= w <= 1)
  ∧ (∀ L M i mrow (s : vec),
       causal_mask L = Some M → M !! i = Some mrow → s ≠ [] →
       sum (softmax (zip_with score_add (map Fin s) mrow)) = 1).
Proof.
  split.
  - intros row j r Hj. split; [by eapply softmax_sums_to_one|].
    pose proof (softmax_total_pos _ _ _ Hj) as Hpos.
    intros c w Hw. unfold softmax in Hw.
    rewrite list_lookup_fmap in Hw.
    destruct (map score_exp row !! c) as [x|] eqn:Hx; simpl in Hw; [|done].
    injection Hw as <-.
    pose proof (sum_ge_elem _ _ _ (score_exp_nonneg row) Hx) as Hle.
    assert (0 <= x) as H0.
    { pose proof (score_exp_nonneg row) as Hall.
      rewrite Forall_lookup in Hall. by eapply Hall. }
    split.
    + apply Rmult_le_pos; [done|]. left. by apply Rinv_0_lt_compat.
    + apply (Rmult_le_reg_r (sum (map score_exp row))); [done|].
      field_simplify; lra.
  - intros L M i mrow s HM Hi Hs.
    destruct s as [|s0 s]; [done|].
    pose proof (causal_mask_row_head _ _ _ _ HM Hi) as H0.
    destruct mrow as [|m0 rest]; [done|]. injection H0 as ->.
    by eapply (softmax_sums_to_one _ 0%nat).
Qed.


(** *** [RMSNorm] *)

Lemma sum_map_scale (l : vec) (c : R) (f : R → R) :
  sum (map (λ a, c * f a) l) = c * sum (map f l).
Proof.
  unfold sum. induction l as [|x l IH]; simpl; [lra|]. rewrite IH. lra.
Qed.

Lemma sum_squares_nonneg (x : vec) : 0 <= sum (map (λ a, a * a) x).
Proof.
  apply sum_nonneg, Forall_fmap, Forall_forall. intros a _. simpl. nra.
Qed.

Lemma zip_with_mul_ones (x : vec) :
  zip_with Rmult x (replicate (length x) 1) = x.
Proof. induction x as [|a x IH]; simpl; [done|]. rewrite IH. f_equal. lra. Qed.

(** X16: for a positive [eps] and a vector that is not empty, the mean
    square of what [RMSNorm._norm] returns is [ms / (ms + eps)], where [ms]
    is the mean square of the input: below 1, and the closer to 1 the
    smaller [eps] is against [ms].  With the weight [torch.ones(dim)] the
    constructor sets, [forward] returns exactly that vector. *)
Theorem rmsnorm_normalises (n : RMSNorm) (x : vec) :
  0 < eps n → x ≠ [] →
  let ms := mean (map (λ a, a * a) x) in
  0 <= ms
  ∧ mean (map (λ a, a * a) (RMSNorm_norm n x)) = ms / (ms + eps n)
  ∧ mean (map (λ a, a * a) (RMSNorm_norm n x)) < 1
  ∧ (weight n = replicate (length x) 1 →
     RMSNorm_forward n x = RMSNorm_norm n x).
Proof.
  intros Heps Hx ms.
  assert (0 < INR (length x)) as Hlen.
  { apply lt_0_INR. destruct x; [done|simpl; lia]. }
  assert (0 <= ms) as Hms.
  { unfold ms, mean. rewrite length_map.
    apply Rmult_le_pos; [apply sum_squares_nonneg|].
    left. by apply Rinv_0_lt_compat. }
  assert (mean (map (λ a, a * a) (RMSNorm_norm n x)) = ms / (ms + eps n))
    as Heq.
  { unfold RMSNorm_norm. fold ms.
    set (r := 1 / sqrt (ms + eps n)).
    assert (r * r = 1 / (ms + eps n)) as Hr.
    { unfold r. pose proof (sqrt_sqrt (ms + eps n) ltac:(lra)) as Hs.
      pose proof (sqrt_lt_R0 (ms + eps n) ltac:(lra)) as Hp.
      rewrite <- Hs at 3. field. lra. }
    unfold mean. rewrite map_map, !length_map.
    rewrite (map_ext _ (λ a, (r * r) * (a * a))) by (intros; ring).
    rewrite sum_map_scale, Hr.
    assert (sum (map (λ a, a * a) x) = ms * INR (length x)) as ->.
    { unfold ms, mean. rewrite length_map. field. lra. }
    field. split; lra. }
  split_and!; [done|done| |].
  - rewrite Heq. apply (Rmult_lt_reg_r (ms + eps n)); [lra|].
    field_simplify; lra.
  - intros Hw. unfold RMSNorm_forward. rewrite Hw.
    assert (length (RMSNorm_norm n x) = length x) as <-
      by (unfold RMSNorm_norm; by rewrite length_map).
    apply zip_with_mul_ones.
Qed.


(** *** Rotary encoding *)

Lemma precompute_rows (dim end_ : nat) (theta : R) :
  ∃ fs : vec, length fs = (dim / 2)%nat
    ∧ ∀ p, (p < end_)%nat →
        precompute_freqs_cis dim end_ theta !! p
        = Some (map (λ f, polar 1 (INR p * f)) fs).
Proof.
  unfold precompute_freqs_cis.
  set (h := (dim / 2)%nat).
  exists (map (λ x, 1 / x)
            (map (λ x, Rpower theta x)
               (map (λ x, x / INR dim) (map INR (take h (arange2 dim)))))).
  split.
  - rewrite !length_map, length_take, arange2_length.
    assert (h <= (dim + 1) / 2)%nat; [|lia].
    apply Nat.Div0.div_le_mono. lia.
  - intros p Hp. rewrite !list_lookup_fmap, lookup_seq_lt by done.
    cbn [fmap option_fmap option_map Nat.add]. by rewrite map_map.
Qed.

Lemma rotate_cons (r : complex) (rs : list complex) (a b : R) (x : vec) :
  rotate (r :: rs) (a :: b :: x)
  = (a * r.1 - b * r.2) :: (a * r.2 + b * r.1) :: rotate rs x.
Proof. done. Qed.

Lemma dot_cons2 (a b c d : R) (x y : vec) :
  dot (a :: b :: x) (c :: d :: y) = a * c + (b * d + dot x y).
Proof. done. Qed.

Lemma rotate_short (rs : list complex) (x : vec) :
  (length x < 2)%nat → rotate rs x = [].
Proof.
  intros Hx. destruct x as [|a [|b x]]; simpl in Hx; [| |lia].
  - unfold rotate. simpl. by destruct rs.
  - unfold rotate. simpl. by destruct rs.
Qed.

Lemma rotate_norm (fs : vec) (p : nat) : ∀ x : vec,
  length x = (2 * length fs)%nat →
  dot (rotate (map (λ f, polar 1 (INR p * f)) fs) x)
      (rotate (map (λ f, polar 1 (INR p * f)) fs) x)
  = dot x x.
Proof.
  induction fs as [|f fs IH]; intros x Hx.
  - by destruct x.
  - destruct x as [|a [|b x]]; simpl in Hx; [lia|lia|].
    cbn [map]. rewrite rotate_cons, !dot_cons2, IH by lia.
    unfold polar. cbn [fst snd].
    pose proof (sin2_cos2 (INR p * f)) as H1. unfold Rsqr in H1.
    set (c := cos _) in *. set (s := sin _) in *. clearbody c s.
    transitivity ((a * a + b * b) * (s * s + c * c) + dot x x); [ring|].
    rewrite H1. ring.
Qed.

Lemma rotate_relative (fs : vec) (p p' s : nat) : ∀ q k : vec,
  dot (rotate (map (λ f, polar 1 (INR (p + s) * f)) fs) q)
      (rotate (map (λ f, polar 1 (INR (p' + s) * f)) fs) k)
  = dot (rotate (map (λ f, polar 1 (INR p * f)) fs) q)
        (rotate (map (λ f, polar 1 (INR p' * f)) fs) k).
Proof.
  induction fs as [|f fs IH]; intros q k.
  - unfold rotate. simpl. by rewrite !zip_with_nil_r.
  - destruct (decide (length q < 2)%nat) as [Hq|Hq].
    { by rewrite !(rotate_short _ q). }
    destruct (decide (length k < 2)%nat) as [Hk|Hk].
    { rewrite !(rotate_short _ k) by done. unfold dot.
      by rewrite !zip_with_nil_r. }
    destruct q as [|a [|b q]]; simpl in Hq; [lia|lia|].
    destruct k as [|c [|d k]]; simpl in Hk; [lia|lia|].
    cbn [map]. rewrite !rotate_cons, !dot_cons2, IH.
    unfold polar. cbn [fst snd]. rewrite !plus_INR, !Rmult_plus_distr_r.
    rewrite !cos_plus, !sin_plus.
    pose proof (sin2_cos2 (INR s * f)) as H1. unfold Rsqr in H1.
    set (cp := cos (INR p * f)). set (sp := sin (INR p * f)).
    set (cq := cos (INR p' * f)). set (sq := sin (INR p' * f)).
    set (cs := cos (INR s * f)) in *. set (ss := sin (INR s * f)) in *.
    clearbody cp sp cq sq cs ss.
    set (rest := dot _ _). clearbody rest.
    transitivity
      (((a * cp - b * sp) * (c * cq - d * sq)
        + (a * sp + b * cp) * (c * sq + d * cq)) * (ss * ss + cs * cs)
       + rest); [ring|].
    rewrite H1. ring.
Qed.

(** X17: the table [precompute_freqs_cis(dim, end)] has [end] rows of
    [dim // 2] complex numbers of modulus one, and rotating a head vector
    of [dim] entries by any row leaves its squared norm unchanged. *)
Theorem rotary_preserves_norms (dim end_ : nat) (theta : R) :
  Nat.even dim = true →
  length (precompute_freqs_cis dim end_ theta) = end_
  ∧ ∀ p row, precompute_freqs_cis dim end_ theta !! p = Some row →
      length row = (dim / 2)%nat
      ∧ (∀ z, z ∈ row → z.1 * z.1 + z.2 * z.2 = 1)
      ∧ ∀ x : vec, length x = dim → dot (rotate row x) (rotate row x) = dot x x.
Proof.
  intros Hev.
  assert (length (precompute_freqs_cis dim end_ theta) = end_) as Hlen.
  { unfold precompute_freqs_cis. by rewrite !length_map, length_seq. }
  split; [done|]. intros p row Hp.
  destruct (precompute_rows dim end_ theta) as (fs & Hfs & Hrows).
  rewrite Hrows in Hp by (rewrite <- Hlen; by apply lookup_lt_Some in Hp).
  injection Hp as <-. split_and!.
  - by rewrite length_map.
  - intros z (f & -> & _)%list_elem_of_fmap. unfold polar. simpl.
    pose proof (sin2_cos2 (INR p * f)) as H1. unfold Rsqr in H1.
    etransitivity; [|exact H1]. ring.
  - intros x Hx. apply rotate_norm. rewrite Hfs, Hx.
    apply Nat.even_spec in Hev as [k ->].
    rewrite (Nat.mul_comm 2 k), Nat.div_mul by done. lia.
Qed.

(** X18: the rotary encoding is relative: the inner product of a query
    rotated for position [p + s] and a key rotated for position [p' + s]
    is the inner product of the same vectors rotated for [p] and [p'], so
    an attention score depends on the two positions only through their
    distance. *)
Theorem rotary_scores_depend_on_distance (dim end_ : nat) (theta : R)
    (p p' s : nat) (rp rp' rps rps' : list complex) (q k : vec) :
  precompute_freqs_cis dim end_ theta !! p = Some rp →
  precompute_freqs_cis dim end_ theta !! p' = Some rp' →
  precompute_freqs_cis dim end_ theta !! (p + s)%nat = Some rps →
  precompute_freqs_cis dim end_ theta !! (p' + s)%nat = Some rps' →
  dot (rotate rps q) (rotate rps' k) = dot (rotate rp q) (rotate rp' k).
Proof.
  intros Hp Hp' Hps Hps'.
  assert (length (precompute_freqs_cis dim end_ theta) = end_) as Hlen.
  { unfold precompute_freqs_cis. by rewrite !length_map, length_seq. }
  destruct (precompute_rows dim end_ theta) as (fs & _ & Hrows).
  rewrite Hrows in Hp, Hp', Hps, Hps'
    by (rewrite <- Hlen; by eapply lookup_lt_Some).
  injection Hp as <-. injection Hp' as <-.
  injection Hps as <-. injection Hps' as <-.
  apply rotate_relative.
Qed.


(** *** The first position *)

Lemma lookups_of_seq (v : vec) :
  map (λ d, default 0 (v !! d)) (seq 0 (length v)) = v.
Proof.
  apply list_eq. intros i. rewrite list_lookup_fmap.
  destruct (decide (i < length v)%nat) as [Hi|Hi].
  - rewrite lookup_seq_lt by done. simpl.
    by destruct (lookup_lt_is_Some_2 v i Hi) as [x ->].
  - rewrite lookup_seq_ge by lia. simpl. symmetry.
    apply lookup_ge_None. lia.
Qed.

Lemma attention_row_single (hd : nat) (mrow : option (list score))
    (qj k0 v0 : vec) :
  (∀ m, mrow = Some m → m !! 0%nat = Some (Fin 0)) →
  attention_row hd mrow qj [k0] [v0]
  = map (λ d, default 0 (v0 !! d)) (seq 0 hd).
Proof.
  intros Hm. unfold attention_row. apply map_ext. intros d.
  set (s := dot qj k0 / sqrt (INR hd)).
  pose proof (exp_pos s). pose proof (exp_pos (s + 0)).
  destruct mrow as [m|].
  - specialize (Hm m eq_refl). destruct m as [|m0 m]; [done|].
    injection Hm as ->. unfold softmax, sum. simpl. fold s. field. lra.
  - unfold softmax, sum. simpl. fold s. field. lra.
Qed.

(** X19: over the reals, the first position attends only to itself:
    under the causal mask, and also for a sequence of one token where no
    mask is built, row 0 of a head's attention is the head's own value
    vector at position 0, whatever queries, keys and later values are. *)
Theorem first_position_attends_to_itself (hd : nat) (q0 k0 v0 : vec)
    (qs ks vs : list vec) :
  length v0 = hd →
  (∀ L M, causal_mask L = Some M →
     head_attention hd (causal_mask L) (q0 :: qs) (k0 :: ks) (v0 :: vs)
       !! 0%nat
     = Some v0)
  ∧ head_attention hd None [q0] [k0] [v0] = [v0].
Proof.
  intros Hv. split.
  - intros L M HM. destruct (causal_mask_length _ _ HM) as [HL _].
    destruct (causal_mask_entry L 0 0) as (M' & mrow & HM' & H0 & _);
      [done|lia|lia|].
    rewrite HM in HM'. injection HM' as <-.
    rewrite head_attention_row, HM. simpl. rewrite H0. simpl. f_equal.
    rewrite (attention_row_prefix hd mrow q0 (k0 :: ks) (v0 :: vs)
               [k0] [v0] 0).
    + rewrite attention_row_single, <- Hv; [apply lookups_of_seq|].
      intros m [= <-]. by eapply causal_mask_row_head.
    + intros c y Hc Hy.
      rewrite (causal_mask_row _ _ _ _ HM H0 c y Hy).
      by destruct (Nat.ltb_spec 0 c); [|lia].
    + intros c Hc. by assert (c = 0%nat) as -> by lia.
    + intros c Hc. by assert (c = 0%nat) as -> by lia.
  - apply list_eq. intros [|j].
    + rewrite head_attention_row. simpl. f_equal.
      rewrite attention_row_single, <- Hv; [apply lookups_of_seq|done].
    + rewrite head_attention_row. done.
Qed.

(** *** The shape of the logits *)

Lemma layers_length (ls : list TransformerBlock) fr mask : ∀ x : list vec,
  length (foldl (λ h layer, TransformerBlock_values layer h fr mask) x ls)
  = length x.
Proof.
  induction ls as [|b ls IH]; intros x; simpl; [done|].
  by rewrite IH, TransformerBlock_values_length.
Qed.

Lemma forward_values_length (m : Transformer) (toks : list Z) :
  length (forward_values m toks) = length toks.
Proof.
  unfold forward_values. by rewrite !length_map, layers_length, length_map.
Qed.

Lemma forward_values_width (m : Transformer) (toks : list Z) (l : vec) :
  l ∈ forward_values m toks → length l = length (output m).
Proof.
  unfold forward_values. intros (h & -> & _)%list_elem_of_fmap.
  unfold linear. by rewrite length_map.
Qed.

(** *** Where the forward pass raises *)

Lemma shape2_Some {A} (t : list (list A)) (s : list nat) :
  shape2 t = Some s → ∃ w, s = [length t; w].
Proof.
  unfold shape2. destruct t as [|r t]; [intros [= <-]; by exists 0%nat|].
  case_guard; [|done]. intros [= <-]. by eexists.
Qed.

Lemma Attention_forward_rotary a (x : list vec) fr mask (out : list vec) :
  Attention_forward a x fr mask = Some out →
  x ≠ [] ∧ n_heads a ≠ 0%nat ∧ Nat.even (head_dim a) = true
  ∧ length fr = length x.
Proof.
  unfold Attention_forward. intros H.
  apply bind_Some in H as (xq & Hx & H).
  apply Linear_call_Some in Hx as ->.
  apply bind_Some in H as (xk & Hx & H).
  apply Linear_call_Some in Hx as ->.
  apply bind_Some in H as (xv & Hx & H).
  apply bind_Some in H as (xq & Hx' & H).
  apply view_call_Some in Hx' as ->.
  apply bind_Some in H as (xk & Hx' & H).
  apply view_call_Some in Hx' as ->.
  apply bind_Some in H as (xv' & Hx' & H).
  apply bind_Some in H as (r & Hr & _).
  unfold apply_rotary_emb_call in Hr.
  apply bind_Some in Hr as (s & Hs & Hr).
  apply bind_Some in Hr as (qk & Hr & _).
  apply shape2_Some in Hs as [w ->].
  unfold view_heads in Hr. rewrite !length_map in Hr.
  rewrite ForwardShapeFacts.apply_rotary_4d in Hr.
  case_decide as Hd; [|done]. destruct Hd as (Hne & Hev & Hfr).
  injection Hfr as Hfr _.
  split_and!; [|lia|done|done]. intros ->. simpl in Hne. lia.
Qed.

Lemma forward_row_layers (m : Transformer) (b : TransformerBlock)
    (toks : list Z) (out : list vec) :
  forward_row m toks = Some out → head (layers m) = Some b →
  (0 < length toks <= length (freqs_cis m))%nat
  ∧ n_heads (attention b) ≠ 0%nat
  ∧ Nat.even (head_dim (attention b)) = true.
Proof.
  unfold forward_row. intros H Hb.
  apply bind_Some in H as (h & Hx & H).
  apply embeddings_Some in Hx as [-> _].
  apply bind_Some in H as (h & Hl & _).
  destruct (layers m) as [|b' ls]; [done|]. injection Hb as ->.
  simpl in Hl.
  destruct (TransformerBlock_forward b _ _ _) as [h1|] eqn:Hb;
    [|by rewrite layers_None in Hl].
  unfold TransformerBlock_forward in Hb.
  apply bind_Some in Hb as (n & Hn & Hb).
  apply RMSNorm_call_Some in Hn as [-> _].
  apply bind_Some in Hb as (att & Hatt & _).
  apply Attention_forward_rotary in Hatt as (Hne & Hnh & Hev & Hfr).
  rewrite !length_map in Hfr. rewrite length_take in Hfr.
  split_and!; [|lia|done|done].
  destruct toks; [done|simpl; lia].
Qed.

(** *** Where the forward pass returns *)

Lemma Linear_call_ok (r c : nat) (W x : list vec) :
  matrix r c W → Forall (λ xi : vec, length xi = c) x →
  Linear_call W x = Some (map (linear W) x)
  ∧ Forall (λ o : vec, length o = r) (map (linear W) x).
Proof.
  intros [Hr Hc] Hx. split.
  - unfold Linear_call. case_guard as Hg; [done|]. exfalso. apply Hg.
    eapply Forall_impl; [exact Hx|]. intros xi ->. exact Hc.
  - apply Forall_fmap, Forall_forall. intros xi _. simpl.
    unfold linear. by rewrite length_map.
Qed.

Lemma RMSNorm_forward_length (n : RMSNorm) (x : vec) :
  length x = length (weight n) →
  length (RMSNorm_forward n x) = length x.
Proof.
  intros H. unfold RMSNorm_forward, RMSNorm_norm.
  rewrite length_zip_with, length_map. lia.
Qed.

Lemma RMSNorm_call_ok (d : nat) (n : RMSNorm) (x : list vec) :
  length (weight n) = d → Forall (λ xi : vec, length xi = d) x →
  RMSNorm_call n x = Some (map (RMSNorm_forward n) x)
  ∧ Forall (λ o : vec, length o = d) (map (RMSNorm_forward n) x).
Proof.
  intros Hw Hx. split.
  - unfold RMSNorm_call. case_guard as Hg; [done|]. exfalso. apply Hg.
    eapply Forall_impl; [exact Hx|]. intros xi ->. done.
  - apply Forall_fmap. eapply Forall_impl; [exact Hx|]. intros xi Hxi.
    simpl in *. rewrite RMSNorm_forward_length; lia.
Qed.

Lemma view_call_ok (nh hd : nat) (t : list vec) :
  Forall (λ r : vec, length r = (nh * hd)%nat) t →
  view_call nh hd t = Some (view_heads nh hd t).
Proof. intros H. unfold view_call. by case_guard. Qed.

Lemma shape2_matrix {A} (n m : nat) (t : list (list A)) :
  matrix n m t → n ≠ 0%nat → shape2 t = Some [n; m].
Proof.
  intros [Hn Hm] H0. unfold shape2. destruct t as [|r t]; [done|].
  pose proof Hm as Hm'. apply Forall_cons in Hm' as [Hr _].
  case_guard as Hg; [simpl; simpl in Hn; by rewrite Hn, Hr|].
  exfalso. apply Hg. eapply Forall_impl; [exact Hm|].
  intros r' ->. done.
Qed.

Lemma apply_rotary_emb_call_ok (nh hd s : nat) (xq xk : list (list vec))
    (fr : list (list complex)) :
  length xq = s → length xk = s → matrix s (hd / 2) fr →
  s ≠ 0%nat → nh ≠ 0%nat → Nat.even hd = true →
  apply_rotary_emb_call nh hd xq xk fr = Some (apply_rotary_emb xq xk fr).
Proof.
  intros Hq Hk Hfr Hs Hnh Hev. unfold apply_rotary_emb_call.
  rewrite (shape2_matrix s (hd / 2) fr) by done. cbn [mbind option_bind].
  rewrite Hq, Hk, ForwardShapeFacts.apply_rotary_4d.
  rewrite decide_True; [done|]. split_and!; [|done|done].
  rewrite Nat.mul_1_l. by apply Nat.neq_mul_0.
Qed.

Lemma causal_mask_matrix (L : nat) (M : list (list score)) :
  causal_mask L = Some M → matrix L L M.
Proof.
  unfold causal_mask. destruct (1 <? L)%nat; [|done]. intros [= <-].
  unfold hstack, triu, full. split.
  - rewrite length_zip_with, length_imap, !length_replicate. lia.
  - apply Forall_forall. intros r (i & Hr)%list_elem_of_lookup_1.
    apply lookup_zip_with_Some in Hr as (z & r0 & -> & Hz & Hr0).
    apply lookup_replicate in Hz as [-> _].
    rewrite list_lookup_imap in Hr0.
    destruct (replicate L (replicate L NegInf) !! i) as [r1|] eqn:Hr1;
      simpl in Hr0; [|done].
    apply lookup_replicate in Hr1 as [-> _]. injection Hr0 as <-.
    simpl. by rewrite length_imap, length_replicate.
Qed.

Lemma mask_call_ok (s : nat) : mask_call s (causal_mask s) = Some ().
Proof.
  unfold mask_call. destruct (causal_mask s) as [M|] eqn:HM; [|done].
  apply causal_mask_matrix in HM as [Hl Hr]. case_guard as Hg; [done|]. by destruct Hg.
Qed.

Lemma head_attention_shape (hd s : nat) (xq xk xv : list vec) :
  length xq = s →
  length (head_attention hd (causal_mask s) xq xk xv) = s
  ∧ Forall (λ o : vec, length o = hd)
      (head_attention hd (causal_mask s) xq xk xv).
Proof.
  intros Hq. unfold head_attention, matmul, matmul_t. split.
  - rewrite !length_map. destruct (causal_mask s) as [M|] eqn:HM.
    + apply causal_mask_matrix in HM as [Hl _].
      rewrite length_zip_with, !length_map. lia.
    + by rewrite !length_map.
  - apply Forall_fmap, Forall_forall. intros si _. simpl.
    by rewrite length_map, length_seq.
Qed.

Lemma concat_length_uniform {A} (n w : nat) (l : list (list A)) :
  length l = n → Forall (λ v, length v = w) l →
  length (List.concat l) = (n * w)%nat.
Proof.
  intros <- H. induction H as [|v l Hv _ IH]; [done|].
  simpl. rewrite length_app, IH, Hv. lia.
Qed.

Lemma heads_output_shape (nh hd s : nat) (xq xk xv : list (list vec)) :
  length xq = s → length xk = s → length xv = s →
  Forall (λ o : vec, length o = (nh * hd)%nat)
    (map (@List.concat R)
       (transpose s
          (zip_with (λ q kv, head_attention hd (causal_mask s) q kv.1 kv.2)
             (transpose nh xq) (zip (transpose nh xk) (transpose nh xv))))).
Proof.
  intros Hq Hk Hv. apply Forall_fmap, Forall_forall.
  intros row (j & Hj)%list_elem_of_lookup_1.
  rewrite transpose_lookup in Hj.
  destruct (decide (j < s)%nat) as [Hjs|]; [|done]. injection Hj as <-.
  simpl. apply concat_length_uniform.
  - unfold transpose.
    rewrite length_map, length_zip_with, length_zip, !length_map,
      !length_seq.
    lia.
  - apply Forall_fmap, Forall_forall.
    intros o (h & Ho)%list_elem_of_lookup_1. simpl.
    apply lookup_zip_with_Some in Ho as (q & kv & -> & Hq' & Hkv).
    rewrite transpose_lookup in Hq'.
    destruct (decide (h < nh)%nat); [|done]. injection Hq' as <-.
    destruct (head_attention_shape hd s
                (map (λ row : list vec, default [] (row !! h)) xq)
                kv.1 kv.2) as [Hlen Hw]; [by rewrite length_map|].
    destruct (lookup_lt_is_Some_2 _ j (eq_ind_r (λ n, (j < n)%nat) Hjs Hlen))
      as [o Ho].
    rewrite Ho. simpl. rewrite Forall_forall in Hw. apply Hw.
    by eapply list_elem_of_lookup_2.
Qed.

Lemma Attention_forward_ok (d nh hd s : nat) (a : Attention)
    (x : list vec) (fr : list (list complex)) :
  n_heads a = nh → head_dim a = hd →
  matrix (nh * hd) d (wq a) → matrix (nh * hd) d (wk a) →
  matrix (nh * hd) d (wv a) → matrix d (nh * hd) (wo a) →
  matrix s d x → matrix s (hd / 2) fr →
  s ≠ 0%nat → nh ≠ 0%nat → Nat.even hd = true →
  ∃ out, Attention_forward a x fr (causal_mask s) = Some out
    ∧ matrix s d out.
Proof.
  intros <- <- Hwq Hwk Hwv Hwo [Hs Hx] Hfr Hs0 Hnh Hev.
  unfold Attention_forward.
  destruct (Linear_call_ok _ _ _ _ Hwq Hx) as [-> Hq].
  destruct (Linear_call_ok _ _ _ _ Hwk Hx) as [-> Hk].
  destruct (Linear_call_ok _ _ _ _ Hwv Hx) as [-> Hv].
  cbn [mbind option_bind].
  rewrite !view_call_ok by done. cbn [mbind option_bind].
  rewrite (apply_rotary_emb_call_ok (n_heads a) (head_dim a) s);
    [|by unfold view_heads; rewrite !length_map..|done|done|done|done].
  cbn [mbind option_bind]. unfold apply_rotary_emb. rewrite Hs.
  rewrite mask_call_ok. cbn [mbind option_bind].
  set (o := map _ (transpose s _)).
  assert (Forall (λ r : vec, length r = (n_heads a * head_dim a)%nat) o)
    as Ho.
  { apply heads_output_shape.
    - unfold apply_rotary, view_heads.
      destruct Hfr as [Hfl _].
      rewrite length_zip_with, !length_map. lia.
    - unfold apply_rotary, view_heads.
      destruct Hfr as [Hfl _].
      rewrite length_zip_with, !length_map. lia.
    - unfold view_heads. by rewrite !length_map. }
  destruct (Linear_call_ok _ _ _ _ Hwo Ho) as [-> Hout].
  eexists. split; [done|]. split; [|done].
  unfold o, transpose. by rewrite !length_map, length_seq.
Qed.

Lemma add_call_ok (s d : nat) (a b : list vec) :
  matrix s d a → matrix s d b →
  add_call a b = Some (add a b) ∧ matrix s d (add a b).
Proof.
  intros [Hla Ha] [Hlb Hb].
  assert (Forall2 (λ r r' : vec, length r = length r') a b) as H2.
  { apply Forall2_same_length_lookup. split; [lia|].
    intros i r r' Hr Hr'. rewrite Forall_forall in Ha, Hb.
    rewrite (Ha r), (Hb r'); [done|by eapply list_elem_of_lookup_2..]. }
  split; [unfold add_call; by case_guard|].
  unfold add. split; [rewrite length_zip_with; lia|].
  apply Forall_forall. intros r (i & Hr)%list_elem_of_lookup_1.
  apply lookup_zip_with_Some in Hr as (ra & rb & -> & Hra & Hrb).
  rewrite Forall_forall in Ha, Hb. rewrite length_zip_with.
  rewrite (Ha ra), (Hb rb); [lia|by eapply list_elem_of_lookup_2..].
Qed.

Lemma FeedForward_forward_ok (s d hidden : nat) (f : FeedForward)
    (x : list vec) :
  matrix hidden d (w1 f) → matrix d hidden (w2 f) →
  matrix hidden d (w3 f) → matrix s d x →
  ∃ out, FeedForward_forward f x = Some out ∧ matrix s d out.
Proof.
  intros H1 H2 H3 [Hs Hx]. unfold FeedForward_forward.
  destruct (Linear_call_ok _ _ _ _ H1 Hx) as [-> Ha].
  destruct (Linear_call_ok _ _ _ _ H3 Hx) as [-> Hg].
  cbn [mbind option_bind].
  case_guard as Hl; [|destruct H1, H3; lia]. cbn [mbind option_bind].
  set (p := zip_with _ _ _).
  assert (Forall (λ r : vec, length r = hidden) p) as Hp.
  { apply Forall_forall. intros r (i & Hr)%list_elem_of_lookup_1.
    apply lookup_zip_with_Some in Hr as (ra & rb & -> & Hra & Hrb).
    rewrite Forall_forall in Ha, Hg. rewrite length_zip_with.
    rewrite list_lookup_fmap in Hra.
    destruct (map (linear (w1 f)) x !! i) as [ra0|] eqn:Hra0;
      simpl in Hra; [|done].
    injection Hra as <-. rewrite length_map.
    rewrite (Ha ra0), (Hg rb); [lia|by eapply list_elem_of_lookup_2..]. }
  destruct (Linear_call_ok _ _ _ _ H2 Hp) as [-> Hout].
  eexists. split; [done|]. split; [|done].
  unfold p. rewrite length_map, length_zip_with, !length_map. lia.
Qed.

Lemma TransformerBlock_forward_ok (d nh hd hidden s : nat)
    (b : TransformerBlock) (x : list vec) (fr : list (list complex)) :
  block_shaped d nh hd hidden b →
  matrix s d x → matrix s (hd / 2) fr →
  s ≠ 0%nat → nh ≠ 0%nat → Nat.even hd = true →
  ∃ out, TransformerBlock_forward b x fr (causal_mask s) = Some out
    ∧ matrix s d out.
Proof.
  intros (Hnh & Hhd & Hq & Hk & Hv & Ho & H1 & H2 & H3 & Hn1 & Hn2)
    Hx Hfr Hs Hnh0 Hev.
  unfold TransformerBlock_forward.
  destruct (RMSNorm_call_ok d _ x Hn1 (proj2 Hx)) as [-> Hr1].
  cbn [mbind option_bind].
  destruct (Attention_forward_ok d nh hd s (attention b)
              (map (RMSNorm_forward (attention_norm b)) x) fr)
    as (att & -> & Hatt); try done.
  { split; [by rewrite length_map; destruct Hx|done]. }
  cbn [mbind option_bind].
  destruct (add_call_ok s d x att Hx Hatt) as [-> Hh].
  cbn [mbind option_bind].
  destruct (RMSNorm_call_ok d _ (add x att) Hn2 (proj2 Hh)) as [-> Hr2].
  cbn [mbind option_bind].
  destruct (FeedForward_forward_ok s d hidden (feed_forward b)
              (map (RMSNorm_forward (ffn_norm b)) (add x att)))
    as (ff & -> & Hff); try done.
  { split; [by rewrite length_map; destruct Hh|done]. }
  cbn [mbind option_bind].
  destruct (add_call_ok s d (add x att) ff Hh Hff) as [-> Hout].
  by eexists.
Qed.

Lemma layers_ok (d nh hd hidden s : nat) (ls : list TransformerBlock)
    (fr : list (list complex)) :
  Forall (block_shaped d nh hd hidden) ls →
  matrix s (hd / 2) fr →
  (ls ≠ [] → s ≠ 0%nat ∧ nh ≠ 0%nat ∧ Nat.even hd = true) →
  ∀ x : list vec, matrix s d x →
    ∃ out, foldl (λ h layer,
                    h ← h; TransformerBlock_forward layer h fr
                             (causal_mask s))
             (Some x) ls = Some out
      ∧ matrix s d out.
Proof.
  intros Hls Hfr Hne.
  induction Hls as [|b ls Hb _ IH]; intros x Hx; [by exists x|].
  destruct Hne as (Hs & Hnh & Hev); [done|]. simpl.
  destruct (TransformerBlock_forward_ok d nh hd hidden s b x fr)
    as (h & -> & Hh); try done.
  apply IH; [|done]. intros _. done.
Qed.

Lemma embeddings_ok (vocab d : nat) (table : list vec) (toks : list Z) :
  matrix vocab d table →
  Forall (λ tok, 0 <= tok < Z.of_nat vocab)%Z toks →
  ∃ h, mapM (embedding table) toks = Some h ∧ matrix (length toks) d h.
Proof.
  intros [Hv Hd] Htoks.
  induction Htoks as [|tok toks Htok _ (h & Hh & Hl & Hw)].
  { exists []. by split. }
  destruct (lookup_lt_is_Some_2 table (Z.to_nat tok)) as [v Hv'];
    [lia|].
  exists (v :: h). split.
  - simpl. rewrite (proj2 (embedding_Some table tok v)); [|split; [lia|done]].
    simpl. by rewrite Hh.
  - split; [simpl; lia|]. constructor; [|done].
    rewrite Forall_forall in Hd. apply Hd.
    by eapply list_elem_of_lookup_2.
Qed.

Lemma take_matrix {A} (n m s : nat) (t : list (list A)) :
  matrix n m t → (s <= n)%nat → matrix s m (take s t).
Proof.
  intros [Hn Hm] Hs. split; [rewrite length_take; lia|].
  by apply Forall_take.
Qed.

Lemma forward_row_ok (vocab d nh hd hidden rows : nat) (m : Transformer)
    (toks : list Z) :
  shaped vocab d nh hd hidden rows m →
  Forall (λ tok, 0 <= tok < Z.of_nat vocab)%Z toks →
  (layers m ≠ [] →
   (0 < length toks <= rows)%nat ∧ nh ≠ 0%nat ∧ Nat.even hd = true) →
  is_Some (forward_row m toks).
Proof.
  intros (Ht & Hls & Hfr & Hn & Ho) Htoks Hne. unfold forward_row.
  destruct (embeddings_ok vocab d _ toks Ht Htoks) as (h & -> & Hh).
  cbn [mbind option_bind].
  destruct (decide (layers m = [])) as [Hnil|Hl].
  - rewrite Hnil. simpl.
    destruct (RMSNorm_call_ok d _ h Hn (proj2 Hh)) as [-> Hr].
    cbn [mbind option_bind].
    destruct (Linear_call_ok _ _ _ _ Ho Hr) as [-> _]. done.
  - destruct (Hne Hl) as (Hs & Hnh & Hev).
    destruct (layers_ok d nh hd hidden (length toks) (layers m)
                (take (length toks) (freqs_cis m)) Hls)
      with (x := h) as (h' & -> & Hh'); [|intros _; split; [lia|done]|done|].
    { eapply take_matrix; [done|lia]. }
    cbn [mbind option_bind].
    destruct (RMSNorm_call_ok d _ h' Hn (proj2 Hh')) as [-> Hr].
    cbn [mbind option_bind].
    destruct (Linear_call_ok _ _ _ _ Ho Hr) as [-> _]. done.
Qed.

(** X20: whenever [Transformer.forward] returns, it returns for every
    row of tokens one vector of logits per position, each with one entry
    per row of the output matrix (the vocabulary size): it meets the two
    assumptions under which the properties of [generate] are stated.  It
    returns only on token ids inside the embedding table and, when the
    model has a layer, only on rows that are not empty and no longer than
    the rotary table, for a head count other than zero and an even head
    dimension; on a batch of rows of several lengths it raises.  For a
    model whose tensors have the shapes construction gives, these
    conditions are also enough for it to return. *)
Theorem transformer_forward_meets_generate (m : Transformer) :
  (∀ toks out, forward_row m toks = Some out →
     length out = length toks
     ∧ Forall (λ l : vec, length l = length (output m)) out
     ∧ Forall (λ tok, 0 <= tok < Z.of_nat (length (tok_embeddings m)))%Z
         toks
     ∧ ∀ b, head (layers m) = Some b →
         (0 < length toks <= length (freqs_cis m))%nat
         ∧ n_heads (attention b) ≠ 0%nat
         ∧ Nat.even (head_dim (attention b)) = true)
  ∧ (∀ toks out, Transformer_forward m toks = Some out →
       Forall2 (λ t o, forward_row m t = Some o) toks out
       ∧ ∀ t t', t ∈ toks → t' ∈ toks → length t = length t')
  ∧ GenerateInv.keeps_positions (Transformer_forward m)
  ∧ GenerateInv.vocab_logits (length (output m)) (Transformer_forward m)
  ∧ (∀ vocab d nh hd hidden rows toks,
       shaped vocab d nh hd hidden rows m →
       is_Some (forward_row m toks) ↔
         Forall (λ tok, 0 <= tok < Z.of_nat vocab)%Z toks
         ∧ (layers m ≠ [] →
            (0 < length toks <= rows)%nat ∧ nh ≠ 0%nat
            ∧ Nat.even hd = true)).
Proof.
  assert (∀ toks out, forward_row m toks = Some out →
    Forall (λ tok, 0 <= tok < Z.of_nat (length (tok_embeddings m)))%Z toks)
    as Hids.
  { intros toks out Ho. unfold forward_row in Ho.
    apply bind_Some in Ho as (h & Hx & _).
    by apply embeddings_Some in Hx as [_ ?]. }
  split_and!; cycle 4.
  { intros vocab d nh hd hidden rows toks Hsh. split.
    - intros [out Ho]. pose proof Hsh as ([Hv _] & Hls & [Hr _] & _).
      split; [rewrite <- Hv; by eapply Hids|].
      intros Hne. destruct (layers m) as [|b ls] eqn:Hl; [done|].
      apply Forall_cons in Hls as [(Hnh & Hhd & _) _].
      destruct (forward_row_layers m b toks out Ho) as (Hs & Hn & He);
        [by rewrite Hl|].
      rewrite <- Hr, <- Hnh, <- Hhd. done.
    - intros [Htoks Hne]. by eapply forward_row_ok. }
  - intros toks out Ho. pose proof Ho as ->%forward_row_Some.
    split; [apply forward_values_length|].
    split; [apply Forall_forall; intros l; apply forward_values_width|].
    split; [by eapply Hids|intros b Hb; by eapply forward_row_layers].
  - intros toks out Ho.
    split; [exact (proj2 (Transformer_forward_Some _ _ _ Ho))|].
    unfold Transformer_forward in Ho. destruct toks as [|t0 toks].
    { intros t t' Ht. by apply elem_of_nil in Ht. }
    case_guard as Hlen; [|done]. clear Ho. rewrite Forall_forall in Hlen.
    intros t t' Ht Ht'. by rewrite (Hlen t Ht), (Hlen t' Ht').
  - intros toks logits [-> _]%Transformer_forward_Some.
    apply Forall2_fmap_r, Forall_Forall2_diag, Forall_forall.
    intros t _. apply forward_values_length.
  - intros toks logits [-> _]%Transformer_forward_Some.
    apply Forall_fmap, Forall_forall. intros t _ v Hv. simpl.
    eapply forward_values_width. rewrite last_lookup in Hv.
    by eapply list_elem_of_lookup_2.
Qed.

(** *** The residual connections *)

Lemma dot_zeros (k : nat) (v : vec) : dot (replicate k 0) v = 0.
Proof.
  unfold dot, sum. revert v. induction k as [|k IH]; intros [|a v]; simpl;
    try done. rewrite IH. lra.
Qed.

Lemma linear_zeros (d k : nat) (v : vec) :
  linear (replicate d (replicate k 0)) v = replicate d 0.
Proof.
  unfold linear. induction d as [|d IH]; simpl; [done|].
  by rewrite IH, dot_zeros.
Qed.

Lemma add_zero_rows (d : nat) (x z : list vec) :
  Forall (λ r, length r = d) x → length z = length x →
  Forall (λ r, r = replicate d 0) z →
  add x z = x.
Proof.
  intros Hx. revert z. induction Hx as [|r x Hr _ IH]; intros z Hl Hz.
  - by destruct z.
  - destruct z as [|r0 z]; [done|]. apply Forall_cons in Hz as [-> Hz].
    unfold add in *. simpl. rewrite IH by (simpl in Hl; auto with lia).
    f_equal. clear -Hr. revert d Hr.
    induction r as [|a r IHr]; intros d Hd; [by destruct d|].
    destruct d as [|d]; [done|]. simpl. rewrite (IHr d) by (simpl in Hd; lia).
    f_equal. lra.
Qed.

(** X21: over the reals, a block changes its input only through its
    two residual branches: when the output projection of the attention
    and the second feed-forward matrix are zero, the block, whenever it
    returns on an input of its width, returns that input unchanged,
    whatever the other weights are. *)
Theorem block_is_residual (b : TransformerBlock) (x out : list vec)
    (fr : list (list complex)) (mask : option (list (list score)))
    (d k k' : nat) :
  Forall (λ r : vec, length r = d) x →
  wo (attention b) = replicate d (replicate k 0) →
  w2 (feed_forward b) = replicate d (replicate k' 0) →
  TransformerBlock_forward b x fr mask = Some out →
  out = x.
Proof.
  intros Hx Hwo Hw2 ->%TransformerBlock_forward_Some.
  unfold TransformerBlock_values.
  assert (add x (Attention_values (attention b)
                   (map (RMSNorm_forward (attention_norm b)) x) fr mask)
          = x) as ->.
  { apply (add_zero_rows d); [done| |].
    - by rewrite Attention_values_length, length_map.
    - unfold Attention_values. rewrite Hwo.
      destruct (apply_rotary_emb _ _ _) as [xq xk].
      apply Forall_fmap, Forall_forall. intros o _. apply linear_zeros. }
  apply (add_zero_rows d); [done|by rewrite length_map|].
  apply Forall_fmap, Forall_forall. intros h _. simpl.
  unfold FeedForward_values. rewrite Hw2. apply linear_zeros.
Qed.

Import NumericDemo NumericDemoMore.

Lemma softmax_is_distribution_witness :
  [Fin 2; NegInf; Fin 0] !! 0%nat = Some (Fin 2)
  ∧ sum (softmax [Fin 2; NegInf; Fin 0]) = 1.
Proof.
  assert ([Fin 2; NegInf; Fin 0] !! 0%nat = Some (Fin 2)) as H0
    by reflexivity.
  split; [done|].
  exact (proj1 (proj1 softmax_is_distribution _ _ _ H0)).
Defined.

Lemma rmsnorm_normalises_witness :
  let n := {| eps := 1; weight := [1; 1] |} in
  0 < eps n ∧ [3; 4] ≠ []
  ∧ mean (map (λ a, a * a) (RMSNorm_norm n [3; 4])) < 1
  ∧ RMSNorm_forward n [3; 4] = RMSNorm_norm n [3; 4].
Proof.
  intros n.
  assert (0 < eps n) as Heps by (simpl; lra).
  assert ([3; 4] ≠ ([] : vec)) as Hx by discriminate.
  destruct (rmsnorm_normalises n [3; 4] Heps Hx) as (_ & _ & Hlt & Hw).
  split_and!; [done|done|done|]. by apply Hw.
Defined.

Lemma rotary_preserves_norms_witness :
  Nat.even 2 = true
  ∧ length (precompute_freqs_cis 2 8 10000) = 8%nat.
Proof.
  assert (Nat.even 2 = true) as Hev by reflexivity.
  split; [done|].
  exact (proj1 (rotary_preserves_norms 2 8 10000 Hev)).
Defined.

Lemma rotary_scores_depend_on_distance_witness :
  ∃ r1 r3 r4 r6,
    precompute_freqs_cis 2 8 10000 !! 1%nat = Some r1
    ∧ precompute_freqs_cis 2 8 10000 !! 3%nat = Some r3
    ∧ precompute_freqs_cis 2 8 10000 !! 4%nat = Some r4
    ∧ precompute_freqs_cis 2 8 10000 !! 6%nat = Some r6
    ∧ dot (rotate r4 [1; 2]) (rotate r6 [3; 4])
      = dot (rotate r1 [1; 2]) (rotate r3 [3; 4]).
Proof.
  do 4 eexists.
  assert (∀ A (x : A), Some x = Some x) as Hrefl by done.
  split_and!; [apply Hrefl..|].
  apply (rotary_scores_depend_on_distance 2 8 10000 1 3 3); reflexivity.
Defined.

Lemma first_position_attends_to_itself_witness :
  length [5; 6] = 2%nat
  ∧ (∃ M, causal_mask 2 = Some M)
  ∧ head_attention 2 (causal_mask 2) [[1; 0]; [0; 1]] [[0; 1]; [1; 1]]
      [[5; 6]; [7; 8]] !! 0%nat
    = Some [5; 6].
Proof.
  assert (length ([5; 6] : vec) = 2%nat) as Hv by reflexivity.
  assert (∃ M, causal_mask 2 = Some M) as [M HM] by (by eexists).
  split; [done|]. split; [by exists M|].
  exact (proj1 (first_position_attends_to_itself 2 [1; 0] [0; 1] [5; 6]
                  [[0; 1]] [[1; 1]] [[7; 8]] Hv) 2%nat M HM).
Defined.

Lemma transformer_forward_meets_generate_witness :
  shaped 3 2 1 2 2 8 tiny_transformer
  ∧ ∃ out, forward_row tiny_transformer [1; 2; 0]%Z = Some out
      ∧ length out = 3%nat
      ∧ Forall (λ l : vec, length l = 3%nat) out.
Proof.
  assert (shaped 3 2 1 2 2 8 tiny_transformer) as Hsh.
  { unfold shaped, block_shaped, matrix. simpl.
    repeat (split || constructor). }
  split; [exact Hsh|].
  destruct (transformer_forward_meets_generate tiny_transformer)
    as (Hrow & _ & _ & _ & Hret).
  destruct (proj2 (Hret 3%nat 2%nat 1%nat 2%nat 2%nat 8%nat [1; 2; 0]%Z
                     Hsh)) as [out Ho].
  { split; [repeat constructor; lia|]. intros _.
    split; [simpl; lia|]. split; [lia|reflexivity]. }
  exists out. split; [exact Ho|].
  destruct (Hrow [1; 2; 0]%Z out Ho) as (Hl & Hw & _).
  split; [exact Hl|exact Hw].
Defined.

Lemma block_is_residual_witness :
  Forall (λ r : vec, length r = 2%nat) [[1; 2]; [3; 4]]
  ∧ TransformerBlock_forward zero_output_block [[1; 2]; [3; 4]]
      (take 2 (precompute_freqs_cis 2 8 10000)) (causal_mask 2)
    = Some [[1; 2]; [3; 4]].
Proof.
  assert (Forall (λ r : vec, length r = 2%nat) [[1; 2]; [3; 4]]) as Hx
    by (repeat constructor).
  split; [done|].
  assert (is_Some (TransformerBlock_forward zero_output_block
                     [[1; 2]; [3; 4]]
                     (take 2 (precompute_freqs_cis 2 8 10000))
                     (causal_mask 2))) as [out Ho]
    by (apply (bool_decide_unpack _); lazy; exact I).
  rewrite Ho. f_equal.
  exact (block_is_residual zero_output_block [[1; 2]; [3; 4]] out
           (take 2 (precompute_freqs_cis 2 8 10000)) (causal_mask 2)
           2 2 2 Hx eq_refl eq_refl Ho).
Defined.

End NumericMoreFacts.
